(** * update_examples.py: the BLS key-pair migration script of gun.rs

    A shallow embedding of [src/update_examples.py] and the proofs of its
    specified properties.

    Python strings are modelled as lists of characters.  Characters are the
    256 code points of [ascii] (Latin-1); the Unicode character classes of
    Python's [re] module and of [str.lstrip]/[str.rstrip] are given on that
    range. *)

From Stdlib Require Import Ascii String List Bool Arith NArith Lia.
From Stdlib Require Import DecimalString.
From Stdlib Require Import Sorting.Permutation.
From Stdlib Require DecimalNat DecimalFacts.
Import ListNotations.

Set Implicit Arguments.
Local Open Scope string_scope.
Local Open Scope nat_scope.
Local Open Scope list_scope.

(** ** Text *)

Abbreviation text := (list ascii) (only parsing).

(** String literals are read as texts. *)
Coercion list_ascii_of_string : string >-> list.

Definition lit (s : string) : text := list_ascii_of_string s.

Definition newline : ascii := "010"%char.

(** *** Character classes

    [\s] of a [str] pattern is [str.isspace]: TAB, LF, VT, FF, CR, the
    separators FS, GS, RS, US, the space, NEL (133) and the no-break space
    (160). *)
Definition is_space (c : ascii) : bool :=
  let n := N_of_ascii c in
  ((9 <=? n) && (n <=? 13) || (28 <=? n) && (n <=? 32)
   || (n =? 133) || (n =? 160))%N.

(** [\w] of a [str] pattern: the alphanumeric characters ([str.isalnum])
    and the underscore. *)
Definition is_word (c : ascii) : bool :=
  let n := N_of_ascii c in
  ((48 <=? n) && (n <=? 57) || (65 <=? n) && (n <=? 90)
   || (97 <=? n) && (n <=? 122) || (n =? 95)
   || (n =? 170) || (n =? 178) || (n =? 179) || (n =? 181)
   || (n =? 185) || (n =? 186) || (188 <=? n) && (n <=? 190)
   || (192 <=? n) && (n <=? 214) || (216 <=? n) && (n <=? 246)
   || (248 <=? n) && (n <=? 255))%N.

(** *** String operations of Python's [str] *)

Fixpoint text_eqb (a b : text) : bool :=
  match a, b with
  | [], [] => true
  | x :: a', y :: b' => Ascii.eqb x y && text_eqb a' b'
  | _, _ => false
  end.

(** [strip_prefix p s] is [Some r] when [s = p ++ r]. *)
Fixpoint strip_prefix (p s : text) : option text :=
  match p with
  | [] => Some s
  | x :: p' =>
      match s with
      | [] => None
      | y :: s' => if Ascii.eqb x y then strip_prefix p' s' else None
      end
  end.

Definition starts_with (p s : text) : bool :=
  match strip_prefix p s with Some _ => true | None => false end.

(** [p in s] *)
Fixpoint contains (p s : text) : bool :=
  starts_with p s ||
  match s with
  | [] => false
  | _ :: s' => contains p s'
  end.

(** [s.split(c)] for a one-character separator. *)
Fixpoint split (c : ascii) (s : text) : list text :=
  match s with
  | [] => [[]]
  | x :: s' =>
      if Ascii.eqb x c then [] :: split c s'
      else match split c s' with
           | [] => [[x]]
           | l :: ls => (x :: l) :: ls
           end
  end.

(** [sep.join(ls)] *)
Fixpoint join (sep : text) (ls : list text) : text :=
  match ls with
  | [] => []
  | [l] => l
  | l :: ls' => l ++ sep ++ join sep ls'
  end.

(** [s.lstrip()] *)
Fixpoint lstrip (s : text) : text :=
  match s with
  | [] => []
  | x :: s' => if is_space x then lstrip s' else s
  end.

(** [s.rstrip()] *)
Definition rstrip (s : text) : text := rev (lstrip (rev s)).

(** [xs[lo:hi]] for non-negative bounds. *)
Definition slice {A} (lo hi : nat) (xs : list A) : list A :=
  firstn (hi - lo) (skipn lo xs).

(** [str(n)] for a non-negative integer. *)
Definition str (n : nat) : text :=
  NilZero.string_of_uint (Nat.to_uint n).

(** [s.replace(old, new)]: the occurrences of [old] from left to right,
    without overlap.  An empty [old] matches before every character and at
    the end. *)
Fixpoint replace_aux (fuel : nat) (old new s : text) : text :=
  match fuel with
  | 0 => s
  | S fuel' =>
      match s with
      | [] => []
      | x :: s' =>
          match strip_prefix old s with
          | Some rest => new ++ replace_aux fuel' old new rest
          | None => x :: replace_aux fuel' old new s'
          end
      end
  end.

Definition replace (old new s : text) : text :=
  match old with
  | [] => new ++ flat_map (fun x => x :: new) s
  | _ => replace_aux (length s) old new s
  end.

(** ** Regular expressions

    The fragment of Python's [re] syntax that the script uses: literals,
    greedy [+] and [*] over a character class, concatenation and numbered
    capturing groups.  Matching is the backtracking search of [re]: a greedy
    quantifier takes the longest run first and gives characters back while
    the rest of the pattern fails. *)

Inductive regex : Type :=
| RLit (l : text)
| RPlus (cls : ascii -> bool)
| RStar (cls : ascii -> bool)
| RSeq (r1 r2 : regex)
| RGroup (n : nat) (r : regex).

Definition captures := list (nat * text).

Fixpoint group (n : nat) (caps : captures) : text :=
  match caps with
  | [] => []
  | (m, t) :: caps' => if Nat.eqb m n then t else group n caps'
  end.

Section Matcher.
Variable A : Type.

(** [cls*] followed by the continuation [k], longest run first. *)
Fixpoint greedy (cls : ascii -> bool) (s : text) (k : text -> option A)
  : option A :=
  match s with
  | x :: s' =>
      if cls x then
        match greedy cls s' k with
        | Some r => Some r
        | None => k s
        end
      else k s
  | [] => k s
  end.

Fixpoint rmatch (r : regex) (s : text) (caps : captures)
         (k : text -> captures -> option A) : option A :=
  match r with
  | RLit l =>
      match strip_prefix l s with
      | Some s' => k s' caps
      | None => None
      end
  | RPlus cls =>
      match s with
      | x :: s' => if cls x then greedy cls s' (fun t => k t caps) else None
      | [] => None
      end
  | RStar cls => greedy cls s (fun t => k t caps)
  | RSeq r1 r2 => rmatch r1 s caps (fun t c => rmatch r2 t c k)
  | RGroup n r1 =>
      rmatch r1 s caps
        (fun t c => k t ((n, firstn (length s - length t) s) :: c))
  end.
End Matcher.

(** [re.match]-like: the match that starts at the head of [s], as the
    captured groups and the text left after it. *)
Definition match_at (r : regex) (s : text) : option (captures * text) :=
  rmatch r s [] (fun t c => Some (c, t)).

(** [re.search]: the first position, from the left, where a match starts. *)
Fixpoint search (r : regex) (s : text) : option (captures * text) :=
  match match_at r s with
  | Some m => Some m
  | None =>
      match s with
      | [] => None
      | _ :: s' => search r s'
      end
  end.

(** Replacement templates: literal text and group references [\n]. *)
Inductive titem : Type :=
| TLit (l : text)
| TGroup (n : nat).

Definition template := list titem.

Fixpoint expand (tpl : template) (caps : captures) : text :=
  match tpl with
  | [] => []
  | TLit l :: tpl' => l ++ expand tpl' caps
  | TGroup n :: tpl' => group n caps ++ expand tpl' caps
  end.

(** [re.sub(r, tpl, s)]: the matches from left to right without overlap,
    each replaced by the expanded template.  A match of length zero is
    replaced and the scan moves on by one character. *)
Fixpoint sub_aux (fuel : nat) (r : regex) (tpl : template) (s : text) : text :=
  match fuel with
  | 0 => s
  | S fuel' =>
      match match_at r s with
      | Some (caps, rest) =>
          if length rest <? length s
          then expand tpl caps ++ sub_aux fuel' r tpl rest
          else match s with
               | [] => expand tpl caps
               | x :: s' => expand tpl caps ++ x :: sub_aux fuel' r tpl s'
               end
      | None =>
          match s with
          | [] => []
          | x :: s' => x :: sub_aux fuel' r tpl s'
          end
      end
  end.

Definition sub (r : regex) (tpl : template) (s : text) : text :=
  sub_aux (S (length s)) r tpl s.

(** [re.finditer(r, s)]: the end offset of every match, from left to
    right without overlap ([pos] is the offset of [s] in the whole text). *)
Fixpoint finditer_aux (fuel : nat) (r : regex) (pos : nat) (s : text)
  : list nat :=
  match fuel with
  | 0 => []
  | S fuel' =>
      match match_at r s with
      | Some (_, rest) =>
          let e := pos + (length s - length rest) in
          if length rest <? length s
          then e :: finditer_aux fuel' r e rest
          else match s with
               | [] => [e]
               | _ :: s' => e :: finditer_aux fuel' r (S pos) s'
               end
      | None =>
          match s with
          | [] => []
          | _ :: s' => finditer_aux fuel' r (S pos) s'
          end
      end
  end.

Definition finditer_ends (r : regex) (s : text) : list nat :=
  finditer_aux (S (length s)) r 0 s.

(** ** The script *)

Definition nl : text := [newline].

Infix ";;" := RSeq (at level 61, right associativity).

(** [\s+], [\s *] and [\w+] *)
Definition ws_plus : regex := RPlus is_space.
Definition ws_star : regex := RStar is_space.
Definition word_plus : regex := RPlus is_word.

(** [use_pattern] is the source's [(use [^;]+;)]. *)
Definition not_semicolon (c : ascii) : bool := negb (Ascii.eqb c ";"%char).

Definition use_pattern : regex :=
  RGroup 1 (RLit "use " ;; RPlus not_semicolon ;; RLit ";").

(** [pattern] is the source's regular expression, written here with a
    blank between its parts:
    [( \s+ )( let \s+ gun \s* = \s* ) Gun::new\(\);] *)
Definition pattern : regex :=
  RGroup 1 ws_plus ;;
  RGroup 2 (RLit "let" ;; ws_plus ;; RLit "gun" ;; ws_star ;; RLit "=" ;; ws_star) ;;
  RLit "Gun::new();".

Definition comment_line : text := "// Generate BLS key pair".
Definition secret_key_stmt : text :=
  "let secret_key = SecretKey::from_seed(&[0u8; 32]);".
Definition public_key_stmt : text :=
  "let public_key = secret_key.public_key();".

(** [replacement] is the source's template
    [\1// Generate BLS key pair\n\1let secret_key = SecretKey::from_seed(&[0u8; 32]);\n\1let public_key = secret_key.public_key();\n\1\2Gun::new(secret_key, public_key);] *)
Definition replacement : template :=
  [TGroup 1; TLit comment_line; TLit nl;
   TGroup 1; TLit secret_key_stmt; TLit nl;
   TGroup 1; TLit public_key_stmt; TLit nl;
   TGroup 1; TGroup 2; TLit "Gun::new(secret_key, public_key);"].

(** [pattern2], with a blank between its parts:
    [( \s+ )( let \s+ \w+ \s* = \s* Arc::new\( ) Gun::new\(\)\);];
    [replacement2] is [replacement] with one more closing parenthesis. *)
Definition pattern2 : regex :=
  RGroup 1 ws_plus ;;
  RGroup 2 (RLit "let" ;; ws_plus ;; word_plus ;; ws_star ;; RLit "=" ;; ws_star
            ;; RLit "Arc::new(") ;;
  RLit "Gun::new());".

Definition replacement2 : template :=
  [TGroup 1; TLit comment_line; TLit nl;
   TGroup 1; TLit secret_key_stmt; TLit nl;
   TGroup 1; TLit public_key_stmt; TLit nl;
   TGroup 1; TGroup 2; TLit "Gun::new(secret_key, public_key));"].

(** The pattern of line 69, [Gun::with_options\( (\w+) \)]. *)
Definition options_pattern : regex :=
  RLit "Gun::with_options(" ;; RGroup 1 word_plus ;; RLit ")".

Definition import_line : text := "use chia_bls::{SecretKey, PublicKey};".

(** *** Import augmenter (lines 17-27)

    Every pass takes and returns the evolving [content] and the [updated]
    flag. *)
Definition import_augmenter (content : text) (updated : bool) : text * bool :=
  if contains "use gun::" content || contains "use gun::" content then
    if negb (contains "use chia_bls::" content) then
      let matches := finditer_ends use_pattern content in
      match matches with
      | [] => (content, updated)
      | _ :: _ =>
          let insert_pos := last matches 0 in
          (firstn insert_pos content ++ nl ++ import_line
             ++ skipn insert_pos content, true)
      end
    else (content, updated)
  else (content, updated).

(** *** No-argument constructor rewriter (lines 29-45) *)
Definition no_arg_rewriter (content : text) (updated : bool) : text * bool :=
  if contains "Gun::new()" content then
    let new_content := sub pattern replacement content in
    let '(content, updated) :=
      if negb (text_eqb new_content content) then (new_content, true)
      else (content, updated) in
    let new_content := sub pattern2 replacement2 content in
    if negb (text_eqb new_content content) then (new_content, true)
    else (content, updated)
  else (content, updated).

(** *** Options-argument constructor rewriter (lines 47-90) *)

(** The state of the [while] loop. *)
Record loop_state : Type := mk_state {
  i : nat;
  new_lines : list text;
  key_counter : nat;
  updated_flag : bool
}.

(** ['\n'.join(lines[max(0, i-5):i])] *)
Definition lookback (lines : list text) (i : nat) : text :=
  join nl (slice (Nat.max 0 (i - 5)) i lines).

Definition secret_key_name (k : nat) : text := "secret_key" ++ str k.
Definition public_key_name (k : nat) : text := "public_key" ++ str k.

(** The f-string [key_gen] of lines 74-75. *)
Definition key_gen (indent_str : text) (k : nat) : text :=
  (indent_str ++ "let " ++ secret_key_name k ++ " = SecretKey::from_seed(&["
     ++ str k ++ "u8; 32]);" ++ nl)
  ++ (indent_str ++ "let " ++ public_key_name k ++ " = " ++ secret_key_name k
        ++ ".public_key();" ++ nl).

Definition old_call (options_var : text) : text :=
  "Gun::with_options(" ++ options_var ++ ")".

Definition new_call (k : nat) (options_var : text) : text :=
  "Gun::with_options(" ++ secret_key_name k ++ ", " ++ public_key_name k
    ++ ", " ++ options_var ++ ")".

(** One iteration of the loop (lines 60-87). *)
Definition loop_body (lines : list text) (st : loop_state) : loop_state :=
  let line := nth (i st) lines [] in
  if contains "Gun::with_options(" line
     && negb (contains "SecretKey::from_seed" (lookback lines (i st)))
  then
    let indent := length line - length (lstrip line) in
    let indent_str := repeat " "%char indent in
    match search options_pattern line with
    | Some (caps, _) =>
        let options_var := group 1 caps in
        let k := key_counter st in
        let line' := replace (old_call options_var) (new_call k options_var) line in
        mk_state (S (i st))
                 (new_lines st ++ [rstrip (key_gen indent_str k); line'])
                 (S k) true
    | None =>
        mk_state (S (i st)) (new_lines st ++ [line]) (key_counter st)
                 (updated_flag st)
    end
  else
    mk_state (S (i st)) (new_lines st ++ [line]) (key_counter st)
             (updated_flag st).

(** [while i < len(lines): ...] *)
Fixpoint while_loop (fuel : nat) (lines : list text) (st : loop_state)
  : loop_state :=
  match fuel with
  | 0 => st
  | S fuel' =>
      if i st <? length lines then while_loop fuel' lines (loop_body lines st)
      else st
  end.

Definition options_rewriter (content : text) (updated : bool) : text * bool :=
  if contains "Gun::with_options(" content then
    let lines := split newline content in
    let st := while_loop (length lines) lines (mk_state 0 [] 1 updated) in
    (if updated_flag st then join nl (new_lines st) else content,
     updated_flag st)
  else (content, updated).

(** *** The three passes in order *)
Definition transform (original_content : text) : text * bool :=
  let '(content, updated) := import_augmenter original_content false in
  let '(content, updated) := no_arg_rewriter content updated in
  options_rewriter content updated.

(** *** File update orchestrator (lines 9-96)

    [open] reaches a file through a name: a path names a file, and several
    paths (links, other spellings of one path) can name the same file.
    [resolve] gives the file that a path names, [store] the text of a
    file, if there is one.  Opening for reading a path that names no file
    raises: [update_file] returns [None].  Opening for writing puts the
    text into the file that the path names and changes no name;
    [update_file] writes only to a path that it has read. *)
Definition file_id := string.

Record filesystem : Type := mk_filesystem {
  resolve : string -> file_id;
  store : file_id -> option text
}.

(** [open(path, 'r')] and [f.read()] *)
Definition read_file (fs : filesystem) (path : string) : option text :=
  store fs (resolve fs path).

Coercion read_file : filesystem >-> Funclass.

(** [open(path, 'w')] and [f.write(content)] *)
Definition write_file (fs : filesystem) (path : string) (content : text)
  : filesystem :=
  mk_filesystem (resolve fs)
    (fun f => if String.eqb f (resolve fs path) then Some content
              else store fs f).

Definition update_file (fs : filesystem) (file_path : string)
  : option (filesystem * bool) :=
  match fs file_path with
  | None => None
  | Some original_content =>
      let '(content, updated) := transform original_content in
      if updated && negb (text_eqb content original_content)
      then Some (write_file fs file_path content, true)
      else Some (fs, false)
  end.

(** *** Entry point (lines 98-113)

    A [pathlib] path is the list of its parts.  What [base_dir.glob] yields
    for a pattern is given by the environment, as the function [glob]; the
    printed lines are collected in [stdout], one text for each call of
    [print].  An exception leaves the loop with the world as it is then. *)
Definition path := list string.

(** [str(file_path)] *)
Definition path_str (p : path) : string :=
  match p with
  | [] => "."
  | _ => String.concat "/" p
  end.

(** [p < q] for two paths: the order of their parts, part by part. *)
Fixpoint path_ltb (p q : path) : bool :=
  match p, q with
  | [], [] => false
  | [], _ :: _ => true
  | _ :: _, [] => false
  | x :: p', y :: q' => if String.eqb x y then path_ltb p' q' else String.ltb x y
  end.

(** [sorted]: a stable sort by [<]; [insert] puts a path before the first
    one that is not smaller. *)
Fixpoint insert (x : path) (l : list path) : list path :=
  match l with
  | [] => [x]
  | y :: l' => if path_ltb y x then y :: insert x l' else x :: y :: l'
  end.

Definition sorted (l : list path) : list path := fold_right insert [] l.

Record world : Type := mk_world {
  files : filesystem;
  stdout : list text
}.

Inductive outcome : Type :=
| Returned (w : world)
| Raised (w : world).

Definition world_of (o : outcome) : world :=
  match o with
  | Returned w => w
  | Raised w => w
  end.

(** The loop of lines 108-111; [None] for the count when [update_file]
    raises. *)
Fixpoint update_all (paths : list path) (w : world) (updated_count : nat)
  : world * option nat :=
  match paths with
  | [] => (w, Some updated_count)
  | file_path :: rest =>
      match update_file (files w) (path_str file_path) with
      | None => (w, None)
      | Some (fs, true) =>
          update_all rest
            (mk_world fs (stdout w ++ ["Updated: " ++ path_str file_path]))
            (S updated_count)
      | Some (fs, false) => update_all rest (mk_world fs (stdout w)) updated_count
      end
  end.

Definition main (glob : string -> list path) (w : world) : outcome :=
  let files_to_update :=
    flat_map glob ["examples/**/*.rs"; "tests/**/*.rs"] in
  match update_all (sorted files_to_update) w 0 with
  | (w', Some updated_count) =>
      Returned (mk_world (files w')
                  (stdout w' ++ [nl ++ "Total files updated: " ++ str updated_count]))
  | (w', None) => Raised w'
  end.

(** * Notions used in the statements *)

(** ** Runs of a character class *)

(** The longest prefix of [s] in the class, and what follows it. *)
Fixpoint take_while (cls : ascii -> bool) (s : text) : text :=
  match s with
  | x :: s' => if cls x then x :: take_while cls s' else []
  | [] => []
  end.

Fixpoint drop_while (cls : ascii -> bool) (s : text) : text :=
  match s with
  | x :: s' => if cls x then drop_while cls s' else s
  | [] => []
  end.

(** Every character of [s] is in the class. *)
Definition all (cls : ascii -> bool) (s : text) : Prop :=
  Forall (fun c => cls c = true) s.

(** The text is empty or starts with a character outside the class. *)
Definition stops (cls : ascii -> bool) (s : text) : Prop :=
  match s with
  | [] => True
  | x :: _ => cls x = false
  end.

(** ** The statements that the constructor patterns match *)

(** Group 2 of [pattern] and of [pattern2], for the white space [w2],
    [w3], [w4] and the identifier [name]. *)
Definition bare_stmt (w2 w3 w4 : text) : text :=
  "let" ++ w2 ++ "gun" ++ w3 ++ "=" ++ w4.

Definition arc_stmt (w2 name w3 w4 : text) : text :=
  "let" ++ w2 ++ name ++ w3 ++ "=" ++ w4 ++ "Arc::new(".

(** ** Texts without a match *)

(** No match starts anywhere in [s]. *)
Definition no_match (r : regex) (s : text) : Prop :=
  forall a b, s = a ++ b -> match_at r b = None.

(** ** The states of the loop *)

(** The two literals that the loop looks for. *)
Definition call_marker : text := "Gun::with_options(".

Definition key_marker : text := "SecretKey::from_seed".

(** The state after a line that is copied as it is. *)
Definition copied (lines : list text) (st : loop_state) : loop_state :=
  mk_state (S (i st)) (new_lines st ++ [nth (i st) lines []])
           (key_counter st) (updated_flag st).

(** The state after a line that is rewritten for the identifier
    [options_var]. *)
Definition rewritten (lines : list text) (st : loop_state)
           (options_var : text) : loop_state :=
  let line := nth (i st) lines [] in
  let indent_str := repeat " "%char (length line - length (lstrip line)) in
  let k := key_counter st in
  mk_state (S (i st))
           (new_lines st ++
              [rstrip (key_gen indent_str k);
               replace (old_call options_var) (new_call k options_var) line])
           (S k) true.

(** Line [j] is copied whatever the state of the loop. *)
Definition copies (lines : list text) (j : nat) : Prop :=
  forall st, i st = j -> loop_body lines st = copied lines st.

(** The two lines of [key_gen], without their line breaks. *)
Definition secret_key_line (indent_str : text) (k : nat) : text :=
  indent_str ++ "let " ++ secret_key_name k ++ " = SecretKey::from_seed(&["
    ++ str k ++ "u8; 32]);".

Definition public_key_line (indent_str : text) (k : nat) : text :=
  indent_str ++ "let " ++ public_key_name k ++ " = " ++ secret_key_name k
    ++ ".public_key();".

(** [indent_str] for a line. *)
Definition indent_of (line : text) : text :=
  repeat " "%char (length line - length (lstrip line)).

(** ** Statements and closed texts *)

Definition semicolon : ascii := ";"%char.

Definition slash : ascii := "/"%char.

(** [m] ends in a semicolon and has no other. *)
Definition ends_stmt (m : text) : Prop :=
  exists m0, m = m0 ++ [semicolon] /\ ~ In semicolon m0.

(** [a] is empty or ends in a semicolon. *)
Definition closed (a : text) : Prop :=
  a = [] \/ exists a0, a = a0 ++ [semicolon].

(** ** The replacement blocks *)

(** What both templates expand to: four pieces, each after the white
    space [w] of group 1. *)
Definition block (w g2 tail : text) : text :=
  w ++ comment_line ++ nl ++ w ++ secret_key_stmt ++ nl
    ++ w ++ public_key_stmt ++ nl ++ w ++ g2 ++ tail.

(** No character of [p] is white space. *)
Definition no_space (p : text) : Prop :=
  Forall (fun c => is_space c = false) p.

(** The literals that end [pattern] and [pattern2]. *)
Definition final1 : text := "Gun::new();".

Definition final2 : text := "Gun::new());".

(** ** Occurrences of a literal *)

(** The number of positions of [s] at which [p] starts. *)
Fixpoint occurrences (p s : text) : nat :=
  (if starts_with p s then 1 else 0)
  + match s with [] => 0 | _ :: s' => occurrences p s' end.

(** The occurrences in the lines [ls], line by line. *)
Definition total (p : text) (ls : list text) : nat :=
  list_sum (map (occurrences p) ls).

Definition brace : ascii := "{"%char.

(** ** [use] statements *)

(** The text of a match of [use_pattern]. *)
Definition use_stmt (body : text) : text := "use " ++ body ++ ";".

(** ** The lines that the loop rewrites *)

(** The test of lines 63 and 70 for line [j]: it reads the line list the
    pass started from. *)
Definition rewrites (lines : list text) (j : nat) : bool :=
  contains "Gun::with_options(" (nth j lines [])
  && negb (contains "SecretKey::from_seed" (lookback lines j))
  && match search options_pattern (nth j lines []) with
     | Some _ => true
     | None => false
     end.

(** Group 1 of the first match of the pattern of line 69. *)
Definition options_var (line : text) : text :=
  match search options_pattern line with
  | Some (caps, _) => group 1 caps
  | None => []
  end.

(** What the loop appends for line [j] when the key counter is [k]. *)
Definition emitted (lines : list text) (j k : nat) : list text :=
  let line := nth j lines [] in
  if rewrites lines j then
    [rstrip (key_gen (indent_of line) k);
     replace (old_call (options_var line)) (new_call k (options_var line)) line]
  else [line].

(** The number of rewritten lines among the [n] lines from [a] on. *)
Definition sites (lines : list text) (a n : nat) : nat :=
  length (filter (rewrites lines) (seq a n)).

(** The lines that the pass emits for the lines [lines]. *)
Definition emitted_lines (lines : list text) : list text :=
  flat_map (fun j => emitted lines j (1 + sites lines 0 j))
           (seq 0 (length lines)).

(** ** Texts with insertions *)

(** [subseq a b]: [a] is [b] with some characters left out. *)
Inductive subseq : text -> text -> Prop :=
| subseq_nil : subseq [] []
| subseq_skip x a b : subseq a b -> subseq a (x :: b)
| subseq_keep x a b : subseq a b -> subseq (x :: a) (x :: b).

(** The lines [ls] with a line break before each. *)
Definition broken (ls : list text) : text :=
  flat_map (fun l => newline :: l) ls.

(** [differs a b]: [a != b] *)
Definition differs (a b : text) : bool := negb (text_eqb a b).

(** A pass that only inserts text, and raises the flag exactly when it
    has. *)
Definition inserting_pass (pass : text -> bool -> text * bool) : Prop :=
  forall content updated,
    subseq content (fst (pass content updated))
    /\ snd (pass content updated)
       = updated || differs (fst (pass content updated)) content.

(** ** A second run of the options rewriter *)

(** The last five of the lines [prev]. *)
Definition window (prev : list text) : list text :=
  skipn (length prev - 5) prev.

(** The test of lines 63 and 70 for a line that comes after the lines
    [prev]. *)
Definition rewrites_after (prev : list text) (line : text) : bool :=
  contains "Gun::with_options(" line
  && negb (contains "SecretKey::from_seed" (join nl (window prev)))
  && match search options_pattern line with
     | Some _ => true
     | None => false
     end.

(** No line of [ls], read after the lines [prev], is rewritten. *)
Fixpoint settled (prev ls : list text) : bool :=
  match ls with
  | [] => true
  | l :: ls' => negb (rewrites_after prev l) && settled (prev ++ [l]) ls'
  end.

(** The lines of the text that the pass writes for line [j]. *)
Definition written (lines : list text) (j : nat) : list text :=
  flat_map (split newline) (emitted lines j (1 + sites lines 0 j)).

(** ** Files and worlds *)

(** A file system without links: every path names a file of its own. *)
Definition plain (texts : string -> option text) : filesystem :=
  mk_filesystem (fun path => path) texts.

(** The file that a path names in a world. *)
Definition file_of (w : world) (p : path) : file_id :=
  resolve (files w) (path_str p).

Definition same_file (a b : option text) : bool :=
  match a, b with
  | Some x, Some y => text_eqb x y
  | None, None => true
  | _, _ => false
  end.

(** The file at [p] is not the same in the two worlds. *)
Definition changed (w w' : world) (p : path) : bool :=
  negb (same_file (files w (path_str p)) (files w' (path_str p))).

Definition globbed (glob : string -> list path) : list path :=
  glob "examples/**/*.rs" ++ glob "tests/**/*.rs".

(** ** Example files and lines *)

(** A file that is migrated already. *)
Definition sample_fs : filesystem :=
  plain (fun p =>
    if String.eqb p "examples/keys.rs"
    then Some ("use gun::Gun;" ++ nl ++ import_line ++ nl ++ "fn main() {}")
    else None).

(** A call whose argument is an expression, a call whose argument is an
    identifier, and a key-generation line. *)
Definition call_with_expression : text :=
  "    let gun = Gun::with_options(GunOptions::default()).await;".

Definition call_line : text := "    let gun = Gun::with_options(options).await;".

Definition migrated_key_line : text :=
  "    let secret_key = SecretKey::from_seed(&[0u8; 32]);".

Definition blank_lines (n : nat) : list text := repeat [] n.

(** Two calls on two lines that follow each other. *)
Definition two_calls : text :=
  "    let gun1 = Gun::with_options(options).await;" ++ nl ++
  "    let gun2 = Gun::with_options(options).await;".

(** An import, and the bare constructor call on a line of its own. *)
Definition bare_example : text :=
  "use gun::Gun;" ++ nl ++ nl ++ "fn main() {" ++ nl
    ++ "    let gun = Gun::new();" ++ nl ++ "}".

(** A file that holds the import line and both kinds of call. *)
Definition migrated_example : text :=
  "use gun::Gun;" ++ nl ++ import_line ++ nl ++ nl
    ++ "fn main() {" ++ nl
    ++ "    let gun = Gun::new();" ++ nl
    ++ "    let peer = Gun::with_options(options);" ++ nl
    ++ "}".

Definition migrated_fs : filesystem :=
  plain (fun p => if String.eqb p "examples/basic.rs" then Some migrated_example
                  else None).

(** A file with two imports. *)
Definition imports_example : text :=
  "use gun::Gun;" ++ nl ++ "use std::sync::Arc;" ++ nl ++ nl ++ "fn main() {}".

(** A tree with three files, two of them not yet migrated. *)
Definition example_glob (pattern : string) : list path :=
  if String.eqb pattern "examples/**/*.rs"
  then [["examples"; "keys.rs"]; ["examples"; "basic.rs"]]
  else if String.eqb pattern "tests/**/*.rs" then [["tests"; "net"; "sync.rs"]]
  else [].

Definition example_world : world :=
  mk_world
    (plain (fun p =>
       if String.eqb p "examples/basic.rs" then Some bare_example
       else if String.eqb p "examples/keys.rs"
       then Some ("use gun::Gun;" ++ nl ++ import_line ++ nl ++ "fn main() {}")
       else if String.eqb p "tests/net/sync.rs" then Some two_calls
       else if String.eqb p "src/lib.rs" then Some (lit "pub mod gun;")
       else None))
    [].

(** A tree in which [examples/link.rs] is a link to a file outside the two
    directories, and [examples/a.rs] and [examples/b.rs] are two names of
    one file. *)
Definition linked_glob (pattern : string) : list path :=
  if String.eqb pattern "examples/**/*.rs"
  then [["examples"; "a.rs"]; ["examples"; "b.rs"]; ["examples"; "link.rs"]]
  else [].

Definition linked_world : world :=
  mk_world
    (mk_filesystem
       (fun p =>
          if String.eqb p "examples/link.rs" then "src/demo.rs"
          else if String.eqb p "examples/b.rs" then "examples/a.rs"
          else p)
       (fun f =>
          if String.eqb f "examples/a.rs" then Some bare_example
          else if String.eqb f "src/demo.rs" then Some two_calls
          else if String.eqb f "src/lib.rs" then Some (lit "pub mod gun;")
          else None))
    [].

(** The same tree, where the pattern yields a path that cannot be read. *)
Definition stale_glob (pattern : string) : list path :=
  if String.eqb pattern "examples/**/*.rs"
  then [["examples"; "gone.rs"]; ["examples"; "basic.rs"]]
  else example_glob pattern.

(** A line with two calls on different identifiers. *)
Definition two_calls_line : text :=
  "    let a = Gun::with_options(opts1).await; let b = Gun::with_options(opts2).await;".

(** * Properties *)

(** ** Texts *)

Lemma text_eqb_refl (a : text) : text_eqb a a = true.
Proof.
  induction a as [|x a IH]; simpl; auto.
  now rewrite Ascii.eqb_refl.
Qed.

Lemma text_eqb_eq (a b : text) : text_eqb a b = true <-> a = b.
Proof.
  split.
  - revert b; induction a as [|x a IH]; intros [|y b]; simpl; try easy.
    intros H. apply andb_true_iff in H as [Hx Hab].
    apply Ascii.eqb_eq in Hx. f_equal; auto.
  - intros ->. apply text_eqb_refl.
Qed.

Lemma text_eqb_neq (a b : text) : text_eqb a b = false <-> a <> b.
Proof.
  rewrite <- text_eqb_eq. destruct (text_eqb a b); intuition congruence.
Qed.

Lemma strip_prefix_app (p r : text) : strip_prefix p (p ++ r) = Some r.
Proof.
  induction p as [|x p IH]; simpl; auto.
  now rewrite Ascii.eqb_refl.
Qed.

Lemma strip_prefix_Some (p s r : text) :
  strip_prefix p s = Some r -> s = p ++ r.
Proof.
  revert s; induction p as [|x p IH]; intros s; simpl.
  - now intros [= ->].
  - destruct s as [|y s]; try easy.
    destruct (Ascii.eqb_spec x y) as [->|]; try easy.
    intros H. f_equal. now apply IH.
Qed.

Lemma strip_prefix_length (p s r : text) :
  strip_prefix p s = Some r -> length s = length p + length r.
Proof.
  intros H. apply strip_prefix_Some in H. subst. now rewrite length_app.
Qed.

Lemma starts_with_app (p r : text) : starts_with p (p ++ r) = true.
Proof. unfold starts_with. now rewrite strip_prefix_app. Qed.

Lemma starts_with_true (p s : text) :
  starts_with p s = true -> exists r, s = p ++ r.
Proof.
  unfold starts_with. destruct (strip_prefix p s) as [r|] eqn:E; try easy.
  intros _. exists r. now apply strip_prefix_Some.
Qed.

Lemma contains_unfold (p s : text) :
  contains p s =
  starts_with p s || match s with [] => false | _ :: s' => contains p s' end.
Proof. destruct s; reflexivity. Qed.

Lemma contains_starts (p s : text) :
  starts_with p s = true -> contains p s = true.
Proof. intros H. rewrite contains_unfold, H. reflexivity. Qed.

Lemma contains_intro (a p b : text) : contains p (a ++ p ++ b) = true.
Proof.
  induction a as [|x a IH]; simpl.
  - apply contains_starts, starts_with_app.
  - rewrite IH. apply orb_true_r.
Qed.

Lemma contains_elim (p s : text) :
  contains p s = true -> exists a b, s = a ++ p ++ b.
Proof.
  induction s as [|x s IH]; simpl; intros H.
  - rewrite orb_false_r in H. apply starts_with_true in H as [r Hr].
    now exists [], r.
  - apply orb_true_iff in H as [H|H].
    + apply starts_with_true in H as [r Hr]. now exists [], r.
    + destruct (IH H) as (a & b & ->). now exists (x :: a), b.
Qed.

Lemma contains_iff (p s : text) :
  contains p s = true <-> exists a b, s = a ++ p ++ b.
Proof.
  split; [apply contains_elim|].
  intros (a & b & ->). apply contains_intro.
Qed.

Lemma contains_false_app (p a b : text) :
  contains p (a ++ b) = false -> contains p a = false /\ contains p b = false.
Proof.
  intros H. split.
  - destruct (contains p a) eqn:E; auto.
    apply contains_elim in E as (u & v & ->).
    rewrite <- H. repeat rewrite <- app_assoc. symmetry. apply contains_intro.
  - destruct (contains p b) eqn:E; auto.
    apply contains_elim in E as (u & v & ->).
    rewrite <- H. rewrite app_assoc. symmetry. apply contains_intro.
Qed.

(** A text that lacks a character of [p] does not contain [p]. *)
Lemma contains_missing_char (c : ascii) (p s : text) :
  In c p -> ~ In c s -> contains p s = false.
Proof.
  intros Hp Hs. destruct (contains p s) eqn:E; auto.
  apply contains_elim in E as (a & b & ->).
  exfalso. apply Hs. apply in_or_app. right. apply in_or_app. now left.
Qed.

(** ** Runs of a character class *)

Lemma take_drop_while cls s : take_while cls s ++ drop_while cls s = s.
Proof.
  induction s as [|x s IH]; simpl; auto.
  destruct (cls x); simpl; congruence.
Qed.

Lemma take_while_all cls s : all cls (take_while cls s).
Proof.
  induction s as [|x s IH]; simpl; try constructor.
  destruct (cls x) eqn:E; constructor; auto.
Qed.

Lemma drop_while_stops cls s : stops cls (drop_while cls s).
Proof.
  induction s as [|x s IH]; simpl; auto.
  destruct (cls x) eqn:E; simpl; auto.
Qed.

Lemma take_while_app cls w s :
  all cls w -> stops cls s -> take_while cls (w ++ s) = w.
Proof.
  intros Hw Hs. induction Hw as [|x w Hx Hw IH]; simpl.
  - destruct s as [|y s]; simpl in *; auto. now rewrite Hs.
  - rewrite Hx. now f_equal.
Qed.

Lemma drop_while_app cls w s :
  all cls w -> stops cls s -> drop_while cls (w ++ s) = s.
Proof.
  intros Hw Hs. induction Hw as [|x w Hx Hw IH]; simpl.
  - destruct s as [|y s]; simpl in *; auto. now rewrite Hs.
  - now rewrite Hx.
Qed.

Lemma lstrip_drop_while s : lstrip s = drop_while is_space s.
Proof. induction s as [|x s IH]; simpl; auto. now rewrite IH. Qed.

(** ** The matcher *)

(** A continuation that fails on every text starting in the class makes
    the greedy run deterministic: it takes the whole run. *)
Lemma greedy_rejecting (A : Type) cls (k : text -> option A) s :
  (forall x t, cls x = true -> k (x :: t) = None) ->
  greedy cls s k = k (drop_while cls s).
Proof.
  intros Hk. induction s as [|x s IH]; simpl; auto.
  destruct (cls x) eqn:E; auto.
  rewrite IH. destruct (k (drop_while cls s)) eqn:Ek; auto.
Qed.

Lemma firstn_suffix (A : Type) (m t : list A) :
  firstn (length (m ++ t) - length t) (m ++ t) = m.
Proof.
  rewrite length_app.
  replace (length m + length t - length t) with (length m + 0) by lia.
  rewrite firstn_app_2. simpl. apply app_nil_r.
Qed.

(** ** The two constructor patterns

    In both patterns every run of a class is followed by a character
    outside the class, so the backtracking matcher has one way to go: a
    match is a text of one fixed shape, and a text of that shape matches. *)

Lemma strip_prefix_class cls c l x t :
  cls c = false -> cls x = true -> strip_prefix (c :: l) (x :: t) = None.
Proof.
  intros Hc Hx. simpl. destruct (Ascii.eqb_spec c x); auto. congruence.
Qed.

Lemma firstn_suffix_eq (A : Type) (s m t : list A) :
  s = m ++ t -> firstn (length s - length t) s = m.
Proof. intros ->. apply firstn_suffix. Qed.

Lemma run_split cls x s :
  cls x = true ->
  exists w, x :: s = w ++ drop_while cls s /\ all cls w /\ w <> [].
Proof.
  intros Hx. exists (x :: take_while cls s). repeat split.
  - simpl. now rewrite take_drop_while.
  - constructor; auto. apply take_while_all.
  - discriminate.
Qed.

Lemma star_split cls s :
  exists w, s = w ++ drop_while cls s /\ all cls w.
Proof.
  exists (take_while cls s). split.
  - now rewrite take_drop_while.
  - apply take_while_all.
Qed.

Lemma space_not_word x : is_space x = true -> is_word x = false.
Proof.
  destruct x as [[] [] [] [] [] [] [] []]; vm_compute; congruence.
Qed.

Lemma word_not_space x : is_word x = true -> is_space x = false.
Proof.
  intros H. destruct (is_space x) eqn:E; auto.
  apply space_not_word in E. congruence.
Qed.

Ltac rejecting :=
  let x := fresh "x" in let t := fresh "t" in let Hx := fresh "Hx" in
  intros x t Hx;
  first [ rewrite (@strip_prefix_class is_space) by (reflexivity || assumption); reflexivity
        | rewrite (@strip_prefix_class is_word) by (reflexivity || assumption); reflexivity
        | cbv beta iota; rewrite (space_not_word _ Hx); reflexivity
        | cbn [greedy]; rewrite (word_not_space _ Hx);
          rewrite (@strip_prefix_class is_word) by (reflexivity || assumption); reflexivity ].

Ltac inv_lit H r E :=
  match type of H with
  | context [strip_prefix ?l ?t] =>
      destruct (strip_prefix l t) as [r|] eqn:E;
      [apply strip_prefix_Some in E | discriminate H]
  end.

Ltac inv_plus cls H x s' Hx :=
  match type of H with
  | match ?t with [] => None | _ :: _ => _ end = _ =>
      destruct t as [|x s']; [discriminate H|];
      destruct (cls x) eqn:Hx; [|discriminate H];
      rewrite greedy_rejecting in H by rejecting
  end.

Lemma match_at_pattern_inv s caps rest :
  match_at pattern s = Some (caps, rest) ->
  exists w w2 w3 w4,
    s = w ++ bare_stmt w2 w3 w4 ++ "Gun::new();" ++ rest
    /\ all is_space w /\ w <> [] /\ all is_space w2 /\ w2 <> []
    /\ all is_space w3 /\ all is_space w4
    /\ caps = [(2, bare_stmt w2 w3 w4); (1, w)].
Proof.
  unfold match_at, pattern, ws_plus, ws_star. cbn [rmatch list_ascii_of_string]. intros H.
  inv_plus is_space H x s1 Hx.
  destruct (@run_split is_space x s1 Hx) as (w & Es & Hw & Hne).
  inv_lit H t1 E1.
  inv_plus is_space H x2 s2 Hx2.
  destruct (@run_split is_space x2 s2 Hx2) as (w2 & Es2 & Hw2 & Hne2).
  inv_lit H t E2.
  rewrite greedy_rejecting in H by rejecting.
  destruct (star_split is_space t) as (w3 & Es3 & Hw3).
  inv_lit H t0 E3.
  rewrite greedy_rejecting in H by rejecting.
  destruct (star_split is_space t0) as (w4 & Es4 & Hw4).
  inv_lit H t1' E4.
  assert (E : drop_while is_space s1 = bare_stmt w2 w3 w4 ++ drop_while is_space t0).
  { unfold bare_stmt. cbn [list_ascii_of_string]. rewrite E1.
    rewrite Es2, E2. rewrite Es3 at 1. rewrite E3. rewrite Es4 at 1.
    now repeat rewrite <- app_assoc. }
  rewrite (@firstn_suffix_eq _ _ _ _ E), (@firstn_suffix_eq _ _ _ _ Es) in H.
  injection H as <- <-.
  exists w, w2, w3, w4. repeat split; auto.
  rewrite Es, E, E4. now repeat rewrite <- app_assoc.
Qed.

Lemma all_cons_inv cls x (w : text) : all cls (x :: w) -> cls x = true /\ all cls w.
Proof. intros H. inversion H; auto. Qed.

Lemma plus_run (A : Type) cls (k : text -> option A) w s :
  all cls w -> w <> [] -> stops cls s ->
  (forall x t, cls x = true -> k (x :: t) = None) ->
  match w ++ s with
  | [] => None
  | x :: s' => if cls x then greedy cls s' k else None
  end = k s.
Proof.
  intros Hw Hne Hs Hk. destruct w as [|x w]; [congruence|].
  apply all_cons_inv in Hw as [Hx Hw]. simpl. rewrite Hx.
  rewrite greedy_rejecting by assumption. now rewrite drop_while_app.
Qed.

Lemma star_run (A : Type) cls (k : text -> option A) w s :
  all cls w -> stops cls s ->
  (forall x t, cls x = true -> k (x :: t) = None) ->
  greedy cls (w ++ s) k = k s.
Proof.
  intros Hw Hs Hk. rewrite greedy_rejecting by assumption.
  now rewrite drop_while_app.
Qed.

Lemma match_at_pattern_intro w w2 w3 w4 rest :
  all is_space w -> w <> [] -> all is_space w2 -> w2 <> [] ->
  all is_space w3 -> all is_space w4 ->
  match_at pattern (w ++ bare_stmt w2 w3 w4 ++ "Gun::new();" ++ rest)
  = Some ([(2, bare_stmt w2 w3 w4); (1, w)], rest).
Proof.
  intros Hw Hne Hw2 Hne2 Hw3 Hw4.
  unfold match_at, pattern, ws_plus, ws_star, bare_stmt.
  cbn [rmatch list_ascii_of_string]. rewrite <- !app_assoc.
  rewrite plus_run by (auto; try reflexivity; rejecting).
  rewrite strip_prefix_app.
  rewrite plus_run by (auto; try reflexivity; rejecting).
  rewrite strip_prefix_app.
  rewrite star_run by (auto; try reflexivity; rejecting).
  rewrite strip_prefix_app.
  rewrite star_run by (auto; try reflexivity; rejecting).
  rewrite strip_prefix_app.
  repeat f_equal; apply firstn_suffix_eq; now rewrite <- ?app_assoc.
Qed.

Lemma match_at_pattern2_intro w w2 name w3 w4 rest :
  all is_space w -> w <> [] -> all is_space w2 -> w2 <> [] ->
  all is_word name -> name <> [] ->
  all is_space w3 -> all is_space w4 ->
  match_at pattern2 (w ++ arc_stmt w2 name w3 w4 ++ "Gun::new());" ++ rest)
  = Some ([(2, arc_stmt w2 name w3 w4); (1, w)], rest).
Proof.
  intros Hw Hne Hw2 Hne2 Hn Hnne Hw3 Hw4.
  unfold match_at, pattern2, ws_plus, ws_star, word_plus, arc_stmt.
  cbn [rmatch list_ascii_of_string]. rewrite <- !app_assoc.
  rewrite plus_run by (auto; try reflexivity; rejecting).
  rewrite strip_prefix_app.
  rewrite plus_run; auto; [| destruct name as [|c ?]; [congruence|]; apply all_cons_inv in Hn as [Hc _]; now apply word_not_space |rejecting].
  rewrite plus_run; auto; [| destruct w3 as [|c ?]; [reflexivity|]; apply all_cons_inv in Hw3 as [Hc _]; now apply space_not_word| rejecting].
  rewrite star_run by (auto; try reflexivity; rejecting).
  rewrite strip_prefix_app.
  rewrite star_run by (auto; try reflexivity; rejecting).
  rewrite !strip_prefix_app.
  repeat f_equal; apply firstn_suffix_eq; now rewrite <- ?app_assoc.
Qed.

Lemma match_at_pattern2_inv s caps rest :
  match_at pattern2 s = Some (caps, rest) ->
  exists w w2 name w3 w4,
    s = w ++ arc_stmt w2 name w3 w4 ++ "Gun::new());" ++ rest
    /\ all is_space w /\ w <> [] /\ all is_space w2 /\ w2 <> []
    /\ all is_word name /\ name <> []
    /\ all is_space w3 /\ all is_space w4
    /\ caps = [(2, arc_stmt w2 name w3 w4); (1, w)].
Proof.
  unfold match_at, pattern2, ws_plus, ws_star, word_plus.
  cbn [rmatch list_ascii_of_string]. intros H.
  inv_plus is_space H x s1 Hx.
  destruct (@run_split is_space x s1 Hx) as (w & Es & Hw & Hne).
  inv_lit H t1 E1.
  inv_plus is_space H x2 s2 Hx2.
  destruct (@run_split is_space x2 s2 Hx2) as (w2 & Es2 & Hw2 & Hne2).
  inv_plus is_word H x3 s3 Hx3.
  destruct (@run_split is_word x3 s3 Hx3) as (name & Es3 & Hn & Hnne).
  rewrite greedy_rejecting in H by rejecting.
  destruct (star_split is_space (drop_while is_word s3)) as (w3 & Ew3 & Hw3).
  inv_lit H t E3.
  rewrite greedy_rejecting in H by rejecting.
  destruct (star_split is_space t) as (w4 & Ew4 & Hw4).
  inv_lit H t0 E4. inv_lit H t5 E5.
  assert (E : drop_while is_space s1 = arc_stmt w2 name w3 w4 ++ t0).
  { unfold arc_stmt. cbn [list_ascii_of_string]. rewrite E1.
    rewrite Es2, Es3. rewrite Ew3 at 1. rewrite E3. rewrite Ew4 at 1.
    rewrite E4. now repeat rewrite <- app_assoc. }
  rewrite (@firstn_suffix_eq _ _ _ _ E), (@firstn_suffix_eq _ _ _ _ Es) in H.
  injection H as <- <-.
  exists w, w2, name, w3, w4. repeat split; auto.
  rewrite Es, E, E5. now repeat rewrite <- app_assoc.
Qed.

(** ** [re.sub] *)

Lemma sub_aux_fuel2 r tpl fuel : forall fuel' s,
  length s < fuel -> length s < fuel' ->
  sub_aux fuel r tpl s = sub_aux fuel' r tpl s.
Proof.
  induction fuel as [|fuel IH]; intros [|fuel'] s Hlt Hlt'; try lia.
  cbn [sub_aux].
  destruct (match_at r s) as [[caps rest]|].
  - destruct (length rest <? length s) eqn:E.
    + apply Nat.ltb_lt in E. f_equal. apply IH; lia.
    + destruct s as [|x s]; auto. simpl in Hlt, Hlt'.
      do 2 f_equal. apply IH; lia.
  - destruct s as [|x s]; auto. simpl in Hlt, Hlt'.
    f_equal. apply IH; lia.
Qed.

Lemma sub_aux_fuel r tpl fuel s :
  length s < fuel -> sub_aux fuel r tpl s = sub r tpl s.
Proof. intros H. apply sub_aux_fuel2; lia. Qed.

Lemma sub_nil r tpl : match_at r [] = None -> sub r tpl [] = [].
Proof. unfold sub. simpl. now intros ->. Qed.

Lemma sub_skip r tpl x s :
  match_at r (x :: s) = None -> sub r tpl (x :: s) = x :: sub r tpl s.
Proof.
  intros H. unfold sub at 1. cbn [sub_aux]. rewrite H.
  now rewrite sub_aux_fuel by (simpl; lia).
Qed.

Lemma sub_match r tpl s caps rest :
  match_at r s = Some (caps, rest) -> length rest < length s ->
  sub r tpl s = expand tpl caps ++ sub r tpl rest.
Proof.
  intros H Hlt. unfold sub at 1. cbn [sub_aux]. rewrite H.
  apply Nat.ltb_lt in Hlt as Hb. rewrite Hb.
  now rewrite sub_aux_fuel by lia.
Qed.

Lemma no_match_tail r x s : no_match r (x :: s) -> no_match r s.
Proof. intros H a b ->. now apply (H (x :: a) b). Qed.

Lemma sub_no_match r tpl s : no_match r s -> sub r tpl s = s.
Proof.
  induction s as [|x s IH]; intros H.
  - apply sub_nil. now apply (H [] []).
  - rewrite sub_skip by now apply (H [] (x :: s)).
    f_equal. apply IH. now apply no_match_tail with x.
Qed.

(** A text without the final literal of a pattern has no match. *)
Lemma no_match_pattern s : contains "Gun::new();" s = false -> no_match pattern s.
Proof.
  intros Hc a b ->.
  destruct (match_at pattern b) as [[caps rest]|] eqn:E; auto.
  apply match_at_pattern_inv in E as (w & w2 & w3 & w4 & -> & _).
  exfalso. rewrite !app_assoc, <- (app_assoc _ _ rest) in Hc.
  rewrite contains_intro in Hc. discriminate.
Qed.

Lemma no_match_pattern2 s :
  contains "Gun::new());" s = false -> no_match pattern2 s.
Proof.
  intros Hc a b ->.
  destruct (match_at pattern2 b) as [[caps rest]|] eqn:E; auto.
  apply match_at_pattern2_inv in E as (w & w2 & n & w3 & w4 & -> & _).
  exfalso. rewrite !app_assoc, <- (app_assoc _ _ rest) in Hc.
  rewrite contains_intro in Hc. discriminate.
Qed.

(** ** The import augmenter *)

Lemma import_line_has_prefix content :
  contains import_line content = true ->
  contains "use chia_bls::" content = true.
Proof.
  intros H. apply contains_elim in H as (a & b & ->).
  change import_line
    with (list_ascii_of_string "use chia_bls::"
            ++ list_ascii_of_string "{SecretKey, PublicKey};").
  rewrite <- app_assoc. apply contains_intro.
Qed.

Lemma import_augmenter_present content updated :
  contains "use chia_bls::" content = true ->
  import_augmenter content updated = (content, updated).
Proof.
  intros H. unfold import_augmenter. rewrite H. cbn [negb].
  now destruct (contains "use gun::" content || contains "use gun::" content).
Qed.

(** C8. A text that references the gun namespace and lacks the key-pair
    import, but in which no import statement is found (the search for
    [use_pattern] yields no match), passes through the import augmenter
    unchanged, and the [updated] flag with it. *)
Theorem import_augmenter_no_use_statement content updated :
  contains "use gun::" content = true ->
  contains import_line content = false ->
  finditer_ends use_pattern content = [] ->
  import_augmenter content updated = (content, updated).
Proof.
  intros Hgun _ Hnone. unfold import_augmenter.
  rewrite Hgun, Hnone. cbn [orb].
  now destruct (negb (contains "use chia_bls::" content)).
Qed.

Lemma import_augmenter_no_use_statement_witness :
  import_augmenter "use gun::Gun" false = ("use gun::Gun" : text, false).
Proof.
  apply import_augmenter_no_use_statement; reflexivity.
Defined.

(** ** Lines *)

Lemma join_cons sep l ls :
  join sep (l :: ls) = l ++ flat_map (fun x => sep ++ x) ls.
Proof.
  revert l; induction ls as [|l' ls IH]; intros l.
  - simpl. now rewrite app_nil_r.
  - change (join sep (l :: l' :: ls)) with (l ++ sep ++ join sep (l' :: ls)).
    rewrite IH. simpl. now rewrite <- app_assoc.
Qed.

Lemma split_cons c s : exists l ls, split c s = l :: ls.
Proof.
  induction s as [|x s (l & ls & E)]; simpl.
  - now exists [], [].
  - destruct (Ascii.eqb x c); [now exists [], (split c s)|].
    rewrite E. now exists (x :: l), ls.
Qed.

Lemma join_split s : join nl (split newline s) = s.
Proof.
  induction s as [|x s IH]; auto.
  simpl. destruct (Ascii.eqb_spec x newline) as [->|Hx].
  - destruct (split_cons newline s) as (l & ls & E).
    rewrite E in *.
    change (join nl ([] :: l :: ls)) with (newline :: join nl (l :: ls)).
    now rewrite IH.
  - destruct (split_cons newline s) as (l & ls & E).
    rewrite E in *. rewrite <- IH. now rewrite !join_cons.
Qed.

(** An occurrence of [p] does not extend over a character that [p]
    lacks. *)
Lemma strip_prefix_sep c p a b r :
  ~ In c p -> strip_prefix p (a ++ c :: b) = Some r ->
  exists r', strip_prefix p a = Some r'.
Proof.
  revert a; induction p as [|x p IH]; intros a Hc H; simpl; eauto.
  destruct a as [|y a]; simpl in *.
  - destruct (Ascii.eqb_spec x c) as [->|]; [|discriminate].
    exfalso. apply Hc. now left.
  - destruct (Ascii.eqb x y); [|discriminate].
    apply IH; auto.
Qed.

Lemma strip_prefix_extend p a b r :
  strip_prefix p a = Some r -> strip_prefix p (a ++ b) = Some (r ++ b).
Proof.
  intros H. apply strip_prefix_Some in H. subst.
  rewrite <- app_assoc. apply strip_prefix_app.
Qed.

Lemma starts_with_sep c p a b :
  ~ In c p -> starts_with p (a ++ c :: b) = starts_with p a.
Proof.
  intros Hc. unfold starts_with.
  destruct (strip_prefix p a) as [r|] eqn:E.
  - now rewrite (strip_prefix_extend _ _ (c :: b) E).
  - destruct (strip_prefix p (a ++ c :: b)) as [r|] eqn:E'; auto.
    destruct (strip_prefix_sep _ _ _ _ Hc E') as [r' Hr']. congruence.
Qed.

Lemma contains_nil_false p : p <> [] -> contains p [] = false.
Proof. destruct p; [congruence|reflexivity]. Qed.

Lemma contains_sep c p a b :
  p <> [] -> ~ In c p ->
  contains p (a ++ c :: b) = contains p a || contains p b.
Proof.
  intros Hp Hc. induction a as [|y a IH].
  - rewrite contains_nil_false by assumption.
    cbn [app orb]. rewrite contains_unfold.
    destruct p as [|x p]; [congruence|].
    unfold starts_with. simpl.
    destruct (Ascii.eqb_spec x c) as [->|]; auto.
    exfalso. apply Hc. now left.
  - rewrite (contains_unfold p (y :: a)).
    change ((y :: a) ++ c :: b) with (y :: (a ++ c :: b)).
    rewrite contains_unfold, IH.
    change (y :: (a ++ c :: b)) with ((y :: a) ++ c :: b).
    rewrite starts_with_sep by assumption.
    now rewrite orb_assoc.
Qed.

(** A run of characters that [p] lacks separates the occurrences of [p]. *)
Lemma contains_sep_run p m a b :
  p <> [] -> m <> [] -> Forall (fun c => ~ In c p) m ->
  contains p (a ++ m ++ b) = contains p a || contains p b.
Proof.
  intros Hp Hm Hall. revert a. induction Hall as [|c m Hc Hall IH]; intros a.
  - congruence.
  - destruct m as [|c' m].
    + simpl. now apply contains_sep.
    + change (a ++ (c :: c' :: m) ++ b) with (a ++ c :: ((c' :: m) ++ b)).
      rewrite contains_sep by assumption.
      change ((c' :: m) ++ b) with ([] ++ (c' :: m) ++ b).
      rewrite IH by discriminate.
      now rewrite (contains_nil_false Hp).
Qed.

Lemma contains_join p ls :
  p <> [] -> ~ In newline p ->
  contains p (join nl ls) = existsb (contains p) ls.
Proof.
  intros Hp Hc. induction ls as [|l ls IH].
  - now apply contains_nil_false.
  - destruct ls as [|l' ls].
    + cbn [join existsb]. now rewrite orb_false_r.
    + change (join nl (l :: l' :: ls))
        with (l ++ newline :: join nl (l' :: ls)).
      rewrite contains_sep by assumption. now rewrite IH.
Qed.

(** ** The loop of the options rewriter *)

Lemma loop_body_plain lines st :
  contains call_marker (nth (i st) lines []) = false ->
  loop_body lines st = copied lines st.
Proof.
  unfold call_marker. intros H. unfold loop_body; cbv zeta. now rewrite H.
Qed.

Lemma loop_body_skip lines st :
  contains key_marker (lookback lines (i st)) = true ->
  loop_body lines st = copied lines st.
Proof.
  unfold key_marker. intros H. unfold loop_body; cbv zeta. rewrite H.
  now rewrite andb_false_r.
Qed.

Lemma loop_body_unmatched lines st :
  search options_pattern (nth (i st) lines []) = None ->
  loop_body lines st = copied lines st.
Proof.
  intros H. unfold loop_body; cbv zeta. rewrite H.
  now destruct (_ && _).
Qed.

Lemma loop_body_rewrite lines st caps rest :
  contains call_marker (nth (i st) lines []) = true ->
  contains key_marker (lookback lines (i st)) = false ->
  search options_pattern (nth (i st) lines []) = Some (caps, rest) ->
  loop_body lines st = rewritten lines st (group 1 caps).
Proof.
  unfold call_marker, key_marker. intros Hc Hk Hs.
  unfold loop_body; cbv zeta. now rewrite Hc, Hk, Hs.
Qed.

(** *** The lookback window *)

Lemma In_slice (A : Type) lo hi (xs : list A) x :
  In x (slice lo hi xs) <->
  exists j, lo <= j /\ j < hi /\ nth_error xs j = Some x.
Proof.
  unfold slice. rewrite In_iff_nth_error. split.
  - intros [n Hn]. rewrite nth_error_firstn in Hn.
    destruct (n <? hi - lo) eqn:E; [|discriminate].
    apply Nat.ltb_lt in E. rewrite nth_error_skipn in Hn.
    exists (lo + n). repeat split; auto; lia.
  - intros (j & Hlo & Hhi & Hj). exists (j - lo).
    rewrite nth_error_firstn.
    replace (j - lo <? hi - lo) with true by (symmetry; apply Nat.ltb_lt; lia).
    rewrite nth_error_skipn. now replace (lo + (j - lo)) with j by lia.
Qed.

(** The window holds a key-generation statement exactly when one of the
    five lines before line [i] does. *)
Lemma lookback_spec lines i :
  contains key_marker (lookback lines i) = true <->
  exists j l, j < i /\ i <= j + 5 /\ nth_error lines j = Some l
              /\ contains key_marker l = true.
Proof.
  unfold lookback.
  rewrite contains_join;
    [|discriminate | unfold key_marker; simpl; intuition discriminate].
  rewrite existsb_exists. split.
  - intros (l & Hin & Hl). apply In_slice in Hin as (j & Hlo & Hhi & Hj).
    exists j, l. repeat split; auto; lia.
  - intros (j & l & Hlt & Hle & Hj & Hl). exists l. split; auto.
    apply In_slice. exists j. repeat split; auto; lia.
Qed.

(** *** Running the loop *)

Lemma slice_cons (A : Type) lo hi (xs : list A) d :
  lo < hi -> lo < length xs ->
  slice lo hi xs = nth lo xs d :: slice (S lo) hi xs.
Proof.
  unfold slice. revert hi xs. induction lo as [|lo IH]; intros hi xs Hlt Hlen.
  - destruct xs as [|x xs]; [simpl in Hlen; lia|].
    destruct hi as [|hi]; [lia|]. simpl. now rewrite Nat.sub_0_r.
  - destruct xs as [|x xs]; [simpl in Hlen; lia|].
    destruct hi as [|hi]; [lia|]. simpl in Hlen.
    specialize (IH hi xs ltac:(lia) ltac:(lia)). simpl in *. exact IH.
Qed.

Lemma slice_empty (A : Type) lo (xs : list A) : slice lo lo xs = [].
Proof. unfold slice. now rewrite Nat.sub_diag. Qed.

Lemma slice_all (A : Type) (xs : list A) : slice 0 (length xs) xs = xs.
Proof. unfold slice. rewrite Nat.sub_0_r. simpl. apply firstn_all. Qed.

Lemma while_loop_copies lines n : forall fuel st,
  (forall j, i st <= j -> j < i st + n -> copies lines j) ->
  i st + n <= length lines -> n <= fuel ->
  while_loop fuel lines st =
  while_loop (fuel - n) lines
    (mk_state (i st + n) (new_lines st ++ slice (i st) (i st + n) lines)
              (key_counter st) (updated_flag st)).
Proof.
  induction n as [|n IH]; intros fuel st Hcp Hlen Hfuel.
  - rewrite Nat.add_0_r, Nat.sub_0_r, slice_empty, app_nil_r.
    now destruct st.
  - destruct fuel as [|fuel]; [lia|].
    cbn [while_loop].
    replace (i st <? length lines) with true
      by (symmetry; apply Nat.ltb_lt; lia).
    rewrite (Hcp (i st)) by (auto; lia).
    rewrite IH; unfold copied; cbn [i new_lines key_counter updated_flag].
    + replace (S (i st) + n) with (i st + S n) by lia.
      rewrite <- app_assoc. cbn [app].
      rewrite <- (@slice_cons _ (i st) (i st + S n) lines []) by lia.
      reflexivity.
    + intros j Hj1 Hj2. apply Hcp; lia.
    + lia.
    + lia.
Qed.

(** A loop in which every line is copied returns the lines it was given. *)
Lemma while_loop_all_copied lines updated :
  (forall j, j < length lines -> copies lines j) ->
  while_loop (length lines) lines (mk_state 0 [] 1 updated)
  = mk_state (length lines) lines 1 updated.
Proof.
  intros H.
  rewrite (@while_loop_copies lines (length lines));
    cbn [i new_lines key_counter updated_flag]; auto.
  rewrite Nat.sub_diag. cbn [while_loop app Nat.add].
  now rewrite slice_all.
Qed.

Lemma options_rewriter_all_copied content updated :
  (forall j, j < length (split newline content) ->
             copies (split newline content) j) ->
  options_rewriter content updated = (content, updated).
Proof.
  intros H. unfold options_rewriter.
  destruct (contains "Gun::with_options(" content); auto.
  cbv zeta. rewrite while_loop_all_copied by assumption.
  cbn [updated_flag new_lines]. rewrite join_split.
  now destruct updated.
Qed.

(** ** The pattern of the options rewriter *)

Lemma match_at_options_intro o rest :
  all is_word o -> o <> [] ->
  match_at options_pattern (call_marker ++ o ++ ")" ++ rest)
  = Some ([(1, o)], rest).
Proof.
  intros Ho Hne.
  unfold match_at, options_pattern, word_plus, call_marker.
  cbn [rmatch list_ascii_of_string].
  rewrite strip_prefix_app.
  rewrite plus_run by (auto; try reflexivity; rejecting).
  rewrite strip_prefix_app.
  repeat f_equal; apply firstn_suffix_eq; now rewrite <- ?app_assoc.
Qed.

Lemma match_at_options_inv s caps rest :
  match_at options_pattern s = Some (caps, rest) ->
  exists o, s = call_marker ++ o ++ ")" ++ rest
            /\ all is_word o /\ o <> [] /\ caps = [(1, o)].
Proof.
  unfold match_at, options_pattern, word_plus, call_marker.
  cbn [rmatch list_ascii_of_string]. intros H.
  inv_lit H t1 E1.
  inv_plus is_word H x s1 Hx.
  destruct (@run_split is_word x s1 Hx) as (o & Es & Ho & Hne).
  inv_lit H t2 E2.
  rewrite (@firstn_suffix_eq _ _ _ _ Es) in H.
  injection H as <- <-.
  exists o. repeat split; auto.
  rewrite E1, Es, E2. reflexivity.
Qed.

Lemma match_at_options_starts s :
  starts_with call_marker s = false -> match_at options_pattern s = None.
Proof.
  intros H. destruct (match_at options_pattern s) as [[caps rest]|] eqn:E; auto.
  apply match_at_options_inv in E as (o & -> & _).
  now rewrite starts_with_app in H.
Qed.

(** A text whose first character does not come back in it cannot overlap
    itself. *)
Lemma no_self_overlap (c : ascii) (m p2 rest : text) :
  ~ In c m -> p2 <> [] -> contains (c :: m) p2 = false ->
  starts_with (c :: m) (p2 ++ (c :: m) ++ rest) = false.
Proof.
  intros Hc Hne Hp.
  destruct (starts_with (c :: m) (p2 ++ (c :: m) ++ rest)) eqn:E; auto.
  exfalso. destruct p2 as [|y p2]; [congruence|].
  unfold starts_with in E. cbn [app strip_prefix] in E.
  destruct (Ascii.eqb_spec c y) as [<-|]; [|discriminate].
  destruct (strip_prefix m (p2 ++ c :: m ++ rest)) as [r|] eqn:E1;
    [|discriminate].
  apply strip_prefix_sep in E1 as [r' Hr']; auto.
  assert (H : starts_with (c :: m) (c :: p2) = true).
  { unfold starts_with. cbn [strip_prefix].
    now rewrite Ascii.eqb_refl, Hr'. }
  apply contains_starts in H. congruence.
Qed.

Lemma call_marker_no_straddle (p2 rest : text) :
  p2 <> [] -> contains call_marker p2 = false ->
  starts_with call_marker (p2 ++ call_marker ++ rest) = false.
Proof.
  apply no_self_overlap. simpl. intuition discriminate.
Qed.

Lemma contains_false_suffix p a b :
  contains p (a ++ b) = false -> contains p b = false.
Proof. intros H. now apply contains_false_app in H. Qed.

Lemma search_options_site (p o s : text) :
  contains call_marker p = false -> all is_word o -> o <> [] ->
  search options_pattern (p ++ call_marker ++ o ++ ")" ++ s)
  = Some ([(1, o)], s).
Proof.
  intros Hp Ho Hne. induction p as [|c p IH].
  - cbn [app]. 
    assert (E := match_at_options_intro s Ho Hne).
    destruct (call_marker ++ o ++ ")" ++ s) eqn:Es; cbn [search]; now rewrite E.
  - cbn [app search].
    rewrite match_at_options_starts.
    + apply IH. now apply (contains_false_suffix _ [c] p).
    + change (c :: p ++ call_marker ++ o ++ ")" ++ s)
        with ((c :: p) ++ call_marker ++ o ++ ")" ++ s).
      apply call_marker_no_straddle; [discriminate|assumption].
Qed.

(** ** [str.replace] *)

Lemma replace_aux_fuel2 old new fuel : forall fuel' s,
  old <> [] -> length s <= fuel -> length s <= fuel' ->
  replace_aux fuel old new s = replace_aux fuel' old new s.
Proof.
  induction fuel as [|fuel IH]; intros fuel' s Hold Hlt Hlt'.
  - destruct s; [|simpl in Hlt; lia]. now destruct fuel'.
  - destruct fuel' as [|fuel'].
    { destruct s; [|simpl in Hlt'; lia]. reflexivity. }
    cbn [replace_aux]. destruct s as [|x s]; auto.
    destruct (strip_prefix old (x :: s)) as [rest|] eqn:E.
    + apply strip_prefix_length in E.
      destruct old as [|y old]; [congruence|]. simpl in *.
      f_equal. apply IH; (discriminate || lia).
    + simpl in *. f_equal. apply IH; auto; lia.
Qed.

Lemma replace_unfold old new s :
  old <> [] ->
  replace old new s = replace_aux (length s) old new s.
Proof. destruct old; [congruence|reflexivity]. Qed.

Lemma replace_skip old new x s :
  old <> [] -> strip_prefix old (x :: s) = None ->
  replace old new (x :: s) = x :: replace old new s.
Proof.
  intros Hold H. rewrite !replace_unfold by assumption.
  cbn [length replace_aux]. now rewrite H.
Qed.

Lemma replace_hit old new s :
  old <> [] -> replace old new (old ++ s) = new ++ replace old new s.
Proof.
  intros Hold. rewrite !replace_unfold by assumption.
  destruct old as [|y old]; [congruence|].
  cbn [app length replace_aux].
  change (y :: old ++ s) with ((y :: old) ++ s). rewrite strip_prefix_app.
  f_equal. apply replace_aux_fuel2; [discriminate| |lia].
  rewrite length_app. lia.
Qed.

Lemma replace_absent old new s :
  old <> [] -> contains old s = false -> replace old new s = s.
Proof.
  intros Hold. induction s as [|x s IH]; intros H.
  - rewrite replace_unfold by assumption. reflexivity.
  - rewrite contains_unfold in H. apply orb_false_iff in H as [H1 H2].
    rewrite replace_skip; auto.
    + f_equal. auto.
    + unfold starts_with in H1. now destruct (strip_prefix old (x :: s)).
Qed.

Lemma contains_prefix_false p q s :
  contains p s = false -> contains (p ++ q) s = false.
Proof.
  intros H. destruct (contains (p ++ q) s) eqn:E; auto.
  apply contains_elim in E as (a & b & ->).
  rewrite <- app_assoc in H. now rewrite contains_intro in H.
Qed.

Lemma old_call_split o : old_call o = call_marker ++ o ++ ")".
Proof. reflexivity. Qed.

Lemma replace_call_site (k : nat) (p o s : text) :
  contains call_marker p = false -> contains call_marker s = false ->
  replace (old_call o) (new_call k o) (p ++ old_call o ++ s)
  = p ++ new_call k o ++ s.
Proof.
  intros Hp Hs.
  assert (Hold : old_call o <> []) by discriminate.
  induction p as [|c p IH].
  - cbn [app]. rewrite replace_hit by assumption. f_equal.
    apply replace_absent; auto.
    rewrite old_call_split. now apply contains_prefix_false.
  - cbn [app]. rewrite replace_skip; auto.
    + f_equal. apply IH. now apply (contains_false_suffix _ [c] p).
    + destruct (strip_prefix (old_call o) (c :: p ++ old_call o ++ s))
        as [r|] eqn:E; auto.
      exfalso. apply strip_prefix_Some in E.
      assert (H : starts_with call_marker
                    ((c :: p) ++ call_marker ++ (o ++ ")" ++ s)) = true).
      { cbn [app]. rewrite old_call_split in E. rewrite <- !app_assoc in E.
        rewrite E. apply starts_with_app. }
      rewrite call_marker_no_straddle in H; [discriminate|discriminate|assumption].
Qed.

(** ** Two call sites *)

Lemma while_loop_step fuel (lines : list text) st :
  i st < length lines ->
  while_loop (S fuel) lines st = while_loop fuel lines (loop_body lines st).
Proof.
  intros H. cbn [while_loop]. apply Nat.ltb_lt in H. now rewrite H.
Qed.

Lemma loop_body_appends (lines : list text) st :
  exists out, new_lines (loop_body lines st) = new_lines st ++ out
              /\ (updated_flag st = true ->
                  updated_flag (loop_body lines st) = true).
Proof.
  unfold loop_body; cbv zeta.
  destruct (_ && _); [destruct (search _ _) as [[caps rest]|]|];
    eexists; split; cbn [new_lines updated_flag]; auto.
Qed.

Lemma while_loop_appends fuel (lines : list text) : forall st,
  exists tail, new_lines (while_loop fuel lines st) = new_lines st ++ tail
               /\ (updated_flag st = true ->
                   updated_flag (while_loop fuel lines st) = true).
Proof.
  induction fuel as [|fuel IH]; intros st.
  - exists []. cbn [while_loop]. now rewrite app_nil_r.
  - cbn [while_loop]. destruct (i st <? length lines).
    + destruct (IH (loop_body lines st)) as (tail & Ht & Hu).
      destruct (loop_body_appends lines st) as (out & Ho & Hu').
      exists (out ++ tail). rewrite Ht, Ho, app_assoc. auto.
    + exists []. now rewrite app_nil_r.
Qed.

Lemma rstrip_keep (a : text) (c : ascii) :
  is_space c = false -> rstrip (a ++ [c] ++ nl) = a ++ [c].
Proof.
  intros Hc. unfold rstrip, nl. rewrite !rev_app_distr. cbn [rev app lstrip].
  replace (is_space newline) with true by reflexivity.
  rewrite Hc. cbn [rev]. now rewrite rev_involutive.
Qed.

Lemma rstrip_key_gen indent_str k :
  rstrip (key_gen indent_str k)
  = secret_key_line indent_str k ++ nl ++ public_key_line indent_str k.
Proof.
  unfold key_gen, public_key_line.
  replace (indent_str ++ "let " ++ public_key_name k ++ " = "
             ++ secret_key_name k ++ ".public_key();" ++ nl)
    with ((indent_str ++ "let " ++ public_key_name k ++ " = "
             ++ secret_key_name k ++ ".public_key()") ++ [";"%char] ++ nl)
    by (now rewrite <- !app_assoc).
  rewrite app_assoc. rewrite rstrip_keep by reflexivity.
  unfold secret_key_line. now rewrite <- !app_assoc.
Qed.

Lemma join_inner_newline (a : list text) (x y : text) (b : list text) :
  join nl (a ++ (x ++ nl ++ y) :: b) = join nl (a ++ x :: y :: b).
Proof.
  destruct a as [|l a]; cbn [app]; rewrite !join_cons.
  - cbn [flat_map]. now rewrite <- !app_assoc.
  - rewrite !flat_map_app. cbn [flat_map]. now rewrite <- !app_assoc.
Qed.

Lemma while_loop_done fuel (lines : list text) st :
  length lines <= i st -> while_loop fuel lines st = st.
Proof.
  intros H. destruct fuel; auto. cbn [while_loop].
  replace (i st <? length lines) with false; auto.
  symmetry. apply Nat.ltb_ge. lia.
Qed.

Lemma loop_body_index (lines : list text) st : i (loop_body lines st) = S (i st).
Proof.
  unfold loop_body; cbv zeta.
  destruct (_ && _); [destruct (search _ _) as [[caps rest]|]|]; reflexivity.
Qed.

Lemma while_loop_add a b (lines : list text) : forall st,
  while_loop (a + b) lines st = while_loop b lines (while_loop a lines st).
Proof.
  induction a as [|a IH]; intros st; auto.
  cbn [Nat.add while_loop].
  destruct (i st <? length lines) eqn:E; auto.
  apply Nat.ltb_ge in E. now rewrite while_loop_done.
Qed.

Lemma slice_app_mid (A : Type) (a b c xs : list A) lo hi :
  xs = a ++ b ++ c -> lo = length a -> hi = lo + length b ->
  slice lo hi xs = b.
Proof.
  intros -> -> ->. unfold slice. rewrite skipn_app, skipn_all, Nat.sub_diag. cbn [skipn app].
  replace (length a + length b - length a) with (length b + 0) by lia.
  rewrite firstn_app_2. cbn [firstn]. apply app_nil_r.
Qed.

Lemma nth_at (A : Type) (a c xs : list A) x d n :
  xs = a ++ x :: c -> n = length a -> nth n xs d = x.
Proof. intros -> ->. apply nth_middle. Qed.

Lemma loop_body_call_site (lines : list text) st (p o s : text) :
  nth (i st) lines [] = p ++ old_call o ++ s ->
  contains call_marker p = false -> contains call_marker s = false ->
  all is_word o -> o <> [] ->
  contains key_marker (lookback lines (i st)) = false ->
  loop_body lines st
  = mk_state (S (i st))
      (new_lines st ++
         [secret_key_line (indent_of (p ++ old_call o ++ s)) (key_counter st)
            ++ nl ++
            public_key_line (indent_of (p ++ old_call o ++ s)) (key_counter st);
          p ++ new_call (key_counter st) o ++ s])
      (S (key_counter st)) true.
Proof.
  intros Hl Hp Hs Ho Hne Hk.
  rewrite (@loop_body_rewrite lines st [(1, o)] s); auto.
  - unfold rewritten. rewrite Hl. cbv zeta. cbn [group Nat.eqb].
    rewrite rstrip_key_gen, replace_call_site by assumption. reflexivity.
  - rewrite Hl, old_call_split, <- !app_assoc. apply contains_intro.
  - rewrite Hl, old_call_split, <- !app_assoc. now apply search_options_site.
Qed.

Lemma while_loop_copies_exact (lines : list text) n st :
  (forall j, i st <= j -> j < i st + n -> copies lines j) ->
  i st + n <= length lines ->
  while_loop n lines st =
  mk_state (i st + n) (new_lines st ++ slice (i st) (i st + n) lines)
           (key_counter st) (updated_flag st).
Proof.
  intros H Hlen. rewrite (@while_loop_copies lines n n st); auto.
  now rewrite Nat.sub_diag.
Qed.

Section TwoCalls.
Variables (pre mid post : list text) (p1 o1 s1 p2 o2 s2 : text).

Let l1 : text := p1 ++ old_call o1 ++ s1.
Let l2 : text := p2 ++ old_call o2 ++ s2.
Let lines : list text := pre ++ l1 :: mid ++ l2 :: post.

Hypothesis Hplain : forall l, In l (pre ++ mid) -> contains call_marker l = false.
Hypothesis Hp1 : contains call_marker p1 = false.
Hypothesis Hs1 : contains call_marker s1 = false.
Hypothesis Ho1 : all is_word o1.
Hypothesis Hne1 : o1 <> [].
Hypothesis Hp2 : contains call_marker p2 = false.
Hypothesis Hs2 : contains call_marker s2 = false.
Hypothesis Ho2 : all is_word o2.
Hypothesis Hne2 : o2 <> [].
Hypothesis Hk1 : contains key_marker (lookback lines (length pre)) = false.
Hypothesis Hk2 :
  contains key_marker (lookback lines (length pre + 1 + length mid)) = false.

Let raw1 : list text :=
  [secret_key_line (indent_of l1) 1 ++ nl ++ public_key_line (indent_of l1) 1;
   p1 ++ new_call 1 o1 ++ s1].
Let raw2 : list text :=
  [secret_key_line (indent_of l2) 2 ++ nl ++ public_key_line (indent_of l2) 2;
   p2 ++ new_call 2 o2 ++ s2].

Lemma two_calls_length :
  length lines = length pre + 1 + length mid + 1 + length post.
Proof.
  unfold lines. rewrite length_app. cbn [length]. rewrite length_app.
  cbn [length]. lia.
Qed.

Lemma two_calls_loop updated :
  while_loop (length pre + (1 + (length mid + 1))) lines (mk_state 0 [] 1 updated)
  = mk_state (length pre + 1 + length mid + 1)
             (pre ++ raw1 ++ mid ++ raw2) 3 true.
Proof.
  assert (Hlen := two_calls_length).
  rewrite while_loop_add.
  rewrite (@while_loop_copies_exact lines (length pre) (mk_state 0 [] 1 updated));
    cbn [i new_lines key_counter updated_flag]; try lia.
  2:{ intros j _ Hj st <-. apply loop_body_plain, Hplain.
      apply in_or_app. left. unfold lines. rewrite app_nth1 by lia.
      apply nth_In. lia. }
  cbn [Nat.add app].
  rewrite (@slice_app_mid _ [] pre (l1 :: mid ++ l2 :: post)) by reflexivity.
  rewrite while_loop_step by (cbn [i]; lia).
  rewrite (@loop_body_call_site lines _ p1 o1 s1);
    cbn [i new_lines key_counter updated_flag]; auto.
  2:{ now apply nth_at with pre (mid ++ l2 :: post). }
  rewrite while_loop_add.
  rewrite (@while_loop_copies_exact lines (length mid));
    cbn [i new_lines key_counter updated_flag]; try lia.
  2:{ intros j Hj1 Hj2 st <-. apply loop_body_plain, Hplain.
      apply in_or_app. right. unfold lines.
      rewrite app_nth2 by lia.
      replace (i st - length pre) with (S (i st - length pre - 1)) by lia.
      cbn [nth]. rewrite app_nth1 by lia. apply nth_In. lia. }
  rewrite (@slice_app_mid _ (pre ++ [l1]) mid (l2 :: post));
    [ | unfold lines; now rewrite <- app_assoc
      | rewrite length_app; cbn [length]; lia | lia ].
  rewrite while_loop_step by (cbn [i]; lia).
  rewrite (@loop_body_call_site lines _ p2 o2 s2);
    cbn [i new_lines key_counter updated_flag]; auto.
  - cbn [while_loop]. f_equal; try lia.
    unfold raw1, raw2, l1, l2. now rewrite <- !app_assoc.
  - apply nth_at with (pre ++ l1 :: mid) post.
    + unfold lines. now rewrite <- app_assoc.
    + rewrite length_app. cbn [length]. lia.
  - now replace (S (length pre) + length mid)
      with (length pre + 1 + length mid) by lia.
Qed.

Lemma two_calls_pass content updated :
  split newline content = lines ->
  exists tail,
    options_rewriter content updated
    = (join nl (pre ++
                  [secret_key_line (indent_of l1) 1;
                   public_key_line (indent_of l1) 1;
                   p1 ++ new_call 1 o1 ++ s1]
                  ++ mid ++
                  [secret_key_line (indent_of l2) 2;
                   public_key_line (indent_of l2) 2;
                   p2 ++ new_call 2 o2 ++ s2]
                  ++ tail), true).
Proof.
  intros Hsplit. unfold options_rewriter.
  assert (Hgate : contains "Gun::with_options(" content = true).
  { rewrite <- (join_split content), Hsplit.
    rewrite contains_join; [|discriminate|simpl; intuition discriminate].
    apply existsb_exists. exists l1. split.
    - unfold lines. apply in_or_app. right. now left.
    - unfold l1. rewrite old_call_split, <- !app_assoc. apply contains_intro. }
  rewrite Hgate, Hsplit. cbv zeta.
  rewrite two_calls_length.
  replace (length pre + 1 + length mid + 1 + length post)
    with ((length pre + (1 + (length mid + 1))) + length post) by lia.
  rewrite while_loop_add, two_calls_loop.
  destruct (while_loop_appends (length post) lines
              (mk_state (length pre + 1 + length mid + 1)
                        (pre ++ raw1 ++ mid ++ raw2) 3 true))
    as (tail & Ht & Hu).
  rewrite Hu by reflexivity. rewrite Ht. cbn [new_lines].
  exists tail. f_equal. unfold raw1, raw2.
  rewrite <- !app_assoc. cbn [app].
  rewrite join_inner_newline.
  replace (pre ++ secret_key_line (indent_of l1) 1
             :: public_key_line (indent_of l1) 1
             :: (p1 ++ new_call 1 o1 ++ s1)
             :: mid ++
                (secret_key_line (indent_of l2) 2 ++ nl
                   ++ public_key_line (indent_of l2) 2)
                :: (p2 ++ new_call 2 o2 ++ s2) :: tail)
    with ((pre ++ secret_key_line (indent_of l1) 1
             :: public_key_line (indent_of l1) 1
             :: (p1 ++ new_call 1 o1 ++ s1) :: mid) ++
          (secret_key_line (indent_of l2) 2 ++ nl
             ++ public_key_line (indent_of l2) 2)
          :: (p2 ++ new_call 2 o2 ++ s2) :: tail)
    by (now rewrite <- !app_assoc).
  rewrite join_inner_newline. now rewrite <- !app_assoc.
Qed.
End TwoCalls.

(** ** Statements

    A match of either constructor pattern is one statement: it ends in its
    only semicolon.  The scan of [re.sub] can therefore be followed
    statement by statement. *)

Lemma closed_suffix a b : closed (a ++ b) -> b <> [] -> closed b.
Proof.
  intros [H|[a0 H]] Hb.
  - apply app_eq_nil in H as [_ ->]. now left.
  - right. destruct (exists_last Hb) as (b0 & c & ->).
    rewrite app_assoc in H. apply app_inj_tail in H as [_ ->]. now exists b0.
Qed.

Lemma closed_tail x a : closed (x :: a) -> closed a.
Proof.
  intros H. destruct a as [|y a]; [now left|].
  apply (@closed_suffix [x] (y :: a)); [assumption|discriminate].
Qed.

(** The statement at the head of a text is within every closed prefix of
    the text. *)
Lemma stmt_within_closed m rest a b :
  ends_stmt m -> closed a -> a <> [] ->
  m ++ rest = a ++ b -> exists d, a = m ++ d /\ rest = d ++ b.
Proof.
  intros (m0 & -> & Hm0) [->|[a0 ->]] Ha; [congruence|]. clear Ha.
  rewrite <- !app_assoc. cbn [app].
  revert a0. induction m0 as [|y m0 IH]; intros a0 H.
  - destruct a0 as [|x a0]; cbn [app] in *.
    + injection H as ->. now exists [].
    + injection H as <- ->. exists (a0 ++ [semicolon]).
      split; [reflexivity|now rewrite <- app_assoc].
  - destruct a0 as [|x a0]; cbn [app] in *.
    + injection H as Hy _. exfalso. apply Hm0. now left.
    + injection H as <- H.
      destruct (IH (fun Hin => Hm0 (or_intror Hin)) a0 H) as (d & Hd & ->).
      exists d. now rewrite Hd.
Qed.

Lemma all_app cls (u v : text) : all cls (u ++ v) <-> all cls u /\ all cls v.
Proof. apply Forall_app. Qed.

(** A statement does not end in white space. *)
Lemma stmt_ends_outside_space m x l :
  ends_stmt m -> m = x ++ l -> l <> [] -> all is_space l -> False.
Proof.
  intros (m0 & -> & _) H Hl Hs.
  destruct (exists_last Hl) as (l0 & c & ->).
  rewrite app_assoc in H. apply app_inj_tail in H as [_ <-].
  apply all_app in Hs as [_ Hs]. inversion Hs as [|? ? Hc _]. discriminate.
Qed.

Section Observed.
(** The pattern [r'] is looked for in texts written by [re.sub] for [r]
    and [tpl]. *)
Variables (r' : regex) (final : text).

Hypothesis observer : forall s caps rest,
  match_at r' s = Some (caps, rest) ->
  exists m, s = m ++ rest /\ ends_stmt m /\ ~ In slash m
            /\ contains final m = true
            /\ forall rest', match_at r' (m ++ rest') = Some (caps, rest').

Lemma observed_nil : match_at r' [] = None.
Proof.
  destruct (match_at r' []) as [[caps rest]|] eqn:E; auto.
  apply observer in E as (m & Hm & (m0 & -> & _) & _).
  symmetry in Hm. apply app_eq_nil in Hm as [Hm _].
  now apply app_eq_nil in Hm as [_ Hm].
Qed.

Lemma observed_extend a b caps rest :
  match_at r' a = Some (caps, rest) ->
  match_at r' (a ++ b) = Some (caps, rest ++ b).
Proof.
  intros H. apply observer in H as (m & -> & _ & _ & _ & Hloc).
  rewrite <- app_assoc. apply Hloc.
Qed.

Lemma observed_within a b caps rest :
  closed a -> a <> [] -> match_at r' (a ++ b) = Some (caps, rest) ->
  exists d, rest = d ++ b /\ match_at r' a = Some (caps, d).
Proof.
  intros Hc Ha H. apply observer in H as (m & Hm & Hs & _ & _ & Hloc).
  symmetry in Hm.
  destruct (stmt_within_closed _ _ Hs Hc Ha Hm) as (d & -> & ->).
  exists d. split; auto.
Qed.

Variables (r : regex) (tpl : template).

Hypothesis rewriter : forall s caps rest,
  match_at r s = Some (caps, rest) ->
  length rest < length s
  /\ (exists m, s = m ++ rest)
  /\ contains final (expand tpl caps) = false
  /\ closed (expand tpl caps)
  /\ exists w body, expand tpl caps = w ++ slash :: body
                    /\ all is_space w /\ w <> [].

(** A match of [r'] that starts in the text [x] copied before a rewritten
    text [sub r tpl t] was there before the rewrite. *)
Lemma observed_before : forall n t x,
  length t <= n ->
  match_at r' (x ++ sub r tpl t) <> None -> match_at r' (x ++ t) <> None.
Proof.
  induction n as [|n IH]; intros t x Hlen H.
  - destruct t; [|simpl in Hlen; lia].
    destruct (match_at r []) as [[caps rest]|] eqn:E.
    + apply rewriter in E as [E _]. simpl in E. lia.
    + now rewrite sub_nil in H.
  - destruct (match_at r t) as [[caps rest]|] eqn:E.
    + destruct (rewriter _ E) as (Hlt & _ & _ & _ & w & body & Hblock & Hw & Hne).
      rewrite (@sub_match r tpl t caps rest E Hlt) in H.
      destruct (match_at r' (x ++ expand tpl caps ++ sub r tpl rest))
        as [[caps' rest']|] eqn:E'; [clear H|congruence].
      apply observer in E' as (m & Hm & (m0 & Hm0 & Hsemi) & Hslash & _ & Hloc).
      apply app_eq_app in Hm as [l [[Hx Hr]|[Hx Hr]]].
      * (* the match lies within [x] *)
        subst x. rewrite <- app_assoc, Hloc. discriminate.
      * (* the match goes on into the rewritten text *)
        destruct l as [|c l].
        { rewrite app_nil_r in Hx. subst m. rewrite Hloc. discriminate. }
        exfalso. rewrite Hblock, <- app_assoc in Hr.
        apply app_eq_app in Hr as [l2 [[Hw2 _]|[Hl2 Hr]]].
        -- (* and would end in its leading white space *)
           apply (@stmt_ends_outside_space m x (c :: l)); auto.
           ++ now exists m0.
           ++ discriminate.
           ++ rewrite Hw2 in Hw. now apply all_app in Hw.
        -- destruct l2 as [|c2 l2].
           ++ rewrite app_nil_r in Hl2.
              apply (@stmt_ends_outside_space m x (c :: l)); auto.
              ** now exists m0.
              ** discriminate.
              ** now rewrite Hl2.
           ++ (* or hold the slash of the comment *)
              cbn [app] in Hr. injection Hr as <- _.
              apply Hslash. rewrite Hx, Hl2.
              apply in_or_app. right. apply in_or_app. right. now left.
    + destruct t as [|y t].
      * now rewrite sub_nil in H.
      * rewrite sub_skip in H by assumption.
        change (x ++ y :: sub r tpl t) with (x ++ [y] ++ sub r tpl t) in H.
        rewrite app_assoc in H. apply IH in H; [|simpl in Hlen; lia].
        now rewrite <- app_assoc in H.
Qed.

(** When [r'] matches nowhere that [r] does not, the text written by
    [re.sub] for [r] has no match of [r']. *)
Lemma observed_after : forall n t,
  length t <= n ->
  (forall a b, t = a ++ b -> match_at r b = None -> match_at r' b = None) ->
  no_match r' (sub r tpl t).
Proof.
  induction n as [|n IH]; intros t Hlen Hin.
  - destruct t; [|simpl in Hlen; lia].
    destruct (match_at r []) as [[caps rest]|] eqn:E.
    + apply rewriter in E as [E _]. simpl in E. lia.
    + rewrite sub_nil by assumption. intros a b Hab.
      symmetry in Hab. apply app_eq_nil in Hab as [_ ->]. apply observed_nil.
  - destruct (match_at r t) as [[caps rest]|] eqn:E.
    + destruct (rewriter _ E)
        as (Hlt & (m & Hm) & Hfinal & Hclosed & _).
      rewrite (@sub_match r tpl t caps rest E Hlt).
      assert (Hrest : no_match r' (sub r tpl rest)).
      { apply IH; [lia|]. intros a b -> Hb. apply (Hin (m ++ a) b); auto.
        now rewrite Hm, app_assoc. }
      intros a b Hab. apply app_eq_app in Hab as [l [[Hblock ->]|[_ Hb]]].
      * destruct l as [|c l]; [now apply (Hrest [])|].
        destruct (match_at r' ((c :: l) ++ sub r tpl rest)) eqn:E'; auto.
        exfalso.
        assert (H : match_at r' ((c :: l) ++ rest) <> None).
        { apply observed_before with (length rest); auto. congruence. }
        destruct (match_at r' ((c :: l) ++ rest)) as [[caps' rest']|] eqn:E2;
          [clear H|congruence].
        apply observed_within in E2 as (d & _ & E2).
        -- apply observer in E2 as (m' & Hm' & _ & _ & Hc & _).
           apply contains_elim in Hc as (u & v & ->).
           rewrite Hblock, Hm' in Hfinal.
           rewrite <- !app_assoc in Hfinal.
           rewrite (app_assoc a u) in Hfinal.
           now rewrite contains_intro in Hfinal.
        -- rewrite Hblock in Hclosed.
           apply closed_suffix in Hclosed; [assumption|discriminate].
        -- discriminate.
      * now apply (Hrest l).
    + destruct t as [|y t].
      * rewrite sub_nil by assumption. intros a b Hab.
        symmetry in Hab. apply app_eq_nil in Hab as [_ ->]. apply observed_nil.
      * rewrite sub_skip by assumption.
        assert (Hrest : no_match r' (sub r tpl t)).
        { apply IH; [simpl in Hlen; lia|].
          intros a b -> Hb. now apply (Hin (y :: a) b). }
        intros [|x a] b Hab; cbn [app] in Hab.
        -- subst b.
           destruct (match_at r' (y :: sub r tpl t)) eqn:E'; auto.
           exfalso.
           apply (@observed_before (length t) t [y]); auto.
           ++ cbn [app]. congruence.
           ++ cbn [app]. now rewrite (Hin [] (y :: t)).
        -- injection Hab as _ Hab. now apply (Hrest a).
Qed.
End Observed.

(** ** The replacement blocks *)

Lemma expand_replacement w g2 :
  expand replacement [(2, g2); (1, w)]
  = block w g2 "Gun::new(secret_key, public_key);".
Proof.
  unfold replacement, block. cbn [expand group Nat.eqb].
  now rewrite <- ?app_assoc, ?app_nil_r.
Qed.

Lemma expand_replacement2 w g2 :
  expand replacement2 [(2, g2); (1, w)]
  = block w g2 "Gun::new(secret_key, public_key));".
Proof.
  unfold replacement2, block. cbn [expand group Nat.eqb].
  now rewrite <- ?app_assoc, ?app_nil_r.
Qed.

Lemma space_run_sep p m :
  no_space p -> all is_space m -> Forall (fun c => ~ In c p) m.
Proof.
  intros Hp Hm. unfold all, no_space in *. rewrite Forall_forall in *.
  intros c Hc Hin. specialize (Hp c Hin). specialize (Hm c Hc). congruence.
Qed.

Lemma contains_skip_run p m b :
  p <> [] -> Forall (fun c => ~ In c p) m ->
  contains p (m ++ b) = contains p b.
Proof.
  intros Hp Hm. destruct m as [|c m]; auto.
  change ((c :: m) ++ b) with ([] ++ (c :: m) ++ b).
  rewrite contains_sep_run; auto; [|discriminate].
  now rewrite (contains_nil_false Hp).
Qed.

Lemma contains_block p w g2 tail :
  p <> [] -> no_space p -> all is_space w ->
  contains p comment_line = false ->
  contains p secret_key_stmt = false ->
  contains p public_key_stmt = false ->
  contains p (g2 ++ tail) = false ->
  contains p (block w g2 tail) = false.
Proof.
  intros Hp Hns Hw Hc Hs Hk Hg. unfold block.
  assert (Hsep : Forall (fun c => ~ In c p) (nl ++ w)).
  { apply space_run_sep; auto. apply all_app. split; auto.
    now repeat constructor. }
  rewrite contains_skip_run by (auto; now apply space_run_sep).
  rewrite (app_assoc nl w), contains_sep_run, Hc by (auto; discriminate).
  rewrite (app_assoc nl w), contains_sep_run, Hs by (auto; discriminate).
  rewrite (app_assoc nl w), contains_sep_run, Hk by (auto; discriminate).
  exact Hg.
Qed.

(** ** The two patterns as observers and rewriters *)

Ltac not_in :=
  let Hin := fresh "Hin" in
  unfold semicolon, slash, bare_stmt, arc_stmt, final1, final2;
  intros Hin;
  repeat (apply in_app_or in Hin as [Hin|Hin]);
  try solve [ match goal with
              | Hw : all ?cls ?w, Hi : In ?c ?w |- _ =>
                  unfold all in Hw; rewrite Forall_forall in Hw;
                  specialize (Hw _ Hi); discriminate Hw
              end
            | simpl in Hin; intuition discriminate ].

Lemma pattern_observer s caps rest :
  match_at pattern s = Some (caps, rest) ->
  exists m, s = m ++ rest /\ ends_stmt m /\ ~ In slash m
            /\ contains final1 m = true
            /\ forall rest', match_at pattern (m ++ rest') = Some (caps, rest').
Proof.
  intros H.
  apply match_at_pattern_inv in H
    as (w & w2 & w3 & w4 & -> & Hw & Hne & Hw2 & Hne2 & Hw3 & Hw4 & ->).
  exists (w ++ bare_stmt w2 w3 w4 ++ final1). repeat split.
  - unfold final1. now rewrite <- !app_assoc.
  - exists (w ++ bare_stmt w2 w3 w4 ++ "Gun::new()"). split.
    + unfold final1. now rewrite <- !app_assoc.
    + not_in.
  - not_in.
  - rewrite app_assoc, <- (app_nil_r final1). apply contains_intro.
  - intros rest'. rewrite <- !app_assoc. now apply match_at_pattern_intro.
Qed.

Lemma pattern2_observer s caps rest :
  match_at pattern2 s = Some (caps, rest) ->
  exists m, s = m ++ rest /\ ends_stmt m /\ ~ In slash m
            /\ contains final2 m = true
            /\ forall rest', match_at pattern2 (m ++ rest') = Some (caps, rest').
Proof.
  intros H.
  apply match_at_pattern2_inv in H
    as (w & w2 & n & w3 & w4 & -> & Hw & Hne & Hw2 & Hne2 & Hn & Hnne
        & Hw3 & Hw4 & ->).
  exists (w ++ arc_stmt w2 n w3 w4 ++ final2). repeat split.
  - unfold final2. now rewrite <- !app_assoc.
  - exists (w ++ arc_stmt w2 n w3 w4 ++ "Gun::new())"). split.
    + unfold final2. now rewrite <- !app_assoc.
    + not_in.
  - not_in.
  - rewrite app_assoc, <- (app_nil_r final2). apply contains_intro.
  - intros rest'. rewrite <- !app_assoc. now apply match_at_pattern2_intro.
Qed.

Lemma closed_block w g2 tail0 : closed (block w g2 (tail0 ++ [semicolon])).
Proof.
  right. unfold block.
  exists (w ++ comment_line ++ nl ++ w ++ secret_key_stmt ++ nl ++ w
            ++ public_key_stmt ++ nl ++ w ++ g2 ++ tail0).
  now rewrite <- !app_assoc.
Qed.

Lemma block_starts w g2 tail :
  exists body, block w g2 tail = w ++ slash :: body.
Proof. unfold block. eexists. reflexivity. Qed.

(** No block holds the final literal of a pattern. *)
Lemma bare_block_free p w w2 w3 w4 tail :
  p <> [] -> no_space p -> In semicolon p -> ~ In "="%char p ->
  all is_space w -> all is_space w2 -> w2 <> [] ->
  all is_space w3 -> all is_space w4 ->
  contains p comment_line = false ->
  contains p secret_key_stmt = false ->
  contains p public_key_stmt = false ->
  contains p "let" = false ->
  contains p tail = false ->
  contains p (block w (bare_stmt w2 w3 w4) tail) = false.
Proof.
  intros Hp Hns Hsemi Heq Hw Hw2 Hne2 Hw3 Hw4 Hc Hs Hk Hlet Htail.
  apply contains_block; auto.
  unfold bare_stmt. rewrite <- !app_assoc.
  rewrite contains_sep_run, Hlet by (auto; now apply space_run_sep).
  cbn [orb]. rewrite (app_assoc "gun" w3).
  change (list_ascii_of_string "=" ++ w4 ++ tail) with ("="%char :: w4 ++ tail).
  rewrite contains_sep by assumption.
  rewrite (@contains_skip_run p w4 tail), Htail
    by (auto; now apply space_run_sep).
  rewrite orb_false_r.
  apply contains_missing_char with semicolon; auto. not_in.
Qed.

Lemma arc_block_free p w w2 n w3 w4 tail :
  p <> [] -> no_space p -> In semicolon p -> ~ In "="%char p ->
  all is_space w -> all is_space w2 -> w2 <> [] -> all is_word n ->
  all is_space w3 -> all is_space w4 ->
  contains p comment_line = false ->
  contains p secret_key_stmt = false ->
  contains p public_key_stmt = false ->
  contains p "let" = false ->
  contains p ("Arc::new(" ++ tail) = false ->
  contains p (block w (arc_stmt w2 n w3 w4) tail) = false.
Proof.
  intros Hp Hns Hsemi Heq Hw Hw2 Hne2 Hn Hw3 Hw4 Hc Hs Hk Hlet Htail.
  apply contains_block; auto.
  unfold arc_stmt. rewrite <- !app_assoc.
  rewrite contains_sep_run, Hlet by (auto; now apply space_run_sep).
  cbn [orb]. rewrite (app_assoc n w3).
  change (list_ascii_of_string "=" ++ w4 ++ "Arc::new(" ++ tail)
    with ("="%char :: w4 ++ "Arc::new(" ++ tail).
  rewrite contains_sep by assumption.
  rewrite (@contains_skip_run p w4 ("Arc::new(" ++ tail)), Htail
    by (auto; now apply space_run_sep).
  rewrite orb_false_r.
  apply contains_missing_char with semicolon; auto. not_in.
Qed.

Ltac literal_facts :=
  solve [ discriminate | reflexivity | assumption
        | unfold no_space; repeat constructor
        | unfold semicolon; simpl; tauto
        | simpl; intuition discriminate ].

Lemma pattern_rewriter s caps rest :
  match_at pattern s = Some (caps, rest) ->
  length rest < length s
  /\ (exists m, s = m ++ rest)
  /\ contains final1 (expand replacement caps) = false
  /\ closed (expand replacement caps)
  /\ exists w body, expand replacement caps = w ++ slash :: body
                    /\ all is_space w /\ w <> [].
Proof.
  intros H.
  apply match_at_pattern_inv in H
    as (w & w2 & w3 & w4 & -> & Hw & Hne & Hw2 & Hne2 & Hw3 & Hw4 & ->).
  rewrite expand_replacement. repeat split.
  - rewrite !length_app. destruct w; [congruence|simpl; lia].
  - exists (w ++ bare_stmt w2 w3 w4 ++ "Gun::new();").
    now rewrite <- !app_assoc.
  - apply bare_block_free; literal_facts.
  - apply (@closed_block w (bare_stmt w2 w3 w4) "Gun::new(secret_key, public_key)").
  - destruct (block_starts w (bare_stmt w2 w3 w4)
                "Gun::new(secret_key, public_key);") as [body Hb].
    now exists w, body.
Qed.

Lemma pattern2_rewriter final s caps rest :
  final = final1 \/ final = final2 ->
  match_at pattern2 s = Some (caps, rest) ->
  length rest < length s
  /\ (exists m, s = m ++ rest)
  /\ contains final (expand replacement2 caps) = false
  /\ closed (expand replacement2 caps)
  /\ exists w body, expand replacement2 caps = w ++ slash :: body
                    /\ all is_space w /\ w <> [].
Proof.
  intros Hf H.
  apply match_at_pattern2_inv in H
    as (w & w2 & n & w3 & w4 & -> & Hw & Hne & Hw2 & Hne2 & Hn & Hnne
        & Hw3 & Hw4 & ->).
  rewrite expand_replacement2. repeat split.
  - rewrite !length_app. destruct w; [congruence|simpl; lia].
  - exists (w ++ arc_stmt w2 n w3 w4 ++ "Gun::new());").
    now rewrite <- !app_assoc.
  - destruct Hf as [-> | ->]; apply arc_block_free; literal_facts.
  - apply (@closed_block w (arc_stmt w2 n w3 w4) "Gun::new(secret_key, public_key))").
  - destruct (block_starts w (arc_stmt w2 n w3 w4)
                "Gun::new(secret_key, public_key));") as [body Hb].
    now exists w, body.
Qed.

(** ** The gates of the two rewriters *)

Lemma no_arg_rewriter_gate content updated :
  contains "Gun::new()" content = false ->
  no_arg_rewriter content updated = (content, updated).
Proof. intros H. unfold no_arg_rewriter. now rewrite H. Qed.

Lemma options_rewriter_gate content updated :
  contains "Gun::with_options(" content = false ->
  options_rewriter content updated = (content, updated).
Proof. intros H. unfold options_rewriter. now rewrite H. Qed.

Lemma no_match_without_call content :
  contains "Gun::new()" content = false ->
  no_match pattern content /\ no_match pattern2 content.
Proof.
  intros H. split.
  - apply no_match_pattern.
    now apply (@contains_prefix_false "Gun::new()" ";" content).
  - apply no_match_pattern2.
    now apply (@contains_prefix_false "Gun::new()" ");" content).
Qed.

(** ** A second run of the no-argument rewriter *)

Lemma sub_pattern_fixed t : no_match pattern (sub pattern replacement t).
Proof.
  apply (@observed_after pattern final1 pattern_observer
           pattern replacement pattern_rewriter (length t)); auto.
Qed.

Lemma sub_pattern2_fixed t : no_match pattern2 (sub pattern2 replacement2 t).
Proof.
  apply (@observed_after pattern2 final2 pattern2_observer
           pattern2 replacement2
           (fun s caps rest => @pattern2_rewriter final2 s caps rest
                                 (or_intror eq_refl))
           (length t)); auto.
Qed.

Lemma sub_pattern2_keeps t :
  no_match pattern t -> no_match pattern (sub pattern2 replacement2 t).
Proof.
  intros H.
  apply (@observed_after pattern final1 pattern_observer
           pattern2 replacement2
           (fun s caps rest => @pattern2_rewriter final1 s caps rest
                                 (or_introl eq_refl))
           (length t)); auto.
  intros a b Hab _. now apply (H a b).
Qed.

Lemma no_arg_rewriter_content content updated :
  contains "Gun::new()" content = true ->
  fst (no_arg_rewriter content updated)
  = sub pattern2 replacement2 (sub pattern replacement content).
Proof.
  intros H. unfold no_arg_rewriter. rewrite H.
  destruct (text_eqb (sub pattern replacement content) content) eqn:E1;
    cbn [negb].
  - apply text_eqb_eq in E1. rewrite E1.
    destruct (text_eqb (sub pattern2 replacement2 content) content) eqn:E2;
      cbn [negb fst]; auto.
    apply text_eqb_eq in E2. now rewrite E2.
  - destruct (text_eqb (sub pattern2 replacement2 (sub pattern replacement content))
                       (sub pattern replacement content)) eqn:E2;
      cbn [negb fst]; auto.
    apply text_eqb_eq in E2. now rewrite E2.
Qed.

Lemma no_arg_rewriter_settled content updated :
  no_match pattern content -> no_match pattern2 content ->
  no_arg_rewriter content updated = (content, updated).
Proof.
  intros H1 H2. unfold no_arg_rewriter.
  destruct (contains "Gun::new()" content); auto.
  rewrite (@sub_no_match pattern replacement content H1), text_eqb_refl.
  cbn [negb].
  now rewrite (@sub_no_match pattern2 replacement2 content H2), text_eqb_refl.
Qed.

(** ** A call site in its text *)

Section Scan.
Variables (r : regex) (final : text).

Hypothesis observer : forall s caps rest,
  match_at r s = Some (caps, rest) ->
  exists m, s = m ++ rest /\ ends_stmt m /\ ~ In slash m
            /\ contains final m = true
            /\ forall rest', match_at r (m ++ rest') = Some (caps, rest').

Variable tpl : template.

Lemma scan_shorter s caps rest :
  match_at r s = Some (caps, rest) -> length rest < length s.
Proof.
  intros H. apply observer in H as (m & -> & (m0 & -> & _) & _).
  rewrite !length_app. simpl. lia.
Qed.

(** The scan of [a ++ b] is the scan of [a], then that of [b], when no
    match starts in [a] and ends in [b]. *)
Lemma sub_app_agree : forall n a b,
  length a <= n ->
  (forall a1 a2, a = a1 ++ a2 -> a2 <> [] -> match_at r a2 = None ->
                 match_at r (a2 ++ b) = None) ->
  sub r tpl (a ++ b) = sub r tpl a ++ sub r tpl b.
Proof.
  induction n as [|n IH]; intros a b Hlen Hag.
  - destruct a; [|simpl in Hlen; lia].
    now rewrite (@sub_nil r tpl (@observed_nil r final observer)).
  - destruct a as [|y a].
    { now rewrite (@sub_nil r tpl (@observed_nil r final observer)). }
    destruct (match_at r (y :: a)) as [[caps d]|] eqn:E.
    + assert (E' := @observed_extend r final observer _ b _ _ E).
      rewrite (@sub_match r tpl _ caps _ E' (@scan_shorter _ _ _ E')).
      rewrite (@sub_match r tpl _ caps _ E (@scan_shorter _ _ _ E)).
      rewrite <- app_assoc. f_equal.
      assert (Hlt := @scan_shorter _ _ _ E).
      apply observer in E as (m & Hm & _).
      simpl in Hlt, Hlen.
      apply IH; [lia|].
      intros a1 a2 -> Ha2. apply (Hag (m ++ a1) a2); auto.
      now rewrite Hm, app_assoc.
    + cbn [app]. rewrite sub_skip.
      * rewrite sub_skip by assumption. cbn [app]. f_equal.
        apply IH; [simpl in Hlen; lia|].
        intros a1 a2 -> Ha2. now apply (Hag (y :: a1) a2).
      * apply (Hag [] (y :: a)); auto. discriminate.
Qed.

Lemma sub_app_closed a b :
  closed a -> sub r tpl (a ++ b) = sub r tpl a ++ sub r tpl b.
Proof.
  intros Hc. apply sub_app_agree with (length a); auto.
  intros a1 a2 -> Ha2 Hnone.
  destruct (match_at r (a2 ++ b)) as [[caps rest]|] eqn:E; auto.
  apply (@observed_within r final observer) in E as (d & _ & E); auto.
  - congruence.
  - now apply closed_suffix with a1.
Qed.

Lemma semicolon_last (l0 rest m0 : text) :
  ~ In semicolon m0 -> l0 ++ semicolon :: rest = m0 ++ [semicolon] ->
  rest = [].
Proof.
  revert m0. induction l0 as [|x l0 IH]; intros [|y m0] Hm H;
    cbn [app] in H.
  - now injection H.
  - injection H as <- _. exfalso. apply Hm. now left.
  - injection H as _ H. now destruct l0.
  - injection H as _ H. apply (IH m0); auto.
    intros Hin. apply Hm. now right.
Qed.

(** The scan around a text [site] that is one match, when no longer match
    ends where [site] ends. *)
Lemma sub_site pre site post caps :
  match_at r site = Some (caps, []) ->
  (forall p1 p2 caps', pre = p1 ++ p2 -> p2 <> [] ->
                       match_at r (p2 ++ site) <> Some (caps', [])) ->
  sub r tpl (pre ++ site ++ post)
  = sub r tpl pre ++ expand tpl caps ++ sub r tpl post.
Proof.
  intros Hsite Huniq.
  destruct (observer _ Hsite) as (m & Hm & Hstmt & _).
  rewrite app_nil_r in Hm. subst m.
  assert (Hclosed : closed (pre ++ site)).
  { right. destruct Hstmt as (m0 & -> & _). exists (pre ++ m0).
    now rewrite app_assoc. }
  rewrite app_assoc, (sub_app_closed _ Hclosed).
  rewrite (app_assoc (sub r tpl pre)). f_equal.
  rewrite (@sub_app_agree (length pre)); auto.
  - f_equal.
    rewrite (@sub_match r tpl site caps [] Hsite (@scan_shorter _ _ _ Hsite)).
    now rewrite (@sub_nil r tpl (@observed_nil r final observer)), app_nil_r.
  - intros p1 p2 -> Hp2 Hnone.
    destruct (match_at r (p2 ++ site)) as [[caps' rest]|] eqn:E; auto.
    exfalso.
    destruct (observer _ E) as (m & Hm & Hs & _ & _ & Hloc).
    apply app_eq_app in Hm as [l [[Hl _]|[Hl Hr]]].
    + (* the match ends within [p2] *)
      rewrite Hl, Hloc in Hnone. discriminate.
    + destruct l as [|c l].
      * rewrite app_nil_r in Hl. subst m.
        specialize (Hloc []). rewrite app_nil_r in Hloc. congruence.
      * (* or it is [p2 ++ site] *)
        assert (Hrest : rest = []).
        { destruct Hs as (m0 & Hm0 & _). destruct Hstmt as (s0 & Hs0 & Hsemi).
          rewrite Hl in Hm0.
          destruct (@exists_last _ (c :: l)) as (l0 & c' & Hc');
            [discriminate|].
          rewrite Hc', app_assoc in Hm0. apply app_inj_tail in Hm0 as [_ ->].
          rewrite Hc', Hs0, <- app_assoc in Hr. cbn [app] in Hr.
          symmetry in Hr. now apply semicolon_last in Hr. }
        subst rest. rewrite app_nil_r in Hr. subst site.
        apply (Huniq p1 p2 caps'); auto.
Qed.

(** A match that starts before a statement ends before the statement or
    with it. *)
Lemma match_before_stmt p2 site caps rest :
  ends_stmt site -> match_at r (p2 ++ site) = Some (caps, rest) ->
  (exists d, rest = d ++ site) \/ rest = [].
Proof.
  intros Hstmt E.
  destruct (observer _ E) as (m & Hm & Hs & _).
  apply app_eq_app in Hm as [l [[Hl ->]|[Hl Hr]]].
  - left. now exists l.
  - destruct l as [|c l].
    { left. exists []. now rewrite Hr. }
    right. destruct Hs as (m0 & Hm0 & _). destruct Hstmt as (s0 & Hs0 & Hsemi).
    rewrite Hl in Hm0.
    destruct (@exists_last _ (c :: l)) as (l0 & c' & Hc'); [discriminate|].
    rewrite Hc', app_assoc in Hm0. apply app_inj_tail in Hm0 as [_ ->].
    rewrite Hc', Hs0, <- app_assoc in Hr. cbn [app] in Hr.
    symmetry in Hr. now apply semicolon_last in Hr.
Qed.

(** A closed text [inert] that holds no match and that no match enters is
    copied by the scan. *)
Lemma sub_inert pre inert post :
  closed inert -> inert <> [] -> contains final inert = false ->
  (forall p1 p2 caps rest, pre = p1 ++ p2 -> p2 <> [] ->
     match_at r (p2 ++ inert) = Some (caps, rest) ->
     exists d, rest = d ++ inert) ->
  sub r tpl (pre ++ inert ++ post)
  = sub r tpl pre ++ inert ++ sub r tpl post.
Proof.
  intros Hclosed Hne Hfree Henter.
  assert (Hnone : no_match r inert).
  { intros a b -> . destruct (match_at r b) as [[caps rest]|] eqn:E; auto.
    exfalso. apply observer in E as (m & -> & _ & _ & Hc & _).
    apply contains_elim in Hc as (u & v & ->).
    rewrite <- !app_assoc, (app_assoc a u) in Hfree.
    now rewrite contains_intro in Hfree. }
  assert (Hc2 : closed (pre ++ inert)).
  { destruct Hclosed as [->|[a0 ->]]; [congruence|].
    right. exists (pre ++ a0). now rewrite app_assoc. }
  rewrite app_assoc, (sub_app_closed _ Hc2).
  rewrite (app_assoc (sub r tpl pre)). f_equal.
  rewrite (@sub_app_agree (length pre)); auto.
  - now rewrite (sub_no_match tpl Hnone).
  - intros p1 p2 -> Hp2 Hn.
    destruct (match_at r (p2 ++ inert)) as [[caps rest]|] eqn:E; auto.
    exfalso.
    destruct (Henter p1 p2 caps rest eq_refl Hp2 E) as [d ->].
    apply observer in E as (m & Hm & _ & _ & _ & Hloc).
    rewrite app_assoc in Hm. apply app_inv_tail in Hm.
    rewrite Hm, Hloc in Hn. discriminate.
Qed.

(** No match enters a text that starts, after white space, with the
    slash of a comment. *)
Lemma no_entry_comment p2 w body caps rest :
  all is_space w -> w <> [] ->
  match_at r (p2 ++ w ++ slash :: body) = Some (caps, rest) ->
  exists d, rest = d ++ w ++ slash :: body.
Proof.
  intros Hw Hne E.
  apply observer in E as (m & Hm & Hs & Hslash & _).
  apply app_eq_app in Hm as [l [[Hp ->]|[Hm Hr]]].
  - now exists l.
  - destruct l as [|c l].
    { exists []. now rewrite Hr. }
    exfalso. apply app_eq_app in Hr as [l2 [[Hw2 _]|[Hl2 Hr]]].
    + apply (@stmt_ends_outside_space m p2 (c :: l)); auto.
      * discriminate.
      * rewrite Hw2 in Hw. now apply all_app in Hw.
    + destruct l2 as [|c2 l2].
      * rewrite app_nil_r in Hl2.
        apply (@stmt_ends_outside_space m p2 (c :: l)); auto.
        -- discriminate.
        -- now rewrite Hl2.
      * cbn [app] in Hr. injection Hr as <- _.
        apply Hslash. rewrite Hm, Hl2.
        apply in_or_app. right. apply in_or_app. right. now left.
Qed.
End Scan.

Lemma run_unique cls (u v s t : text) :
  all cls u -> all cls v -> stops cls s -> stops cls t ->
  u ++ s = v ++ t -> u = v /\ s = t.
Proof.
  intros Hu Hv Hs Ht H. split.
  - rewrite <- (@take_while_app cls u s Hu Hs), H. now apply take_while_app.
  - rewrite <- (@drop_while_app cls u s Hu Hs), H. now apply drop_while_app.
Qed.

Lemma all_rev cls (w : text) : all cls w -> all cls (rev w).
Proof. apply Forall_rev. Qed.

Lemma bare_site_unique p w w2 w3 w4 caps :
  stops is_space (rev p) ->
  all is_space w -> all is_space w2 -> w2 <> [] ->
  all is_space w3 -> all is_space w4 ->
  match_at pattern (p ++ w ++ bare_stmt w2 w3 w4 ++ final1) = Some (caps, []) ->
  p = [].
Proof.
  intros Hp Hw Hw2 Hne2 Hw3 Hw4 H.
  apply match_at_pattern_inv in H
    as (w' & v2 & v3 & v4 & H & Hw' & _ & Hv2 & Hnv2 & Hv3 & Hv4 & _).
  rewrite app_nil_r in H. fold final1 in H.
  rewrite !app_assoc in H. apply app_inv_tail in H.
  apply (f_equal (@rev _)) in H. unfold bare_stmt in H.
  rewrite !rev_app_distr in H. cbn [rev list_ascii_of_string app] in H.
  rewrite <- ?app_assoc in H. cbn [app] in H.
  apply (@run_unique is_space) in H as [_ H];
    [|solve [now apply all_rev | reflexivity]..].
  injection H as H.
  apply (@run_unique is_space) in H as [_ H];
    [|solve [now apply all_rev | reflexivity]..].
  injection H as H.
  apply (@run_unique is_space) in H as [_ H];
    [|solve [now apply all_rev | reflexivity]..].
  injection H as H. rewrite <- (app_nil_r (rev w')) in H.
  apply (@run_unique is_space) in H as [_ H];
    [|solve [now apply all_rev | reflexivity | assumption]..].
  apply (f_equal (@rev _)) in H. now rewrite rev_involutive in H.
Qed.

Lemma stops_rev_run cls cls' (u x : text) :
  (forall c, cls' c = true -> cls c = false) ->
  all cls' u -> u <> [] -> stops cls (rev u ++ x).
Proof.
  intros Hcc Hu Hne. apply all_rev in Hu.
  destruct (rev u) as [|c u'] eqn:E.
  - apply (f_equal (@rev _)) in E. rewrite rev_involutive in E. now subst.
  - cbn [app stops]. apply Hcc. now inversion Hu.
Qed.

Lemma arc_site_unique p w w2 n w3 w4 caps :
  stops is_space (rev p) ->
  all is_space w -> all is_space w2 -> w2 <> [] -> all is_word n -> n <> [] ->
  all is_space w3 -> all is_space w4 ->
  match_at pattern2 (p ++ w ++ arc_stmt w2 n w3 w4 ++ final2) = Some (caps, []) ->
  p = [].
Proof.
  intros Hp Hw Hw2 Hne2 Hn Hnn Hw3 Hw4 H.
  apply match_at_pattern2_inv in H
    as (w' & v2 & n' & v3 & v4 & H & Hw' & _ & Hv2 & Hnv2 & Hn' & Hnn'
        & Hv3 & Hv4 & _).
  rewrite app_nil_r in H. fold final2 in H.
  rewrite !app_assoc in H. apply app_inv_tail in H.
  apply (f_equal (@rev _)) in H. unfold arc_stmt in H.
  rewrite !rev_app_distr in H. cbn [rev list_ascii_of_string app] in H.
  rewrite <- ?app_assoc in H. cbn [app] in H.
  injection H as H.
  apply (@run_unique is_space) in H as [_ H];
    [|solve [now apply all_rev | reflexivity]..].
  injection H as H.
  apply (@run_unique is_space) in H as [_ H];
    [|solve [now apply all_rev
            | apply stops_rev_run with is_word;
              auto using word_not_space]..].
  apply (@run_unique is_word) in H as [_ H];
    [|solve [now apply all_rev
            | apply stops_rev_run with is_space;
              auto using space_not_word]..].
  apply (@run_unique is_space) in H as [_ H];
    [|solve [now apply all_rev | reflexivity]..].
  injection H as H. rewrite <- (app_nil_r (rev w')) in H.
  apply (@run_unique is_space) in H as [_ H];
    [|solve [now apply all_rev | reflexivity | assumption]..].
  apply (f_equal (@rev _)) in H. now rewrite rev_involutive in H.
Qed.

Lemma stops_rev_suffix cls (p1 p2 : text) :
  stops cls (rev (p1 ++ p2)) -> p2 <> [] -> stops cls (rev p2).
Proof.
  intros H Hne. rewrite rev_app_distr in H.
  destruct (rev p2) as [|c q]; [exact I|exact H].
Qed.

Lemma sub_bare_site pre w w2 w3 w4 post :
  stops is_space (rev pre) ->
  all is_space w -> w <> [] -> all is_space w2 -> w2 <> [] ->
  all is_space w3 -> all is_space w4 ->
  sub pattern replacement
      (pre ++ (w ++ bare_stmt w2 w3 w4 ++ "Gun::new();") ++ post)
  = sub pattern replacement pre
      ++ block w (bare_stmt w2 w3 w4) "Gun::new(secret_key, public_key);"
      ++ sub pattern replacement post.
Proof.
  intros Hpre Hw Hne Hw2 Hne2 Hw3 Hw4.
  rewrite <- expand_replacement.
  apply (@sub_site pattern final1 pattern_observer).
  - rewrite <- (app_nil_r (w ++ _)), <- !app_assoc.
    now apply match_at_pattern_intro.
  - intros p1 p2 caps' -> Hp2 H.
    apply Hp2. apply bare_site_unique in H; auto.
    now apply stops_rev_suffix with p1.
Qed.

Lemma sub_arc_site pre w w2 n w3 w4 post :
  stops is_space (rev pre) ->
  all is_space w -> w <> [] -> all is_space w2 -> w2 <> [] ->
  all is_word n -> n <> [] ->
  all is_space w3 -> all is_space w4 ->
  sub pattern2 replacement2
      (pre ++ (w ++ arc_stmt w2 n w3 w4 ++ "Gun::new());") ++ post)
  = sub pattern2 replacement2 pre
      ++ block w (arc_stmt w2 n w3 w4) "Gun::new(secret_key, public_key));"
      ++ sub pattern2 replacement2 post.
Proof.
  intros Hpre Hw Hne Hw2 Hne2 Hn Hnn Hw3 Hw4.
  rewrite <- expand_replacement2.
  apply (@sub_site pattern2 final2 pattern2_observer).
  - rewrite <- (app_nil_r (w ++ _)), <- !app_assoc.
    now apply match_at_pattern2_intro.
  - intros p1 p2 caps' -> Hp2 H.
    apply Hp2. apply arc_site_unique in H; auto.
    now apply stops_rev_suffix with p1.
Qed.

(** ** Both rules, one after the other *)

Lemma bare_stmt_free p w2 w3 w4 tail :
  p <> [] -> no_space p -> In semicolon p -> ~ In "="%char p ->
  all is_space w2 -> w2 <> [] -> all is_space w3 -> all is_space w4 ->
  contains p "let" = false -> contains p tail = false ->
  contains p (bare_stmt w2 w3 w4 ++ tail) = false.
Proof.
  intros Hp Hns Hsemi Heq Hw2 Hne2 Hw3 Hw4 Hlet Htail.
  unfold bare_stmt. rewrite <- !app_assoc.
  rewrite contains_sep_run, Hlet by (auto; now apply space_run_sep).
  cbn [orb]. rewrite (app_assoc "gun" w3).
  change (list_ascii_of_string "=" ++ w4 ++ tail) with ("="%char :: w4 ++ tail).
  rewrite contains_sep by assumption.
  rewrite (@contains_skip_run p w4 tail), Htail
    by (auto; now apply space_run_sep).
  rewrite orb_false_r.
  apply contains_missing_char with semicolon; auto. not_in.
Qed.

Lemma arc_stmt_free p w2 n w3 w4 tail :
  p <> [] -> no_space p -> In semicolon p -> ~ In "="%char p ->
  all is_space w2 -> w2 <> [] -> all is_word n ->
  all is_space w3 -> all is_space w4 ->
  contains p "let" = false -> contains p ("Arc::new(" ++ tail) = false ->
  contains p (arc_stmt w2 n w3 w4 ++ tail) = false.
Proof.
  intros Hp Hns Hsemi Heq Hw2 Hne2 Hn Hw3 Hw4 Hlet Htail.
  unfold arc_stmt. rewrite <- !app_assoc.
  rewrite contains_sep_run, Hlet by (auto; now apply space_run_sep).
  cbn [orb]. rewrite (app_assoc n w3).
  change (list_ascii_of_string "=" ++ w4 ++ "Arc::new(" ++ tail)
    with ("="%char :: w4 ++ "Arc::new(" ++ tail).
  rewrite contains_sep by assumption.
  rewrite (@contains_skip_run p w4 ("Arc::new(" ++ tail)), Htail
    by (auto; now apply space_run_sep).
  rewrite orb_false_r.
  apply contains_missing_char with semicolon; auto. not_in.
Qed.

(** The second rule copies the block written by the first. *)
Lemma sub_pattern2_over_block pre w w2 w3 w4 post :
  all is_space w -> w <> [] -> all is_space w2 -> w2 <> [] ->
  all is_space w3 -> all is_space w4 ->
  let b := block w (bare_stmt w2 w3 w4) "Gun::new(secret_key, public_key);" in
  sub pattern2 replacement2 (pre ++ b ++ post)
  = sub pattern2 replacement2 pre ++ b ++ sub pattern2 replacement2 post.
Proof.
  intros Hw Hne Hw2 Hne2 Hw3 Hw4 b.
  apply (@sub_inert pattern2 final2 pattern2_observer).
  - apply (@closed_block w (bare_stmt w2 w3 w4) "Gun::new(secret_key, public_key)").
  - unfold b, block. destruct w; [congruence|discriminate].
  - apply bare_block_free; literal_facts.
  - intros p1 p2 caps rest _ _ E.
    destruct (block_starts w (bare_stmt w2 w3 w4)
                "Gun::new(secret_key, public_key);") as [body Hb].
    unfold b in *. rewrite Hb in *.
    now apply (@no_entry_comment pattern2 final2 pattern2_observer) in E.
Qed.

(** The first rule copies a call wrapped in [Arc::new]. *)
Lemma sub_pattern_over_arc pre w w2 n w3 w4 post :
  all is_space w -> w <> [] -> all is_space w2 -> w2 <> [] ->
  all is_word n -> n <> [] -> all is_space w3 -> all is_space w4 ->
  let site := w ++ arc_stmt w2 n w3 w4 ++ "Gun::new());" in
  sub pattern replacement (pre ++ site ++ post)
  = sub pattern replacement pre ++ site ++ sub pattern replacement post.
Proof.
  intros Hw Hne Hw2 Hne2 Hn Hnn Hw3 Hw4 site.
  assert (Hstmt : ends_stmt site).
  { exists (w ++ arc_stmt w2 n w3 w4 ++ "Gun::new())"). split.
    - unfold site. now rewrite <- !app_assoc.
    - not_in. }
  apply (@sub_inert pattern final1 pattern_observer).
  - right. destruct Hstmt as (m0 & -> & _). now exists m0.
  - unfold site. destruct w; [congruence|discriminate].
  - unfold site.
    rewrite contains_skip_run by (try discriminate; now apply space_run_sep;
                                  [unfold no_space; repeat constructor|]).
    apply arc_stmt_free; literal_facts.
  - intros p1 p2 caps rest _ _ E.
    destruct (@match_before_stmt pattern final1 pattern_observer
                p2 site caps rest Hstmt E) as [Hd| ->]; auto.
    exfalso.
    apply match_at_pattern_inv in E as (w' & v2 & v3 & v4 & E & _).
    unfold site in E. rewrite app_nil_r in E.
    apply (f_equal (@rev _)) in E. rewrite !rev_app_distr in E.
    cbn [rev list_ascii_of_string app] in E. discriminate.
Qed.

Lemma stops_app cls (a b : text) :
  stops cls a -> (a = [] -> stops cls b) -> stops cls (a ++ b).
Proof. destruct a; cbn [app]; auto. Qed.

Section Growth.
Variables (r : regex) (final : text).

Hypothesis observer : forall s caps rest,
  match_at r s = Some (caps, rest) ->
  exists m, s = m ++ rest /\ ends_stmt m /\ ~ In slash m
            /\ contains final m = true
            /\ forall rest', match_at r (m ++ rest') = Some (caps, rest').

Variable tpl : template.

Hypothesis expansion : forall s caps rest,
  match_at r s = Some (caps, rest) ->
  closed (expand tpl caps)
  /\ length s < length (expand tpl caps) + length rest.

(** The scan does not shorten a text, and a text that does not end in
    white space is rewritten to one that does not either. *)
Lemma sub_grows : forall n t,
  length t <= n ->
  length t <= length (sub r tpl t)
  /\ (stops is_space (rev t) -> stops is_space (rev (sub r tpl t))).
Proof.
  induction n as [|n IH]; intros t Hlen.
  - destruct t; [|simpl in Hlen; lia].
    rewrite (@sub_nil r tpl (@observed_nil r final observer)). split; auto.
  - destruct (match_at r t) as [[caps rest]|] eqn:E.
    + assert (Hlt := @scan_shorter r final observer _ _ _ E).
      destruct (expansion _ E) as (Hclosed & Hlonger).
      rewrite (@sub_match r tpl t caps rest E Hlt).
      destruct (IH rest ltac:(lia)) as (IHlen & IHend).
      split.
      * rewrite length_app. lia.
      * intros Hend. rewrite rev_app_distr. apply stops_app.
        -- apply IHend.
           apply observer in E as (m & -> & _).
           destruct rest as [|c rest']; [exact I|].
           apply stops_rev_suffix with m; auto. discriminate.
        -- intros _. destruct Hclosed as [Hnil|[b0 ->]].
           ++ rewrite Hnil in Hlonger. simpl in Hlonger. lia.
           ++ rewrite rev_app_distr. reflexivity.
    + destruct t as [|y t].
      * rewrite (@sub_nil r tpl (@observed_nil r final observer)). split; auto.
      * rewrite sub_skip by assumption.
        destruct (IH t ltac:(simpl in Hlen; lia)) as (IHlen & IHend).
        split; [simpl; lia|].
        intros Hend. cbn [rev]. apply stops_app.
        -- apply IHend. destruct t as [|c t']; [exact I|].
           apply (@stops_rev_suffix is_space [y] (c :: t')); auto. discriminate.
        -- intros Hnil. destruct t as [|c t']; [exact Hend|].
           apply (f_equal (@length _)) in Hnil. rewrite length_rev in Hnil.
           simpl in IHlen, Hnil. lia.
Qed.

Lemma sub_length t : length t <= length (sub r tpl t).
Proof. now apply (@sub_grows (length t) t (le_n _)). Qed.

Lemma sub_keeps_end t :
  stops is_space (rev t) -> stops is_space (rev (sub r tpl t)).
Proof. now apply (@sub_grows (length t) t (le_n _)). Qed.
End Growth.

Lemma block_longer w g2 (final tail rest : text) :
  length final <= length tail ->
  length (w ++ g2 ++ final ++ rest) < length (block w g2 tail) + length rest.
Proof.
  intros H. unfold block. rewrite !length_app. simpl. lia.
Qed.

Lemma pattern_expansion s caps rest :
  match_at pattern s = Some (caps, rest) ->
  closed (expand replacement caps)
  /\ length s < length (expand replacement caps) + length rest.
Proof.
  intros H. split; [now apply pattern_rewriter in H|].
  apply match_at_pattern_inv in H as (w & w2 & w3 & w4 & -> & _ & _ & _ & _ & _ & _ & ->).
  rewrite expand_replacement. apply block_longer. simpl. lia.
Qed.

Lemma pattern2_expansion s caps rest :
  match_at pattern2 s = Some (caps, rest) ->
  closed (expand replacement2 caps)
  /\ length s < length (expand replacement2 caps) + length rest.
Proof.
  intros H. split.
  { now apply (@pattern2_rewriter final2 s caps rest (or_intror eq_refl)) in H. }
  apply match_at_pattern2_inv in H
    as (w & w2 & n & w3 & w4 & -> & _ & _ & _ & _ & _ & _ & _ & _ & ->).
  rewrite expand_replacement2. apply block_longer. simpl. lia.
Qed.

(** ** The no-argument rewriter at a call site *)

Lemma no_arg_rewriter_fst t updated :
  fst (no_arg_rewriter t updated)
  = sub pattern2 replacement2 (sub pattern replacement t).
Proof.
  destruct (contains "Gun::new()" t) eqn:Hgate.
  - now apply no_arg_rewriter_content.
  - rewrite no_arg_rewriter_gate by assumption.
    destruct (no_match_without_call _ Hgate) as [H1 H2].
    now rewrite (@sub_no_match pattern replacement t H1),
                (@sub_no_match pattern2 replacement2 t H2).
Qed.

Lemma no_arg_rewriter_changed t updated :
  contains "Gun::new()" t = true ->
  length t < length (sub pattern2 replacement2 (sub pattern replacement t)) ->
  no_arg_rewriter t updated
  = (sub pattern2 replacement2 (sub pattern replacement t), true).
Proof.
  intros Hgate Hlen. unfold no_arg_rewriter. rewrite Hgate.
  destruct (text_eqb (sub pattern replacement t) t) eqn:E1; cbn [negb].
  - apply text_eqb_eq in E1. rewrite E1 in *.
    destruct (text_eqb (sub pattern2 replacement2 t) t) eqn:E2;
      cbn [negb]; auto.
    apply text_eqb_eq in E2. rewrite E2 in Hlen. lia.
  - destruct (text_eqb (sub pattern2 replacement2 (sub pattern replacement t))
                       (sub pattern replacement t)) eqn:E2;
      cbn [negb]; auto.
    apply text_eqb_eq in E2. now rewrite E2.
Qed.

Lemma rewrite_length t :
  length t <= length (sub pattern2 replacement2 (sub pattern replacement t)).
Proof.
  etransitivity.
  - apply (@sub_length pattern final1 pattern_observer replacement
             pattern_expansion).
  - apply (@sub_length pattern2 final2 pattern2_observer replacement2
             pattern2_expansion).
Qed.

(** ** Occurrences of a literal *)

Lemma occurrences_skip p a b :
  (forall a1 a2, a = a1 ++ a2 -> a2 <> [] -> starts_with p (a2 ++ b) = false) ->
  occurrences p (a ++ b) = occurrences p b.
Proof.
  induction a as [|x a IH]; intros H; auto.
  cbn [app occurrences].
  change (x :: a ++ b) with ((x :: a) ++ b).
  rewrite (H [] (x :: a)) by (auto; discriminate).
  cbn [Nat.add]. apply IH. intros a1 a2 -> Ha2. now apply (H (x :: a1) a2).
Qed.

Lemma occurrences_absent p s : contains p s = false -> occurrences p s = 0.
Proof.
  induction s as [|x s IH]; intros H; rewrite contains_unfold in H;
    apply orb_false_iff in H as [H1 H2]; cbn [occurrences]; rewrite H1; auto.
Qed.

Lemma occurrences_sep c p a b :
  ~ In c p ->
  occurrences p (a ++ c :: b) = occurrences p a + occurrences p b.
Proof.
  intros Hc. induction a as [|x a IH].
  - cbn [app occurrences].
    change (c :: b) with ([] ++ c :: b) at 1. rewrite starts_with_sep by assumption.
    lia.
  - cbn [app occurrences].
    change (x :: a ++ c :: b) with ((x :: a) ++ c :: b).
    rewrite starts_with_sep by assumption. rewrite IH. lia.
Qed.

Lemma occurrences_join p ls :
  p <> [] -> ~ In newline p -> occurrences p (join nl ls) = total p ls.
Proof.
  intros Hp Hc. induction ls as [|l ls IH].
  - cbn. destruct p; [congruence|reflexivity].
  - destruct ls as [|l' ls].
    + unfold total, list_sum. cbn [join map fold_right]. lia.
    + change (join nl (l :: l' :: ls)) with (l ++ newline :: join nl (l' :: ls)).
      rewrite occurrences_sep, IH by assumption. reflexivity.
Qed.

Lemma total_app p a b : total p (a ++ b) = total p a + total p b.
Proof. unfold total. now rewrite map_app, list_sum_app. Qed.

(** ** Statements that are a literal *)

Lemma stmt_suffix x l : ends_stmt (x ++ l) -> l <> [] -> ends_stmt l.
Proof.
  intros (m0 & Hm & Hsemi) Hl.
  destruct (exists_last Hl) as (l0 & c & ->).
  rewrite app_assoc in Hm. apply app_inj_tail in Hm as [<- ->].
  exists l0. split; auto. intros Hin. apply Hsemi, in_or_app. now right.
Qed.

Lemma stmt_closed m : ends_stmt m -> closed m.
Proof. intros (m0 & -> & _). right. now exists m0. Qed.

Lemma stmt_not_nil m : ends_stmt m -> m <> [].
Proof. intros (m0 & -> & _). now destruct m0. Qed.

(** Two statements at the head of one text are the same. *)
Lemma stmt_unique m l rest rest' :
  ends_stmt m -> ends_stmt l -> m ++ rest = l ++ rest' -> m = l.
Proof.
  intros Hm Hl H.
  destruct (@stmt_within_closed m rest l rest' Hm (stmt_closed Hl)
              (stmt_not_nil Hl) H) as (d & Hd & _).
  symmetry in H.
  destruct (@stmt_within_closed l rest' m rest Hl (stmt_closed Hm)
              (stmt_not_nil Hm) H) as (d' & Hd' & _).
  rewrite Hd' in Hd at 1. rewrite <- app_assoc in Hd.
  rewrite <- (app_nil_r l) in Hd at 1. apply app_inv_head in Hd.
  symmetry in Hd. apply app_eq_nil in Hd as [-> _].
  now rewrite app_nil_r in Hd'.
Qed.

Section Literal.
Variable L : text.
Hypothesis L_stmt : ends_stmt L.

Lemma literal_starts s :
  starts_with L s = true <-> match_at (RLit L) s <> None.
Proof.
  unfold starts_with, match_at. cbn [rmatch].
  destruct (strip_prefix L s); split; congruence.
Qed.

(** A closed text without [L] hides every occurrence that starts in it. *)
Lemma occurrences_closed_free a b :
  closed a -> contains L a = false ->
  occurrences L (a ++ b) = occurrences L b.
Proof.
  intros Hc Hfree. apply occurrences_skip. intros a1 a2 -> Ha2.
  destruct (starts_with L (a2 ++ b)) eqn:E; auto. exfalso.
  apply starts_with_true in E as [r0 E]. symmetry in E.
  destruct (@stmt_within_closed L r0 a2 b L_stmt (closed_suffix _ Hc Ha2) Ha2 E)
    as (d & -> & _).
  now rewrite contains_intro in Hfree.
Qed.

(** *** [re.sub] *)

Section Rewritten.
Hypothesis L_slash : ~ In slash L.

Lemma literal_observer s caps rest :
  match_at (RLit L) s = Some (caps, rest) ->
  exists m, s = m ++ rest /\ ends_stmt m /\ ~ In slash m
            /\ contains L m = true
            /\ forall rest', match_at (RLit L) (m ++ rest') = Some (caps, rest').
Proof.
  unfold match_at. cbn [rmatch].
  destruct (strip_prefix L s) as [r0|] eqn:E; [|discriminate].
  intros [= <- <-]. apply strip_prefix_Some in E. exists L. repeat split; auto.
  - rewrite <- (app_nil_r L) at 2. apply (contains_intro [] L []).
  - intros rest'. now rewrite strip_prefix_app.
Qed.

Variables (r : regex) (tpl : template) (final_r : text).

Hypothesis foreign : contains final_r L = false.

Hypothesis rewriter_site : forall s caps rest,
  match_at r s = Some (caps, rest) ->
  exists m, s = m ++ rest /\ ends_stmt m /\ contains final_r m = true
            /\ contains L m = false.

Hypothesis rewriter_block : forall s caps rest,
  match_at r s = Some (caps, rest) ->
  contains L (expand tpl caps) = false
  /\ closed (expand tpl caps)
  /\ exists w body, expand tpl caps = w ++ slash :: body
                    /\ all is_space w /\ w <> [].

Lemma rewriter_shorter s caps rest :
  match_at r s = Some (caps, rest) -> length rest < length s.
Proof.
  intros H. apply rewriter_site in H as (m & -> & (m0 & -> & _) & _).
  rewrite !length_app. simpl. lia.
Qed.

Lemma literal_rewriter s caps rest :
  match_at r s = Some (caps, rest) ->
  length rest < length s
  /\ (exists m, s = m ++ rest)
  /\ contains L (expand tpl caps) = false
  /\ closed (expand tpl caps)
  /\ exists w body, expand tpl caps = w ++ slash :: body
                    /\ all is_space w /\ w <> [].
Proof.
  intros H. split; [now apply rewriter_shorter with caps|].
  split; [|now apply rewriter_block with s rest].
  apply rewriter_site in H as (m & Hm & _). now exists m.
Qed.

(** An occurrence of [L] that starts in the text [x] copied before a
    rewritten text was there before the rewrite. *)
Lemma occurs_before t x :
  starts_with L (x ++ sub r tpl t) = true -> starts_with L (x ++ t) = true.
Proof.
  rewrite !literal_starts.
  apply (@observed_before (RLit L) L literal_observer r tpl literal_rewriter
           (length t)); auto.
Qed.

(** And it is still there after the rewrite. *)
Lemma occurs_kept : forall n t x,
  length t <= n ->
  starts_with L (x ++ t) = true -> starts_with L (x ++ sub r tpl t) = true.
Proof.
  induction n as [|n IH]; intros t x Hlen H.
  - destruct t; [|simpl in Hlen; lia].
    destruct (match_at r []) as [[caps rest]|] eqn:E.
    + apply rewriter_shorter in E. simpl in E. lia.
    + now rewrite sub_nil.
  - destruct (match_at r t) as [[caps rest]|] eqn:E.
    + rewrite (@sub_match r tpl t caps rest E (@rewriter_shorter _ _ _ E)).
      apply rewriter_site in E as (m & -> & Hm & Hfinal & _).
      apply starts_with_true in H as [r0 H].
      apply app_eq_app in H as [l [[-> _]|[HL Hr]]].
      * rewrite <- app_assoc. apply starts_with_app.
      * destruct l as [|c l].
        { rewrite app_nil_r in HL. subst x. apply starts_with_app. }
        exfalso.
        assert (Hl : ends_stmt (c :: l)).
        { apply stmt_suffix with x; [now rewrite <- HL|discriminate]. }
        apply (@stmt_unique _ _ _ _ Hm Hl) in Hr. subst m.
        apply contains_elim in Hfinal as (u & v & Hfinal).
        rewrite HL, Hfinal, app_assoc, contains_intro in foreign.
        discriminate.
    + destruct t as [|y t].
      * now rewrite sub_nil.
      * rewrite sub_skip by assumption.
        change (x ++ y :: sub r tpl t) with (x ++ [y] ++ sub r tpl t).
        rewrite app_assoc. apply IH; [simpl in Hlen; lia|].
        now rewrite <- app_assoc.
Qed.

Lemma occurs_sub t x :
  starts_with L (x ++ sub r tpl t) = starts_with L (x ++ t).
Proof.
  destruct (starts_with L (x ++ t)) eqn:E.
  - now apply occurs_kept with (length t).
  - destruct (starts_with L (x ++ sub r tpl t)) eqn:E'; auto.
    apply occurs_before in E'. congruence.
Qed.

(** [re.sub] keeps the number of occurrences of [L]. *)
Lemma occurrences_sub : forall n t,
  length t <= n -> occurrences L (sub r tpl t) = occurrences L t.
Proof.
  induction n as [|n IH]; intros t Hlen.
  - destruct t; [|simpl in Hlen; lia].
    destruct (match_at r []) as [[caps rest]|] eqn:E.
    + apply rewriter_shorter in E. simpl in E. lia.
    + now rewrite sub_nil.
  - destruct (match_at r t) as [[caps rest]|] eqn:E.
    + assert (Hlt := @rewriter_shorter _ _ _ E).
      rewrite (@sub_match r tpl t caps rest E Hlt).
      destruct (rewriter_block _ E) as (Hfree & Hclosed & _).
      apply rewriter_site in E as (m & -> & Hm & _ & Hm_free).
      rewrite !occurrences_closed_free; auto using stmt_closed.
      apply IH. rewrite length_app in Hlen, Hlt. lia.
    + destruct t as [|y t].
      * now rewrite sub_nil.
      * rewrite sub_skip by assumption. cbn [occurrences].
        change (y :: sub r tpl t) with ([y] ++ sub r tpl t).
        rewrite occurs_sub. cbn [app].
        rewrite IH; [reflexivity|simpl in Hlen; lia].
Qed.

End Rewritten.

(** *** [str.replace] *)

Section Replaced.
Variables (old new : text) (c : ascii).
Hypothesis c_foreign : ~ In c L.
Variables (old0 new0 : text).
Hypothesis old_shape : old = old0 ++ [c].
Hypothesis new_shape : new = new0 ++ [c].
Hypothesis old_semi : ~ In semicolon old0.
Hypothesis new_semi : ~ In semicolon new0.

Lemma starts_with_last y d :
  d <> semicolon -> starts_with L (y ++ [d]) = starts_with L y.
Proof.
  intros Hd. destruct (starts_with L y) eqn:E.
  - apply starts_with_true in E as [r0 ->]. rewrite <- app_assoc.
    apply starts_with_app.
  - destruct (starts_with L (y ++ [d])) eqn:E'; auto. exfalso.
    apply starts_with_true in E' as [r0 E'].
    destruct (@exists_last _ r0) as (r1 & e & ->).
    + intros ->. rewrite app_nil_r in E'.
      destruct L_stmt as (m0 & Hm0 & _). rewrite Hm0 in E'.
      apply app_inj_tail in E' as [_ E']. congruence.
    + rewrite app_assoc in E'. apply app_inj_tail in E' as [-> _].
      now rewrite starts_with_app in E.
Qed.

Lemma starts_with_run y n0 :
  ~ In semicolon n0 -> starts_with L (y ++ n0) = starts_with L y.
Proof.
  revert y. induction n0 as [|d n0 IH]; intros y Hn.
  - now rewrite app_nil_r.
  - change (y ++ d :: n0) with (y ++ [d] ++ n0).
    rewrite app_assoc, IH, starts_with_last; auto.
    + intros ->. apply Hn. now left.
    + intros Hin. apply Hn. now right.
Qed.

(** No occurrence of [L] goes into a call or past it. *)
Lemma starts_with_blocked x n0 z :
  ~ In semicolon n0 ->
  starts_with L (x ++ (n0 ++ [c]) ++ z) = starts_with L x.
Proof.
  intros Hn. rewrite <- app_assoc. cbn [app].
  rewrite app_assoc, starts_with_sep, starts_with_run; auto.
Qed.

Lemma occurrences_blocked n0 z :
  ~ In semicolon n0 ->
  occurrences L ((n0 ++ [c]) ++ z) = occurrences L z.
Proof.
  intros Hn. apply occurrences_skip. intros a1 a2 Ha Ha2.
  destruct (exists_last Ha2) as (a3 & e & ->).
  rewrite app_assoc in Ha. apply app_inj_tail in Ha as [-> <-].
  rewrite <- (app_nil_l ((a3 ++ [c]) ++ z)), starts_with_blocked.
  - destruct L_stmt as (m0 & -> & _). now destruct m0.
  - intros Hin. apply Hn, in_or_app. now right.
Qed.

Lemma old_not_nil : old <> [].
Proof. rewrite old_shape. now destruct old0. Qed.

Lemma occurs_replace : forall n s x,
  length s <= n ->
  starts_with L (x ++ replace old new s) = starts_with L (x ++ s).
Proof.
  induction n as [|n IH]; intros s x Hlen.
  - destruct s; [|simpl in Hlen; lia].
    now rewrite (replace_unfold _ _ old_not_nil).
  - destruct s as [|y s].
    { now rewrite (replace_unfold _ _ old_not_nil). }
    destruct (strip_prefix old (y :: s)) as [rest|] eqn:E.
    + apply strip_prefix_Some in E. rewrite E.
      rewrite (replace_hit _ _ old_not_nil).
      rewrite old_shape, new_shape, !starts_with_blocked; auto.
    + rewrite (@replace_skip old new y s old_not_nil E).
      change (x ++ y :: replace old new s) with (x ++ [y] ++ replace old new s).
      change (x ++ y :: s) with (x ++ [y] ++ s).
      rewrite !app_assoc. apply IH. simpl in Hlen. lia.
Qed.

(** [str.replace] keeps the number of occurrences of [L]. *)
Lemma occurrences_replace : forall n s,
  length s <= n -> occurrences L (replace old new s) = occurrences L s.
Proof.
  induction n as [|n IH]; intros s Hlen.
  - destruct s; [|simpl in Hlen; lia].
    now rewrite (replace_unfold _ _ old_not_nil).
  - destruct s as [|y s].
    { now rewrite (replace_unfold _ _ old_not_nil). }
    destruct (strip_prefix old (y :: s)) as [rest|] eqn:E.
    + apply strip_prefix_Some in E. rewrite E.
      rewrite (replace_hit _ _ old_not_nil).
      assert (Hlt : length rest <= n).
      { apply (f_equal (@length ascii)) in E.
        rewrite length_app, old_shape, length_app in E. simpl in E, Hlen. lia. }
      transitivity (occurrences L (replace old new rest)).
      * rewrite new_shape at 1. now apply occurrences_blocked.
      * rewrite IH by assumption. symmetry.
        rewrite old_shape. now apply occurrences_blocked.
    + rewrite (@replace_skip old new y s old_not_nil E). cbn [occurrences].
      change (y :: replace old new s) with ([y] ++ replace old new s).
      rewrite (@occurs_replace (length s)) by auto. cbn [app].
      rewrite IH; [reflexivity|simpl in Hlen; lia].
Qed.
End Replaced.
End Literal.

(** ** The import line through the passes *)

Lemma import_line_stmt : ends_stmt import_line.
Proof.
  exists "use chia_bls::{SecretKey, PublicKey}". split; [reflexivity|]. not_in.
Qed.

Lemma import_line_slash : ~ In slash import_line.
Proof. not_in. Qed.

Lemma import_line_brace : In brace import_line.
Proof. unfold brace. simpl. tauto. Qed.

Lemma import_line_free s : ~ In brace s -> contains import_line s = false.
Proof. apply contains_missing_char, import_line_brace. Qed.

Lemma block_brace_free w g2 tail :
  ~ In brace w -> ~ In brace g2 -> ~ In brace tail ->
  ~ In brace (block w g2 tail).
Proof.
  intros Hw Hg Ht Hin. unfold block in Hin.
  repeat (apply in_app_or in Hin as [Hin|Hin]); try contradiction;
    simpl in Hin; intuition discriminate.
Qed.

Lemma pattern_import_site s caps rest :
  match_at pattern s = Some (caps, rest) ->
  exists m, s = m ++ rest /\ ends_stmt m /\ contains final1 m = true
            /\ contains import_line m = false.
Proof.
  intros H. destruct (pattern_observer _ H) as (m & Hm & Hs & _ & Hf & _).
  exists m. repeat split; auto.
  apply match_at_pattern_inv in H
    as (w & w2 & w3 & w4 & Hs' & Hw & Hne & Hw2 & Hne2 & Hw3 & Hw4 & _).
  rewrite Hs' in Hm.
  replace (w ++ bare_stmt w2 w3 w4 ++ "Gun::new();" ++ rest)
    with ((w ++ bare_stmt w2 w3 w4 ++ "Gun::new();") ++ rest) in Hm
    by now rewrite <- !app_assoc.
  apply app_inv_tail in Hm. subst m.
  apply import_line_free. unfold brace. not_in.
Qed.

Lemma pattern_import_block s caps rest :
  match_at pattern s = Some (caps, rest) ->
  contains import_line (expand replacement caps) = false
  /\ closed (expand replacement caps)
  /\ exists w body, expand replacement caps = w ++ slash :: body
                    /\ all is_space w /\ w <> [].
Proof.
  intros H. destruct (pattern_rewriter _ H) as (_ & _ & _ & Hc & Hb).
  split; [|now split].
  apply match_at_pattern_inv in H
    as (w & w2 & w3 & w4 & _ & Hw & Hne & Hw2 & Hne2 & Hw3 & Hw4 & ->).
  rewrite expand_replacement.
  apply import_line_free, block_brace_free; unfold brace; not_in.
Qed.

Lemma pattern2_import_site s caps rest :
  match_at pattern2 s = Some (caps, rest) ->
  exists m, s = m ++ rest /\ ends_stmt m /\ contains final2 m = true
            /\ contains import_line m = false.
Proof.
  intros H. destruct (pattern2_observer _ H) as (m & Hm & Hs & _ & Hf & _).
  exists m. repeat split; auto.
  apply match_at_pattern2_inv in H
    as (w & w2 & n & w3 & w4 & Hs' & Hw & Hne & Hw2 & Hne2 & Hn & Hnne
        & Hw3 & Hw4 & _).
  rewrite Hs' in Hm.
  replace (w ++ arc_stmt w2 n w3 w4 ++ "Gun::new());" ++ rest)
    with ((w ++ arc_stmt w2 n w3 w4 ++ "Gun::new());") ++ rest) in Hm
    by now rewrite <- !app_assoc.
  apply app_inv_tail in Hm. subst m.
  apply import_line_free. unfold brace. not_in.
Qed.

Lemma pattern2_import_block s caps rest :
  match_at pattern2 s = Some (caps, rest) ->
  contains import_line (expand replacement2 caps) = false
  /\ closed (expand replacement2 caps)
  /\ exists w body, expand replacement2 caps = w ++ slash :: body
                    /\ all is_space w /\ w <> [].
Proof.
  intros H.
  destruct (@pattern2_rewriter final2 _ _ _ (or_intror eq_refl) H)
    as (_ & _ & _ & Hc & Hb).
  split; [|now split].
  apply match_at_pattern2_inv in H
    as (w & w2 & n & w3 & w4 & _ & Hw & Hne & Hw2 & Hne2 & Hn & Hnne
        & Hw3 & Hw4 & ->).
  rewrite expand_replacement2.
  apply import_line_free, block_brace_free; unfold brace; not_in.
Qed.

Lemma no_arg_rewriter_import content updated :
  occurrences import_line (fst (no_arg_rewriter content updated))
  = occurrences import_line content.
Proof.
  rewrite no_arg_rewriter_fst.
  rewrite (@occurrences_sub import_line import_line_stmt import_line_slash
             pattern2 replacement2 final2 eq_refl
             pattern2_import_site pattern2_import_block
             (length (sub pattern replacement content))) by auto.
  apply (@occurrences_sub import_line import_line_stmt import_line_slash
           pattern replacement final1 eq_refl
           pattern_import_site pattern_import_block (length content)); auto.
Qed.

(** *** The options rewriter *)

Lemma uint_word u :
  all is_word (list_ascii_of_string (NilEmpty.string_of_uint u)).
Proof. induction u; simpl; constructor; auto. Qed.

Lemma str_word k : all is_word (str k).
Proof.
  unfold str, NilZero.string_of_uint.
  destruct (Nat.to_uint k); try apply uint_word. now repeat constructor.
Qed.

Lemma repeat_space n : all is_space (repeat " "%char n).
Proof. induction n; simpl; constructor; auto. Qed.

Lemma key_gen_import indent k :
  occurrences import_line (rstrip (key_gen (repeat " "%char indent) k)) = 0.
Proof.
  apply occurrences_absent, import_line_free.
  rewrite rstrip_key_gen.
  assert (Hi := repeat_space indent). assert (Hk := str_word k).
  unfold secret_key_line, public_key_line, secret_key_name, public_key_name,
    nl, brace.
  not_in.
Qed.

Lemma call_import k o s :
  all is_word o ->
  occurrences import_line (replace (old_call o) (new_call k o) s)
  = occurrences import_line s.
Proof.
  intros Ho. assert (Hk := str_word k).
  apply (@occurrences_replace import_line import_line_stmt
           (old_call o) (new_call k o) ")"%char)
    with (old0 := "Gun::with_options(" ++ o)
         (new0 := "Gun::with_options(" ++ secret_key_name k ++ ", "
                    ++ public_key_name k ++ ", " ++ o)
         (n := length s); auto.
  - not_in.
  - unfold old_call. now rewrite <- !app_assoc.
  - not_in.
  - unfold secret_key_name, public_key_name. not_in.
Qed.

Lemma search_options_caps s caps rest :
  search options_pattern s = Some (caps, rest) ->
  exists o, caps = [(1, o)] /\ all is_word o.
Proof.
  induction s as [|x s IH]; cbn [search];
    destruct (match_at options_pattern _) as [[c0 r0]|] eqn:E; intros H;
    try discriminate; auto;
    injection H as <- <-;
    apply match_at_options_inv in E as (o & _ & Ho & _ & ->); now exists o.
Qed.

Lemma loop_body_import (lines : list text) st :
  total import_line (new_lines (loop_body lines st))
  = total import_line (new_lines st)
    + occurrences import_line (nth (i st) lines []).
Proof.
  unfold loop_body; cbv zeta.
  destruct (_ && _); [destruct (search _ _) as [[caps rest]|] eqn:E|];
    cbn [new_lines]; rewrite total_app; unfold total, list_sum;
    cbn [map fold_right]; try lia.
  apply search_options_caps in E as (o & -> & Ho). cbn [group Nat.eqb].
  rewrite key_gen_import, call_import by assumption. lia.
Qed.

Lemma skipn_nth {A} (d : A) : forall (l : list A) n,
  n < length l -> skipn n l = nth n l d :: skipn (S n) l.
Proof.
  induction l as [|x l IH]; intros [|n] H; simpl in H; try lia; auto.
  cbn [skipn nth]. rewrite IH by lia. reflexivity.
Qed.

Lemma while_loop_import (lines : list text) : forall fuel st,
  length lines <= i st + fuel ->
  total import_line (new_lines (while_loop fuel lines st))
  = total import_line (new_lines st) + total import_line (skipn (i st) lines).
Proof.
  induction fuel as [|fuel IH]; intros st Hlen; cbn [while_loop].
  - rewrite skipn_all2 by lia. change (total import_line []) with 0. lia.
  - destruct (i st <? length lines) eqn:E.
    + apply Nat.ltb_lt in E.
      rewrite IH by (rewrite loop_body_index; lia).
      rewrite loop_body_import, loop_body_index.
      rewrite (@skipn_nth _ [] lines (i st) E).
      change (nth (i st) lines [] :: skipn (S (i st)) lines)
        with ([nth (i st) lines []] ++ skipn (S (i st)) lines).
      rewrite (total_app _ [_]).
      change (total import_line [nth (i st) lines []])
        with (occurrences import_line (nth (i st) lines []) + 0).
      lia.
    + apply Nat.ltb_ge in E. rewrite skipn_all2 by lia.
      change (total import_line []) with 0. lia.
Qed.

Lemma options_rewriter_import content updated :
  occurrences import_line (fst (options_rewriter content updated))
  = occurrences import_line content.
Proof.
  unfold options_rewriter.
  destruct (contains "Gun::with_options(" content); auto. cbv zeta. cbn [fst].
  destruct (updated_flag _); auto.
  rewrite occurrences_join by (try discriminate; simpl; intuition discriminate).
  rewrite while_loop_import by (simpl; lia). cbn [new_lines i skipn].
  change (total import_line []) with 0. cbn [Nat.add].
  rewrite <- occurrences_join by (try discriminate; simpl; intuition discriminate).
  now rewrite join_split.
Qed.

Lemma transform_import content :
  contains import_line content = true ->
  occurrences import_line (fst (transform content))
  = occurrences import_line content.
Proof.
  intros H. unfold transform.
  rewrite import_augmenter_present by now apply import_line_has_prefix.
  destruct (no_arg_rewriter content false) as [content' updated'] eqn:E.
  rewrite options_rewriter_import.
  change content' with (fst (content', updated')). rewrite <- E.
  apply no_arg_rewriter_import.
Qed.

(** ** The loop of the options rewriter as one pass *)

Lemma loop_body_emitted (lines : list text) st :
  loop_body lines st
  = mk_state (S (i st)) (new_lines st ++ emitted lines (i st) (key_counter st))
             (key_counter st + sites lines (i st) 1)
             (updated_flag st || rewrites lines (i st)).
Proof.
  unfold loop_body, emitted, sites, rewrites, options_var, indent_of; cbv zeta.
  cbn [seq filter].
  destruct (contains "Gun::with_options(" (nth (i st) lines [])); cbn [andb].
  - destruct (contains "SecretKey::from_seed" (lookback lines (i st)));
      cbn [negb andb length].
    + now rewrite Nat.add_0_r, orb_false_r.
    + destruct (search options_pattern (nth (i st) lines [])) as [[caps rest]|];
        cbn [length].
      * now rewrite Nat.add_1_r, orb_true_r.
      * now rewrite Nat.add_0_r, orb_false_r.
  - cbn [length]. now rewrite Nat.add_0_r, orb_false_r.
Qed.

Lemma sites_S lines a n :
  sites lines a (S n) = sites lines a 1 + sites lines (S a) n.
Proof.
  unfold sites. cbn [seq filter].
  destruct (rewrites lines a); cbn [length]; lia.
Qed.

Lemma sites_add lines a n m :
  sites lines a (n + m) = sites lines a n + sites lines (a + n) m.
Proof.
  unfold sites. now rewrite seq_app, filter_app, length_app.
Qed.

(** The loop as one pass over the indices: line [j] is emitted with the
    counter that the rewritten lines before it have left. *)
Lemma while_loop_emitted (lines : list text) : forall n st,
  i st + n <= length lines ->
  while_loop n lines st
  = mk_state (i st + n)
      (new_lines st
         ++ flat_map (fun j => emitted lines j
                                 (key_counter st + sites lines (i st) (j - i st)))
                     (seq (i st) n))
      (key_counter st + sites lines (i st) n)
      (updated_flag st || existsb (rewrites lines) (seq (i st) n)).
Proof.
  induction n as [|n IH]; intros st Hlen.
  - cbn [while_loop seq flat_map existsb]. unfold sites. cbn [seq filter length].
    rewrite !Nat.add_0_r, app_nil_r, orb_false_r. now destruct st.
  - rewrite while_loop_step by lia.
    rewrite IH by (rewrite loop_body_index; lia).
    rewrite loop_body_emitted. cbn [i new_lines key_counter updated_flag].
    cbn [seq flat_map existsb]. rewrite Nat.sub_diag.
    f_equal.
    + lia.
    + rewrite <- app_assoc. do 2 f_equal.
      * unfold sites at 1. cbn [seq filter length]. now rewrite Nat.add_0_r.
      * rewrite !flat_map_concat_map. f_equal.
        apply map_ext_in. intros j Hj. apply in_seq in Hj. f_equal.
        replace (j - i st) with (S (j - S (i st))) by lia.
        rewrite (sites_S lines (i st) (j - S (i st))). lia.
    + rewrite (sites_S lines (i st) n). lia.
    + now rewrite orb_assoc.
Qed.

Lemma while_loop_emitted_all (lines : list text) updated :
  while_loop (length lines) lines (mk_state 0 [] 1 updated)
  = mk_state (length lines) (emitted_lines lines)
             (1 + sites lines 0 (length lines))
             (updated || existsb (rewrites lines) (seq 0 (length lines))).
Proof.
  rewrite while_loop_emitted by (cbn [i]; lia).
  cbn [i new_lines key_counter updated_flag app Nat.add]. f_equal.
  unfold emitted_lines. rewrite !flat_map_concat_map. f_equal.
  apply map_ext. intros j. now rewrite Nat.sub_0_r.
Qed.

(** ** [use] statements and the scan of [re.finditer] *)

Lemma not_semicolon_rejects (A : Type) (k : text -> option A) x t :
  not_semicolon x = true ->
  match strip_prefix ";" (x :: t) with Some t' => k t' | None => None end = None.
Proof.
  unfold not_semicolon. intros H. cbn [list_ascii_of_string strip_prefix].
  destruct (Ascii.eqb_spec ";" x) as [<-|]; [discriminate|reflexivity].
Qed.

Lemma match_at_use_intro body rest :
  all not_semicolon body -> body <> [] ->
  match_at use_pattern (use_stmt body ++ rest)
  = Some ([(1, use_stmt body)], rest).
Proof.
  intros Hb Hne. unfold match_at, use_pattern, use_stmt.
  cbn [rmatch]. rewrite <- !app_assoc. rewrite strip_prefix_app.
  rewrite plus_run; auto.
  - rewrite strip_prefix_app. repeat f_equal.
    apply firstn_suffix_eq. now rewrite <- !app_assoc.
  - reflexivity.
  - intros x t Hx. now apply not_semicolon_rejects.
Qed.

Lemma match_at_use_inv s caps rest :
  match_at use_pattern s = Some (caps, rest) ->
  exists body, s = use_stmt body ++ rest
               /\ all not_semicolon body /\ body <> []
               /\ caps = [(1, use_stmt body)].
Proof.
  unfold match_at, use_pattern, use_stmt. cbn [rmatch]. intros H.
  inv_lit H t1 E1.
  destruct t1 as [|x s1]; [discriminate H|].
  destruct (not_semicolon x) eqn:Hx; [|discriminate H].
  rewrite greedy_rejecting in H
    by (intros y t Hy; now apply not_semicolon_rejects).
  destruct (@run_split not_semicolon x s1 Hx) as (body & Es & Hb & Hne).
  inv_lit H t2 E2.
  injection H as <- <-.
  assert (Hs : s = ("use " ++ body ++ ";") ++ t2).
  { rewrite E1, Es, E2. now rewrite <- !app_assoc. }
  rewrite (@firstn_suffix_eq _ _ _ _ Hs).
  exists body. repeat split; auto.
Qed.

Lemma use_shorter s caps rest :
  match_at use_pattern s = Some (caps, rest) ->
  exists m, s = m ++ rest /\ m <> [].
Proof.
  intros H. apply match_at_use_inv in H as (body & -> & _).
  exists (use_stmt body). split; auto. discriminate.
Qed.

(** The text up to the first semicolon. *)
Lemma first_semicolon t :
  In ";"%char t ->
  exists body rest, t = body ++ ";" ++ rest /\ all not_semicolon body.
Proof.
  induction t as [|x t IH]; intros H; [destruct H|].
  destruct (Ascii.eqb_spec x ";") as [->|Hx].
  - exists [], t. split; [reflexivity|constructor].
  - destruct H as [H|H]; [congruence|].
    destruct (IH H) as (body & rest & -> & Hb).
    exists (x :: body), rest. split; [reflexivity|].
    constructor; auto. unfold not_semicolon.
    now destruct (Ascii.eqb_spec x ";").
Qed.

(** ** [re.finditer] *)

Section Finditer.
Variable r : regex.

Hypothesis shorter : forall s caps rest,
  match_at r s = Some (caps, rest) -> exists m, s = m ++ rest /\ m <> [].

Lemma shorter_nil : match_at r [] = None.
Proof.
  destruct (match_at r []) as [[caps rest]|] eqn:E; auto.
  apply shorter in E as (m & Hm & Hne). symmetry in Hm.
  apply app_eq_nil in Hm as [Hm _]. congruence.
Qed.

(** The scan finds no match in a text without one; otherwise its last
    offset is the end of a match after which no match starts. *)
Lemma finditer_last : forall fuel pos s,
  length s < fuel ->
  (finditer_aux fuel r pos s = [] /\ no_match r s)
  \/ (exists a m post caps,
        s = a ++ m ++ post
        /\ match_at r (m ++ post) = Some (caps, post)
        /\ no_match r post
        /\ finditer_aux fuel r pos s <> []
        /\ last (finditer_aux fuel r pos s) 0 = pos + length (a ++ m)).
Proof.
  induction fuel as [|fuel IH]; intros pos s Hlen; [lia|].
  cbn [finditer_aux].
  destruct (match_at r s) as [[caps rest]|] eqn:E.
  - destruct (shorter _ E) as (m & Hs & Hne). subst s.
    assert (Hlt : length rest < length (m ++ rest)).
    { rewrite length_app. destruct m; [congruence|simpl; lia]. }
    apply Nat.ltb_lt in Hlt as Hb. rewrite Hb. cbv zeta.
    replace (length (m ++ rest) - length rest) with (length m)
      by (rewrite length_app; lia).
    right.
    destruct (IH (pos + length m) rest ltac:(lia))
      as [(Hnil & Hnone)|(a & m' & post & caps' & Hr & Hm' & Hnone & Hne' & Hlast)].
    + exists [], m, rest, caps. rewrite Hnil. repeat split; auto. discriminate.
    + exists (m ++ a), m', post, caps'. repeat split; auto.
      * rewrite Hr. now rewrite <- !app_assoc.
      * discriminate.
      * destruct (finditer_aux fuel r (pos + length m) rest) eqn:Ef;
          [congruence|].
        cbn [last] in *. rewrite Hlast, !length_app. lia.
  - destruct s as [|x s].
    + left. split; auto. intros a b Hab. symmetry in Hab.
      apply app_eq_nil in Hab as [_ ->]. apply shorter_nil.
    + destruct (IH (S pos) s ltac:(simpl in Hlen; lia))
        as [(Hnil & Hnone)|(a & m' & post & caps' & Hr & Hm' & Hnone & Hne' & Hlast)].
      * left. split; auto. intros [|y a] b Hab; cbn [app] in Hab.
        -- now subst b.
        -- injection Hab as _ Hab. now apply (Hnone a).
      * right. exists (x :: a), m', post, caps'. repeat split; auto.
        -- now rewrite Hr.
        -- rewrite Hlast. cbn [app length]. lia.
Qed.
End Finditer.

(** ** The import augmenter *)

Lemma import_augmenter_inserts content updated :
  contains "use gun::" content = true ->
  contains "use chia_bls::" content = false ->
  ~ no_match use_pattern content ->
  exists before body after,
    content = before ++ use_stmt body ++ after
    /\ all not_semicolon body /\ body <> []
    /\ no_match use_pattern after
    /\ import_augmenter content updated
       = (before ++ use_stmt body ++ nl ++ import_line ++ after, true).
Proof.
  intros Hgun Hchia Hsome.
  destruct (@finditer_last use_pattern use_shorter (S (length content)) 0
              content (Nat.lt_succ_diag_r _))
    as [(_ & Hnone)|(a & m & post & caps & Hs & Hm & Hnone & Hne & Hlast)];
    [contradiction|].
  apply match_at_use_inv in Hm as (body & Hm & Hb & Hbne & _).
  apply app_inv_tail in Hm. subst m.
  exists a, body, post. repeat split; auto.
  unfold import_augmenter. rewrite Hgun, Hchia. cbn [orb negb].
  fold (finditer_ends use_pattern content) in Hne, Hlast.
  destruct (finditer_ends use_pattern content) as [|e ends] eqn:Ef;
    [congruence|].
  rewrite Hlast. cbn [Nat.add]. rewrite Hs.
  rewrite (app_assoc a), firstn_app, skipn_app, firstn_all, skipn_all, Nat.sub_diag.
  cbn [firstn skipn]. now rewrite app_nil_r, <- !app_assoc.
Qed.

Lemma use_gun_matches a b c :
  ~ no_match use_pattern (a ++ "use gun::" ++ b ++ ";" ++ c).
Proof.
  intros H.
  destruct (@first_semicolon (b ++ ";" ++ c)) as (body & rest & Hb & Hall).
  { apply in_or_app. right. now left. }
  specialize (H a ("use gun::" ++ b ++ ";" ++ c) eq_refl).
  change (list_ascii_of_string "use gun::")
    with (list_ascii_of_string "use " ++ list_ascii_of_string "gun::") in H.
  rewrite <- app_assoc, Hb in H.
  replace ("use " ++ "gun::" ++ body ++ ";" ++ rest)
    with (use_stmt ("gun::" ++ body) ++ rest) in H
    by (unfold use_stmt; now rewrite <- !app_assoc).
  rewrite match_at_use_intro in H; [discriminate| |discriminate].
  apply all_app. split; auto. now repeat constructor.
Qed.

Lemma import_line_absent content :
  contains "use chia_bls::" content = false ->
  contains import_line content = false.
Proof.
  intros H. destruct (contains import_line content) eqn:E; auto.
  apply import_line_has_prefix in E. congruence.
Qed.

Lemma import_line_inserted_once (before after : text) :
  contains import_line (before ++ after) = false ->
  occurrences import_line (before ++ nl ++ import_line ++ after) = 1.
Proof.
  intros H. apply contains_false_app in H as [Hb Ha].
  change (before ++ nl ++ import_line ++ after)
    with (before ++ newline :: import_line ++ after).
  rewrite occurrences_sep by (simpl; intuition discriminate).
  rewrite (occurrences_absent _ _ Hb). cbn [Nat.add].
  change import_line with ("u"%char :: tl import_line) at 2.
  cbn [app occurrences].
  change ("u"%char :: tl import_line ++ after) with (import_line ++ after).
  rewrite starts_with_app.
  rewrite (@occurrences_closed_free import_line import_line_stmt).
  - now rewrite (occurrences_absent _ _ Ha).
  - right. now exists (removelast (tl import_line)).
  - reflexivity.
Qed.

(** ** Texts with insertions *)

Lemma subseq_refl a : subseq a a.
Proof. induction a; [apply subseq_nil|now apply subseq_keep]. Qed.

Lemma subseq_nil_l b : subseq [] b.
Proof. induction b; [apply subseq_nil|now apply subseq_skip]. Qed.

Lemma subseq_app a b c d : subseq a b -> subseq c d -> subseq (a ++ c) (b ++ d).
Proof.
  intros Hab Hcd. induction Hab; cbn [app]; auto.
  - now apply subseq_skip.
  - now apply subseq_keep.
Qed.

Lemma subseq_trans a b c : subseq a b -> subseq b c -> subseq a c.
Proof.
  intros Hab Hbc. revert a Hab.
  induction Hbc as [|x b c Hbc IH|x b c Hbc IH]; intros a Hab; auto.
  - apply subseq_skip. auto.
  - inversion Hab; subst; [apply subseq_skip|apply subseq_keep]; auto.
Qed.

Lemma subseq_length a b : subseq a b -> length a <= length b.
Proof. induction 1; simpl; lia. Qed.

(** A text with insertions that is no longer is the same text. *)
Lemma subseq_same a b : subseq a b -> length b <= length a -> a = b.
Proof.
  induction 1 as [|x a b H IH|x a b H IH]; simpl; intros Hlen; auto.
  - apply subseq_length in H. lia.
  - f_equal. apply IH. lia.
Qed.

Lemma subseq_longer a b : subseq a b -> a <> b -> length a < length b.
Proof.
  intros H Hne. destruct (Nat.lt_ge_cases (length a) (length b)); auto.
  exfalso. apply Hne. now apply subseq_same.
Qed.

Lemma subseq_insert a x b : subseq (a ++ b) (a ++ x ++ b).
Proof.
  apply subseq_app; [apply subseq_refl|].
  rewrite <- (app_nil_l b) at 1. apply subseq_app;
    [apply subseq_nil_l|apply subseq_refl].
Qed.

Lemma subseq_tail x a b : subseq (x :: a) b -> subseq a b.
Proof.
  intros H. remember (x :: a) as xa eqn:E. revert x a E.
  induction H as [|y a' b H IH|y a' b H IH]; intros x a E; try discriminate.
  - apply subseq_skip. now apply (IH x).
  - injection E as -> ->. now apply subseq_skip.
Qed.

Lemma subseq_cons_inv x a b : subseq (x :: a) (x :: b) -> subseq a b.
Proof.
  intros H. inversion H; subst; auto. now apply subseq_tail with x.
Qed.

(** *** [re.sub] *)

Section Inserting.
Variables (r : regex) (tpl : template).

Hypothesis inserting : forall s caps rest,
  match_at r s = Some (caps, rest) ->
  length rest < length s
  /\ exists m, s = m ++ rest /\ subseq m (expand tpl caps).

Lemma sub_subseq : forall n t, length t <= n -> subseq t (sub r tpl t).
Proof.
  induction n as [|n IH]; intros t Hlen.
  - destruct t; [|simpl in Hlen; lia].
    destruct (match_at r []) as [[caps rest]|] eqn:E.
    + apply inserting in E as [E _]. simpl in E. lia.
    + rewrite sub_nil by assumption. apply subseq_nil.
  - destruct (match_at r t) as [[caps rest]|] eqn:E.
    + destruct (inserting _ E) as (Hlt & m & -> & Hm).
      rewrite (@sub_match r tpl _ caps rest E Hlt).
      apply subseq_app; auto. apply IH. rewrite length_app in Hlen, Hlt. lia.
    + destruct t as [|y t].
      * rewrite sub_nil by assumption. apply subseq_nil.
      * rewrite sub_skip by assumption. apply subseq_keep. apply IH.
        simpl in Hlen. lia.
Qed.
End Inserting.

Lemma block_subseq w g2 (final tail : text) :
  subseq final tail -> subseq (w ++ g2 ++ final) (block w g2 tail).
Proof.
  intros H. unfold block.
  apply subseq_app; [apply subseq_refl|].
  rewrite !app_assoc, <- (app_assoc _ g2).
  rewrite <- (app_nil_l (g2 ++ final)).
  apply subseq_app; [apply subseq_nil_l|].
  apply subseq_app; [apply subseq_refl|assumption].
Qed.

Lemma pattern_inserting s caps rest :
  match_at pattern s = Some (caps, rest) ->
  length rest < length s
  /\ exists m, s = m ++ rest /\ subseq m (expand replacement caps).
Proof.
  intros H. destruct (pattern_rewriter _ H) as (Hlt & _).
  split; auto.
  apply match_at_pattern_inv in H
    as (w & w2 & w3 & w4 & -> & Hw & Hne & Hw2 & Hne2 & Hw3 & Hw4 & ->).
  exists (w ++ bare_stmt w2 w3 w4 ++ "Gun::new();").
  split; [now rewrite <- !app_assoc|].
  rewrite expand_replacement. apply block_subseq.
  apply (subseq_insert "Gun::new(" "secret_key, public_key" ");").
Qed.

Lemma pattern2_inserting s caps rest :
  match_at pattern2 s = Some (caps, rest) ->
  length rest < length s
  /\ exists m, s = m ++ rest /\ subseq m (expand replacement2 caps).
Proof.
  intros H.
  destruct (@pattern2_rewriter final2 _ _ _ (or_intror eq_refl) H) as (Hlt & _).
  split; auto.
  apply match_at_pattern2_inv in H
    as (w & w2 & n & w3 & w4 & -> & Hw & Hne & Hw2 & Hne2 & Hn & Hnne
        & Hw3 & Hw4 & ->).
  exists (w ++ arc_stmt w2 n w3 w4 ++ "Gun::new());").
  split; [now rewrite <- !app_assoc|].
  rewrite expand_replacement2. apply block_subseq.
  apply (subseq_insert "Gun::new(" "secret_key, public_key" "));").
Qed.

Lemma no_arg_rewriter_subseq content updated :
  subseq content (fst (no_arg_rewriter content updated)).
Proof.
  rewrite no_arg_rewriter_fst.
  apply subseq_trans with (sub pattern replacement content).
  - apply (@sub_subseq pattern replacement pattern_inserting (length content)).
    auto.
  - apply (@sub_subseq pattern2 replacement2 pattern2_inserting
             (length (sub pattern replacement content))).
    auto.
Qed.

(** *** [str.replace] *)

Lemma replace_subseq old new :
  old <> [] -> subseq old new ->
  forall n s, length s <= n -> subseq s (replace old new s).
Proof.
  intros Hold Hsub. induction n as [|n IH]; intros s Hlen.
  - destruct s; [|simpl in Hlen; lia].
    rewrite replace_unfold by assumption. apply subseq_nil.
  - destruct s as [|y s].
    { rewrite replace_unfold by assumption. apply subseq_nil. }
    destruct (strip_prefix old (y :: s)) as [rest|] eqn:E.
    + apply strip_prefix_Some in E. rewrite E.
      rewrite replace_hit by assumption.
      apply subseq_app; auto. apply IH.
      apply (f_equal (@length ascii)) in E. rewrite length_app in E.
      destruct old; [congruence|]. simpl in E, Hlen. lia.
    + rewrite (@replace_skip old new y s Hold E). apply subseq_keep.
      apply IH. simpl in Hlen. lia.
Qed.

Lemma call_subseq k o : subseq (old_call o) (new_call k o).
Proof.
  unfold old_call, new_call.
  apply subseq_app; [apply subseq_refl|].
  rewrite !app_assoc, <- (app_assoc _ o).
  rewrite <- (app_nil_l (o ++ ")")).
  apply subseq_app; [apply subseq_nil_l|apply subseq_refl].
Qed.

Lemma call_replace_subseq k o s :
  subseq s (replace (old_call o) (new_call k o) s).
Proof.
  apply (@replace_subseq (old_call o) (new_call k o)) with (n := length s); auto.
  - discriminate.
  - apply call_subseq.
Qed.

(** *** The loop *)

Lemma broken_join ls : ls <> [] -> newline :: join nl ls = broken ls.
Proof.
  destruct ls as [|l ls]; [congruence|]. intros _.
  rewrite join_cons. reflexivity.
Qed.

Lemma broken_app a b : broken (a ++ b) = broken a ++ broken b.
Proof. apply flat_map_app. Qed.

Lemma emitted_subseq lines j k :
  subseq (newline :: nth j lines []) (broken (emitted lines j k)).
Proof.
  unfold emitted; cbv zeta. destruct (rewrites lines j).
  - unfold broken. cbn [flat_map]. rewrite app_nil_r.
    change (newline :: ?K ++ newline :: ?l) with ((newline :: K) ++ newline :: l).
    rewrite <- (app_nil_l (newline :: nth j lines [])).
    apply subseq_app; [apply subseq_nil_l|].
    apply subseq_keep. apply call_replace_subseq.
  - unfold broken. cbn [flat_map]. rewrite app_nil_r. apply subseq_refl.
Qed.

Lemma emitted_longer lines j k :
  rewrites lines j = true ->
  length (newline :: nth j lines []) < length (broken (emitted lines j k)).
Proof.
  intros H. unfold emitted; cbv zeta. rewrite H.
  unfold broken. cbn [flat_map]. rewrite app_nil_r.
  cbn [length]. rewrite length_app. cbn [length].
  assert (Hs := subseq_length
            (call_replace_subseq k (options_var (nth j lines []))
               (nth j lines []))).
  lia.
Qed.

Lemma map_nth_seq {A} (d : A) (l : list A) :
  map (fun j => nth j l d) (seq 0 (length l)) = l.
Proof.
  induction l as [|x l IH]; auto.
  cbn [length seq map nth]. f_equal.
  rewrite <- seq_shift, map_map. exact IH.
Qed.

Lemma emitted_all_subseq lines (kf : nat -> nat) js :
  subseq (broken (map (fun j => nth j lines []) js))
         (broken (flat_map (fun j => emitted lines j (kf j)) js)).
Proof.
  induction js as [|j js IH]; [apply subseq_nil|].
  cbn [map flat_map]. rewrite broken_app.
  change (broken (nth j lines [] :: ?l)) with ((newline :: nth j lines []) ++ broken l).
  apply subseq_app; auto. apply emitted_subseq.
Qed.

Lemma emitted_all_longer lines (kf : nat -> nat) js :
  existsb (rewrites lines) js = true ->
  length (broken (map (fun j => nth j lines []) js))
  < length (broken (flat_map (fun j => emitted lines j (kf j)) js)).
Proof.
  induction js as [|j js IH]; [discriminate|].
  cbn [existsb map flat_map]. rewrite broken_app.
  change (broken (nth j lines [] :: ?l)) with ((newline :: nth j lines []) ++ broken l).
  rewrite !length_app. intros H.
  assert (Hj := subseq_length (emitted_subseq lines j (kf j))).
  assert (Hjs := subseq_length (emitted_all_subseq lines kf js)).
  apply orb_true_iff in H as [H|H].
  - apply (emitted_longer lines j (kf j)) in H. lia.
  - apply IH in H. lia.
Qed.

(** ** The passes insert, and say so *)

Lemma differs_true a b : differs a b = true <-> a <> b.
Proof. unfold differs. rewrite negb_true_iff. apply text_eqb_neq. Qed.

Lemma differs_false a b : differs a b = false <-> a = b.
Proof. unfold differs. rewrite negb_false_iff. apply text_eqb_eq. Qed.

Lemma differs_refl a : differs a a = false.
Proof. now apply differs_false. Qed.

Lemma differs_longer a b : length b < length a -> differs a b = true.
Proof. intros H. apply differs_true. intros ->. lia. Qed.

(** *** The options rewriter as one pass *)

Lemma options_rewriter_emitted content updated :
  contains "Gun::with_options(" content = true ->
  let lines := split newline content in
  let flag := updated || existsb (rewrites lines) (seq 0 (length lines)) in
  options_rewriter content updated
  = (if flag then join nl (emitted_lines lines) else content, flag).
Proof.
  intros Hgate lines flag. unfold options_rewriter. rewrite Hgate. cbv zeta.
  fold lines. now rewrite while_loop_emitted_all.
Qed.

Lemma rewrites_copies lines j : rewrites lines j = false -> copies lines j.
Proof.
  intros H st <-. rewrite loop_body_emitted. unfold emitted, sites, copied.
  cbn [seq filter]. rewrite H. cbn [length].
  now rewrite Nat.add_0_r, orb_false_r.
Qed.

Lemma existsb_false {A} (f : A -> bool) l :
  existsb f l = false -> forall x, In x l -> f x = false.
Proof.
  intros H x Hx. destruct (f x) eqn:E; auto.
  rewrite <- H. symmetry. apply existsb_exists. now exists x.
Qed.

Lemma options_rewriter_settled content updated :
  existsb (rewrites (split newline content))
          (seq 0 (length (split newline content))) = false ->
  options_rewriter content updated = (content, updated).
Proof.
  intros H. apply options_rewriter_all_copied. intros j Hj.
  apply rewrites_copies. apply (existsb_false _ _ H). apply in_seq. lia.
Qed.

Lemma split_not_nil c s : split c s <> [].
Proof. destruct (split_cons c s) as (l & ls & ->). discriminate. Qed.

Lemma emitted_lines_subseq content :
  subseq content (join nl (emitted_lines (split newline content))).
Proof.
  set (lines := split newline content).
  assert (H := emitted_all_subseq lines (fun j => 1 + sites lines 0 j)
                 (seq 0 (length lines))).
  rewrite map_nth_seq in H. fold (emitted_lines lines) in H.
  rewrite <- broken_join in H by apply split_not_nil.
  unfold lines in H at 1. rewrite join_split in H.
  destruct (emitted_lines lines) as [|l ls] eqn:E.
  - apply subseq_length in H. cbn [broken flat_map length] in H. lia.
  - rewrite <- broken_join in H by discriminate.
    now apply subseq_cons_inv in H.
Qed.

Lemma emitted_lines_longer content :
  existsb (rewrites (split newline content))
          (seq 0 (length (split newline content))) = true ->
  length content < length (join nl (emitted_lines (split newline content))).
Proof.
  set (lines := split newline content). intros Hsite.
  assert (H := emitted_all_longer lines (fun j => 1 + sites lines 0 j)
                 (seq 0 (length lines)) Hsite).
  rewrite map_nth_seq in H. fold (emitted_lines lines) in H.
  rewrite <- broken_join in H by apply split_not_nil.
  unfold lines in H at 1. rewrite join_split in H.
  destruct (emitted_lines lines) as [|l ls] eqn:E.
  - cbn [broken flat_map length] in H. lia.
  - rewrite <- broken_join in H by discriminate. cbn [length] in H. lia.
Qed.

(** *** The three passes *)

Lemma import_augmenter_inserting : inserting_pass import_augmenter.
Proof.
  intros content updated. unfold import_augmenter.
  destruct (contains "use gun::" content || contains "use gun::" content);
    [|cbn [fst snd]; rewrite differs_refl, orb_false_r;
      split; [apply subseq_refl|reflexivity]].
  destruct (negb (contains "use chia_bls::" content));
    [|cbn [fst snd]; rewrite differs_refl, orb_false_r;
      split; [apply subseq_refl|reflexivity]].
  destruct (finditer_ends use_pattern content) as [|e ends];
    [cbn [fst snd]; rewrite differs_refl, orb_false_r;
     split; [apply subseq_refl|reflexivity]|].
  cbv zeta. cbn [fst snd]. split.
  - rewrite <- (firstn_skipn (last (e :: ends) 0) content) at 1.
    apply (subseq_insert _ (nl ++ import_line)).
  - rewrite differs_longer; [now rewrite orb_true_r|].
    rewrite <- (firstn_skipn (last (e :: ends) 0) content) at 1.
    rewrite !length_app. simpl. lia.
Qed.

Lemma no_arg_rewriter_inserting : inserting_pass no_arg_rewriter.
Proof.
  intros content updated. split; [apply no_arg_rewriter_subseq|].
  unfold no_arg_rewriter.
  destruct (contains "Gun::new()" content);
    [|cbn [fst snd]; now rewrite differs_refl, orb_false_r].
  cbv zeta.
  assert (H1 : subseq content (sub pattern replacement content)).
  { apply (@sub_subseq pattern replacement pattern_inserting (length content)).
    auto. }
  destruct (text_eqb (sub pattern replacement content) content) eqn:E1;
    cbn [negb].
  - apply text_eqb_eq in E1. rewrite E1 in *.
    fold (differs (sub pattern2 replacement2 content) content).
    destruct (differs (sub pattern2 replacement2 content) content) eqn:E2;
      cbn [fst snd].
    + now rewrite E2, orb_true_r.
    + now rewrite differs_refl, orb_false_r.
  - set (c1 := sub pattern replacement content) in *.
    assert (H2 : subseq c1 (sub pattern2 replacement2 c1)).
    { apply (@sub_subseq pattern2 replacement2 pattern2_inserting (length c1)).
      auto. }
    apply text_eqb_neq in E1.
    assert (Hlen := subseq_longer H1 (fun H => E1 (eq_sym H))).
    fold (differs (sub pattern2 replacement2 c1) c1).
    destruct (differs (sub pattern2 replacement2 c1) c1) eqn:E2; cbn [fst snd].
    + apply subseq_length in H2.
      rewrite differs_longer by lia. now rewrite orb_true_r.
    + rewrite differs_longer by lia. now rewrite orb_true_r.
Qed.

Lemma options_rewriter_inserting : inserting_pass options_rewriter.
Proof.
  intros content updated.
  destruct (contains "Gun::with_options(" content) eqn:Hgate.
  - rewrite options_rewriter_emitted by assumption. cbv zeta. cbn [fst snd].
    destruct (existsb (rewrites (split newline content))
                (seq 0 (length (split newline content)))) eqn:Hsite.
    + rewrite orb_true_r. split; [apply emitted_lines_subseq|].
      rewrite differs_longer; [now rewrite orb_true_r|].
      now apply emitted_lines_longer.
    + rewrite orb_false_r.
      assert (H := options_rewriter_settled content true Hsite).
      rewrite options_rewriter_emitted in H by assumption. cbv zeta in H.
      rewrite Hsite in H. cbn [orb] in H. injection H as H.
      destruct updated.
      * rewrite H, differs_refl. split; [apply subseq_refl|reflexivity].
      * rewrite differs_refl. split; [apply subseq_refl|reflexivity].
  - rewrite options_rewriter_gate by assumption. cbn [fst snd].
    rewrite differs_refl, orb_false_r. split; [apply subseq_refl|reflexivity].
Qed.

(** One inserting pass after the other. *)
Lemma inserting_pass_then pass1 pass2 :
  inserting_pass pass1 -> inserting_pass pass2 ->
  inserting_pass (fun content updated =>
                    let '(c, u) := pass1 content updated in pass2 c u).
Proof.
  intros H1 H2 content updated.
  destruct (H1 content updated) as (Hs1 & Hf1).
  destruct (pass1 content updated) as [c1 u1]. cbn [fst snd] in *.
  destruct (H2 c1 u1) as (Hs2 & Hf2).
  destruct (pass2 c1 u1) as [c2 u2]. cbn [fst snd] in *.
  split; [now apply subseq_trans with c1|].
  subst u1 u2. rewrite <- orb_assoc. f_equal.
  destruct (differs c2 content) eqn:E.
  - apply differs_true in E.
    destruct (differs c1 content) eqn:E1; auto. cbn [orb].
    apply differs_false in E1. subst c1. now apply differs_true.
  - apply differs_false in E. subst c2.
    assert (Hc : c1 = content).
    { symmetry. apply subseq_same; auto. now apply subseq_length. }
    subst c1. now rewrite differs_refl.
Qed.

Lemma transform_inserting content :
  subseq content (fst (transform content))
  /\ snd (transform content) = differs (fst (transform content)) content.
Proof.
  assert (H := inserting_pass_then
                 (inserting_pass_then import_augmenter_inserting
                    no_arg_rewriter_inserting)
                 options_rewriter_inserting content false).
  cbv beta in H. unfold transform.
  destruct (import_augmenter content false) as [c1 u1].
  destruct (no_arg_rewriter c1 u1) as [c2 u2].
  exact H.
Qed.

Lemma update_file_flag (fs : filesystem) file_path content :
  fs file_path = Some content ->
  update_file fs file_path
  = Some (if snd (transform content)
          then write_file fs file_path (fst (transform content)) else fs,
          snd (transform content)).
Proof.
  intros H. unfold update_file. rewrite H.
  destruct (transform_inserting content) as (_ & Hflag).
  destruct (transform content) as [c u]. cbn [fst snd] in *.
  fold (differs c content). rewrite <- Hflag. now destruct u.
Qed.

(** ** A second run of the options rewriter *)

(** *** Splitting and joining *)

Lemma split_sep c a b : split c (a ++ c :: b) = split c a ++ split c b.
Proof.
  induction a as [|x a IH]; cbn [app split].
  - now rewrite Ascii.eqb_refl.
  - destruct (Ascii.eqb x c); rewrite IH; [reflexivity|].
    destruct (split_cons c a) as (l & ls & ->). reflexivity.
Qed.

Lemma split_plain c t : ~ In c t -> split c t = [t].
Proof.
  induction t as [|x t IH]; intros H; auto. cbn [split].
  destruct (Ascii.eqb_spec x c) as [->|Hx].
  - exfalso. apply H. now left.
  - rewrite IH; auto. intros Hin. apply H. now right.
Qed.

Lemma split_join ls :
  ls <> [] -> split newline (join nl ls) = flat_map (split newline) ls.
Proof.
  induction ls as [|l ls IH]; [congruence|]. intros _.
  destruct ls as [|l' ls].
  - cbn [join flat_map]. now rewrite app_nil_r.
  - change (join nl (l :: l' :: ls)) with (l ++ newline :: join nl (l' :: ls)).
    rewrite split_sep, IH by discriminate. reflexivity.
Qed.

Lemma split_lines_plain c s : Forall (fun l => ~ In c l) (split c s).
Proof.
  induction s as [|x s IH]; cbn [split].
  - constructor; auto.
  - destruct (Ascii.eqb_spec x c) as [->|Hx].
    + constructor; auto.
    + destruct (split c s) as [|l ls]; [repeat constructor; simpl; tauto|].
      inversion IH as [|? ? Hl Hls]. subst. constructor; auto.
      intros [H|H]; auto.
Qed.

Lemma flat_map_flat_map {A B C} (f : B -> list C) (g : A -> list B) l :
  flat_map f (flat_map g l) = flat_map (fun x => flat_map f (g x)) l.
Proof.
  induction l as [|x l IH]; auto.
  cbn [flat_map]. now rewrite flat_map_app, IH.
Qed.

(** *** The characters of the emitted lines *)

Lemma replace_chars old new c :
  old <> [] ->
  forall n s, length s <= n ->
    In c (replace old new s) -> In c s \/ In c new.
Proof.
  intros Hold. induction n as [|n IH]; intros s Hlen.
  - destruct s; [|simpl in Hlen; lia].
    rewrite replace_unfold by assumption. now left.
  - destruct s as [|y s].
    { rewrite replace_unfold by assumption. now left. }
    destruct (strip_prefix old (y :: s)) as [rest|] eqn:E.
    + apply strip_prefix_Some in E. rewrite E.
      rewrite replace_hit by assumption. intros H.
      apply in_app_or in H as [H|H]; auto.
      apply IH in H as [H|H]; auto.
      * left. apply in_or_app. now right.
      * apply (f_equal (@length ascii)) in E. rewrite length_app in E.
        destruct old; [congruence|]. simpl in E, Hlen. lia.
    + rewrite (@replace_skip old new y s Hold E). intros [H|H].
      * left. now left.
      * apply IH in H as [H|H]; auto; [left; now right|simpl in Hlen; lia].
Qed.

Lemma uint_digits u c :
  In c (list_ascii_of_string (NilEmpty.string_of_uint u)) ->
  In c (list_ascii_of_string "0123456789").
Proof.
  induction u; simpl; intros H; try tauto;
    destruct H as [<-|H]; auto; simpl in *; tauto.
Qed.

Lemma str_digits k c :
  In c (str k) -> In c (list_ascii_of_string "0123456789").
Proof.
  unfold str, NilZero.string_of_uint.
  destruct (Nat.to_uint k); try apply uint_digits. simpl. tauto.
Qed.

(** A character that is no blank, no digit and not in the literals of
    the key-generation lines is not in them. *)
Ltac key_chars :=
  let Hin := fresh "Hin" in
  unfold secret_key_line, public_key_line, secret_key_name, public_key_name,
    new_call, indent_of;
  intros Hin;
  repeat (apply in_app_or in Hin as [Hin|Hin]);
  try solve [ apply repeat_spec in Hin; discriminate Hin
            | apply str_digits in Hin; simpl in Hin; intuition discriminate
            | match goal with
              | Hw : all ?cls ?w, Hi : In ?c ?w |- _ =>
                  unfold all in Hw; rewrite Forall_forall in Hw;
                  specialize (Hw _ Hi); discriminate Hw
              end
            | simpl in Hin; intuition discriminate ].

Lemma options_var_word line : all is_word (options_var line).
Proof.
  unfold options_var.
  destruct (search options_pattern line) as [[caps rest]|] eqn:E;
    [|constructor].
  apply search_options_caps in E as (o & -> & Ho). exact Ho.
Qed.

Lemma secret_key_line_plain line k :
  ~ In newline (secret_key_line (indent_of line) k).
Proof. unfold newline. key_chars. Qed.

Lemma public_key_line_plain line k :
  ~ In newline (public_key_line (indent_of line) k).
Proof. unfold newline. key_chars. Qed.

Lemma new_call_plain k o : all is_word o -> ~ In newline (new_call k o).
Proof. intros Ho. unfold newline. key_chars. Qed.

Lemma secret_key_line_call line k :
  contains "Gun::with_options(" (secret_key_line (indent_of line) k) = false.
Proof. apply contains_missing_char with "G"%char; [simpl; tauto|key_chars]. Qed.

Lemma public_key_line_call line k :
  contains "Gun::with_options(" (public_key_line (indent_of line) k) = false.
Proof. apply contains_missing_char with "G"%char; [simpl; tauto|key_chars]. Qed.

Lemma secret_key_line_key line k :
  contains "SecretKey::from_seed" (secret_key_line (indent_of line) k) = true.
Proof.
  apply contains_iff.
  exists (indent_of line ++ "let " ++ secret_key_name k ++ " = "),
         ("(&[" ++ str k ++ "u8; 32]);").
  unfold secret_key_line. now rewrite <- !app_assoc.
Qed.

Lemma old_call_not_nil o : old_call o <> [].
Proof. discriminate. Qed.

Lemma written_lines lines j :
  ~ In newline (nth j lines []) ->
  written lines j
  = let line := nth j lines [] in
    let k := 1 + sites lines 0 j in
    if rewrites lines j then
      [secret_key_line (indent_of line) k; public_key_line (indent_of line) k;
       replace (old_call (options_var line)) (new_call k (options_var line)) line]
    else [line].
Proof.
  intros Hline. unfold written, emitted; cbv zeta.
  destruct (rewrites lines j); cbn [flat_map].
  - rewrite rstrip_key_gen.
    change (?a ++ nl ++ ?b) with (a ++ newline :: b).
    rewrite split_sep, !split_plain, app_nil_r; auto.
    + intros H.
      apply (@replace_chars _ _ newline (@old_call_not_nil _)
               (length (nth j lines [])) _ (le_n _)) in H as [H|H]; auto.
      revert H. apply new_call_plain, options_var_word.
    + apply public_key_line_plain.
    + apply secret_key_line_plain.
  - now rewrite split_plain, app_nil_r.
Qed.

(** *** The key marker in a rewritten line *)

Lemma contains_app_r p a b : contains p b = true -> contains p (a ++ b) = true.
Proof.
  intros H. apply contains_elim in H as (u & v & ->).
  rewrite app_assoc. apply contains_intro.
Qed.

Section Kept.
Variables (M old new old' new' : text) (c0 : ascii).
Hypothesis M_not_nil : M <> [].
Hypothesis c0_foreign : ~ In c0 M.
Hypothesis old_shape : old = c0 :: old'.
Hypothesis new_shape : new = c0 :: new'.
Hypothesis old_free : forall z, contains M (old ++ z) = contains M z.

Lemma kept_old_not_nil : old <> [].
Proof. rewrite old_shape. discriminate. Qed.

Lemma starts_kept : forall n s x,
  length s <= n ->
  starts_with M (x ++ replace old new s) = starts_with M (x ++ s).
Proof.
  induction n as [|n IH]; intros s x Hlen.
  - destruct s; [|simpl in Hlen; lia].
    now rewrite (replace_unfold _ _ kept_old_not_nil).
  - destruct s as [|y s].
    { now rewrite (replace_unfold _ _ kept_old_not_nil). }
    destruct (strip_prefix old (y :: s)) as [rest|] eqn:E.
    + apply strip_prefix_Some in E. rewrite E.
      rewrite (replace_hit _ _ kept_old_not_nil).
      rewrite old_shape at 2. rewrite new_shape at 1. cbn [app].
      now rewrite !starts_with_sep.
    + rewrite (@replace_skip old new y s kept_old_not_nil E).
      change (x ++ y :: replace old new s) with (x ++ [y] ++ replace old new s).
      change (x ++ y :: s) with (x ++ [y] ++ s).
      rewrite !app_assoc. apply IH. simpl in Hlen. lia.
Qed.

Lemma contains_kept : forall n s,
  length s <= n ->
  contains M s = true -> contains M (replace old new s) = true.
Proof.
  induction n as [|n IH]; intros s Hlen H.
  - destruct s; [|simpl in Hlen; lia].
    now rewrite contains_nil_false in H.
  - destruct s as [|y s].
    { now rewrite contains_nil_false in H. }
    destruct (strip_prefix old (y :: s)) as [rest|] eqn:E.
    + apply strip_prefix_Some in E. rewrite E in *.
      rewrite (replace_hit _ _ kept_old_not_nil).
      apply contains_app_r. apply IH.
      * rewrite length_app, old_shape in Hlen. simpl in Hlen. lia.
      * now rewrite old_free in H.
    + rewrite (@replace_skip old new y s kept_old_not_nil E).
      rewrite contains_unfold in H. rewrite contains_unfold.
      apply orb_true_iff in H as [H|H].
      * change (y :: replace old new s) with ([y] ++ replace old new s).
        rewrite (@starts_kept (length s)) by auto. cbn [app].
        now rewrite H.
      * rewrite IH; auto; [apply orb_true_r|simpl in Hlen; lia].
Qed.
End Kept.

Lemma old_call_key_free o z :
  all is_word o ->
  contains "SecretKey::from_seed" (old_call o ++ z)
  = contains "SecretKey::from_seed" z.
Proof.
  intros Ho. unfold old_call. rewrite <- !app_assoc.
  change (list_ascii_of_string ")" ++ z) with (")"%char :: z).
  rewrite !app_assoc.
  rewrite contains_sep by (try discriminate; simpl; intuition discriminate).
  replace (contains "SecretKey::from_seed" ("Gun::with_options(" ++ o))
    with false; auto.
  symmetry.
  change (list_ascii_of_string "Gun::with_options(" ++ o)
    with (list_ascii_of_string "Gun::with_options" ++ "("%char :: o).
  rewrite contains_sep by (try discriminate; simpl; intuition discriminate).
  cbn [orb]. replace (contains "SecretKey::from_seed" "Gun::with_options")
    with false by reflexivity.
  cbn [orb].
  apply contains_missing_char with ":"%char; [simpl; tauto|]. not_in.
Qed.

Lemma key_marker_kept k o s :
  all is_word o ->
  contains "SecretKey::from_seed" s = true ->
  contains "SecretKey::from_seed" (replace (old_call o) (new_call k o) s) = true.
Proof.
  intros Ho H.
  apply (@contains_kept "SecretKey::from_seed" (old_call o) (new_call k o)
           (tl (old_call o)) (tl (new_call k o)) "G"%char)
    with (n := length s); auto.
  - discriminate.
  - simpl. intuition discriminate.
  - intros z. now apply old_call_key_free.
Qed.

(** *** The window *)

Lemma window_In P x T : length T < 5 -> In x (window (P ++ x :: T)).
Proof.
  intros H. unfold window. rewrite skipn_app.
  apply in_or_app. right.
  replace (length (P ++ x :: T) - 5 - length P) with 0
    by (rewrite length_app; simpl; lia).
  now left.
Qed.

Lemma lookback_window (L : list text) j :
  j <= length L -> lookback L j = join nl (window (firstn j L)).
Proof.
  intros H. unfold lookback, slice, window. f_equal.
  rewrite length_firstn, Nat.min_l by assumption.
  rewrite Nat.max_0_l, firstn_skipn_comm. do 2 f_equal. lia.
Qed.

Lemma rewrites_prefix (L : list text) j :
  j <= length L ->
  rewrites L j = rewrites_after (firstn j L) (nth j L []).
Proof.
  intros H. unfold rewrites, rewrites_after. now rewrite lookback_window.
Qed.

Lemma key_in_window prev x :
  In x (window prev) -> contains "SecretKey::from_seed" x = true ->
  contains "SecretKey::from_seed" (join nl (window prev)) = true.
Proof.
  intros Hin Hx.
  rewrite contains_join by (try discriminate; simpl; intuition discriminate).
  apply existsb_exists. now exists x.
Qed.

Lemma rewrites_after_key prev x T line :
  contains "SecretKey::from_seed" x = true -> length T < 5 ->
  rewrites_after (prev ++ x :: T) line = false.
Proof.
  intros Hx HT. unfold rewrites_after.
  rewrite (@key_in_window (prev ++ x :: T) x); auto.
  - cbn [negb]. now rewrite andb_false_r.
  - now apply window_In.
Qed.

Lemma rewrites_after_plain prev line :
  contains "Gun::with_options(" line = false ->
  rewrites_after prev line = false.
Proof. intros H. unfold rewrites_after. now rewrite H. Qed.

(** *** Settled lines *)

Lemma settled_app prev a b :
  settled prev (a ++ b) = settled prev a && settled (prev ++ a) b.
Proof.
  revert prev. induction a as [|x a IH]; intros prev.
  - now rewrite app_nil_r.
  - cbn [app settled]. rewrite IH, <- app_assoc. cbn [app].
    now rewrite andb_assoc.
Qed.

Lemma settled_rewrites : forall L prev j,
  settled prev L = true -> j < length L ->
  rewrites_after (prev ++ firstn j L) (nth j L []) = false.
Proof.
  induction L as [|x L IH]; intros prev j H Hj; [simpl in Hj; lia|].
  cbn [settled] in H. apply andb_true_iff in H as [Hx HL].
  destruct j as [|j].
  - cbn [firstn nth]. rewrite app_nil_r. now apply negb_true_iff.
  - cbn [firstn nth].
    change (prev ++ x :: firstn j L) with (prev ++ [x] ++ firstn j L).
    rewrite app_assoc. apply IH; auto. simpl in Hj. lia.
Qed.

Lemma settled_none L :
  settled [] L = true ->
  existsb (rewrites L) (seq 0 (length L)) = false.
Proof.
  intros H. destruct (existsb (rewrites L) (seq 0 (length L))) eqn:E; auto.
  apply existsb_exists in E as (j & Hj & Hr). apply in_seq in Hj.
  rewrite rewrites_prefix in Hr by lia.
  assert (Hs := @settled_rewrites L [] j H ltac:(lia)).
  cbn [app] in Hs. congruence.
Qed.

(** *** The written lines are settled *)

Lemma rewrites_false_cases lines j :
  rewrites lines j = false ->
  contains "Gun::with_options(" (nth j lines []) = false
  \/ search options_pattern (nth j lines []) = None
  \/ contains "SecretKey::from_seed" (lookback lines j) = true.
Proof.
  unfold rewrites. intros H.
  destruct (contains "Gun::with_options(" (nth j lines [])); auto.
  destruct (contains "SecretKey::from_seed" (lookback lines j)); auto.
  destruct (search options_pattern (nth j lines [])); auto; discriminate.
Qed.

Lemma rewrites_after_unmatched prev line :
  search options_pattern line = None -> rewrites_after prev line = false.
Proof.
  intros H. unfold rewrites_after. rewrite H. now rewrite andb_false_r.
Qed.

(** A line with a key-generation statement in the window of line [j]
    keeps line [j] from being rewritten. *)
Lemma rewrites_near_key lines m j :
  m < j -> j <= m + 5 -> m < length lines ->
  contains "SecretKey::from_seed" (nth m lines []) = true ->
  rewrites lines j = false.
Proof.
  intros Hm Hj Hlen Hkey. unfold rewrites.
  replace (contains "SecretKey::from_seed" (lookback lines j)) with true.
  - cbn [negb]. now rewrite andb_false_r.
  - symmetry. apply lookback_spec. exists m, (nth m lines []).
    repeat split; auto. now apply nth_error_nth'.
Qed.

Lemma written_settled (lines : list text) :
  Forall (fun l => ~ In newline l) lines ->
  forall j, j <= length lines ->
    settled [] (flat_map (written lines) (seq 0 j)) = true
    /\ forall m, m < j -> j <= m + 5 ->
         contains "SecretKey::from_seed" (nth m lines []) = true ->
         exists P x T,
           flat_map (written lines) (seq 0 j) = P ++ x :: T
           /\ contains "SecretKey::from_seed" x = true
           /\ length T < j - m.
Proof.
  intros Hplain. induction j as [|j IH]; intros Hlen.
  - split; [reflexivity|]. intros m Hm. lia.
  - destruct (IH ltac:(lia)) as (Hsettled & Hvisible). clear IH.
    rewrite seq_S, flat_map_app. cbn [Nat.add flat_map]. rewrite app_nil_r.
    set (O := flat_map (written lines) (seq 0 j)) in *.
    assert (Hline : ~ In newline (nth j lines [])).
    { rewrite Forall_forall in Hplain. apply Hplain, nth_In. lia. }
    rewrite (written_lines lines j Hline). cbv zeta.
    destruct (rewrites lines j) eqn:Hr.
    + (* line [j] was rewritten *)
      split.
      * rewrite settled_app, Hsettled. cbn [andb settled app].
        rewrite rewrites_after_plain by apply secret_key_line_call.
        rewrite rewrites_after_plain by apply public_key_line_call.
        cbn [negb andb]. rewrite <- app_assoc. cbn [app].
        rewrite (@rewrites_after_key O _ [_]);
          [reflexivity|apply secret_key_line_key|cbn [length]; lia].
      * intros m Hm Hj Hkey.
        destruct (Nat.eq_dec m j) as [->|Hne].
        -- eexists (O ++ [_; _]), _, []. rewrite <- app_assoc. cbn [app].
           split; [reflexivity|]. split; [|cbn [length]; lia].
           apply key_marker_kept; auto. apply options_var_word.
        -- rewrite (@rewrites_near_key lines m j) in Hr;
             auto; try lia; discriminate.
    + (* line [j] was copied *)
      split.
      * rewrite settled_app, Hsettled. cbn [andb settled].
        rewrite andb_true_r. apply negb_true_iff.
        destruct (rewrites_false_cases _ _ Hr) as [H|[H|H]].
        -- now apply rewrites_after_plain.
        -- now apply rewrites_after_unmatched.
        -- apply lookback_spec in H as (m & l & Hm & Hj & Hnth & Hl).
           apply nth_error_nth with (d := []) in Hnth as Hd. subst l.
           destruct (Hvisible m Hm Hj Hl) as (P & x & T & HO & Hx & HT).
           rewrite HO. apply rewrites_after_key; auto. lia.
      * intros m Hm Hj Hkey.
        destruct (Nat.eq_dec m j) as [->|Hne].
        -- exists O, (nth j lines []), []. repeat split; auto. cbn [length]. lia.
        -- destruct (Hvisible m ltac:(lia) ltac:(lia) Hkey)
             as (P & x & T & HO & Hx & HT).
           exists P, x, (T ++ [nth j lines []]). rewrite HO.
           rewrite <- app_assoc. cbn [app]. repeat split; auto.
           rewrite length_app. cbn [length]. lia.
Qed.

(** The lines of the text that the pass writes hold no line that a
    second run would rewrite. *)
Lemma emitted_lines_settled content :
  let written_text := join nl (emitted_lines (split newline content)) in
  existsb (rewrites (split newline written_text))
          (seq 0 (length (split newline written_text))) = false.
Proof.
  cbv zeta. set (lines := split newline content).
  assert (Hne : emitted_lines lines <> []).
  { unfold emitted_lines.
    destruct (split_cons newline content) as (l & ls & E).
    fold lines in E. rewrite E. cbn [length seq flat_map].
    unfold emitted at 1. cbv zeta. now destruct (rewrites (l :: ls) 0). }
  rewrite (split_join Hne). unfold emitted_lines.
  rewrite flat_map_flat_map. fold (written lines).
  change (fun x => flat_map (split newline)
                     (emitted lines x (1 + sites lines 0 x)))
    with (written lines).
  apply settled_none.
  apply (written_settled (split_lines_plain newline content) (le_n _)).
Qed.

(** ** Files and the loop over them *)

Lemma same_file_eq a b : same_file a b = true <-> a = b.
Proof.
  destruct a as [x|], b as [y|]; simpl; try (split; congruence).
  rewrite text_eqb_eq. split; congruence.
Qed.

Lemma same_file_refl a : same_file a a = true.
Proof. now apply same_file_eq. Qed.

(** **** [update_file] and the file system *)

Lemma update_file_cases (fs : filesystem) file_path :
  match fs file_path with
  | None => update_file fs file_path = None
  | Some content =>
      (update_file fs file_path = Some (fs, false))
      \/ (update_file fs file_path
          = Some (write_file fs file_path (fst (transform content)), true)
          /\ snd (transform content) = true
          /\ fst (transform content) <> content)
  end.
Proof.
  unfold update_file. destruct (fs file_path) as [content|]; auto.
  destruct (transform content) as [content' updated]. cbn [fst snd].
  destruct updated; cbn [andb]; auto.
  destruct (text_eqb content' content) eqn:E; cbn [negb]; auto.
  right. repeat split. now apply text_eqb_neq.
Qed.

Lemma write_file_other (fs : filesystem) p f content :
  f <> resolve fs p -> store (write_file fs p content) f = store fs f.
Proof.
  intros H. cbn [write_file store].
  destruct (String.eqb_spec f (resolve fs p)); congruence.
Qed.

Lemma write_file_same (fs : filesystem) p q content :
  resolve fs q = resolve fs p -> write_file fs p content q = Some content.
Proof.
  intros H. unfold read_file. cbn [write_file store resolve].
  now rewrite H, String.eqb_refl.
Qed.

(** Writing changes no name. *)
Lemma update_file_names (fs : filesystem) p fs' b :
  update_file fs p = Some (fs', b) -> resolve fs' = resolve fs.
Proof.
  intros H. assert (Hc := update_file_cases fs p).
  destruct (fs p) as [content|]; [|congruence].
  destruct Hc as [Hc|(Hc & _)]; rewrite Hc in H; now injection H as <- <-.
Qed.

Lemma update_file_frame (fs : filesystem) p fs' b f :
  update_file fs p = Some (fs', b) -> f <> resolve fs p ->
  store fs' f = store fs f.
Proof.
  intros H Hf. assert (Hc := update_file_cases fs p).
  destruct (fs p) as [content|]; [|congruence].
  destruct Hc as [Hc|(Hc & _)]; rewrite Hc in H; injection H as <- <-; auto.
  now apply write_file_other.
Qed.

Lemma update_file_store (fs : filesystem) p fs' b f :
  update_file fs p = Some (fs', b) -> store fs' f = None <-> store fs f = None.
Proof.
  intros H. assert (Hc := update_file_cases fs p).
  destruct (fs p) as [content|] eqn:Hp; [|congruence].
  destruct Hc as [Hc|(Hc & _)]; rewrite Hc in H; injection H as <- <-;
    [reflexivity|].
  destruct (String.eqb_spec f (resolve fs p)) as [->|Hf].
  - cbn [write_file store]. rewrite String.eqb_refl.
    unfold read_file in Hp. rewrite Hp. split; discriminate.
  - now rewrite write_file_other.
Qed.

Lemma update_file_domain (fs : filesystem) p fs' b q :
  update_file fs p = Some (fs', b) -> fs' q = None <-> fs q = None.
Proof.
  intros H. unfold read_file. rewrite (@update_file_names _ _ _ _ H).
  exact (@update_file_store _ _ _ _ (resolve fs q) H).
Qed.

Lemma update_file_opens (fs : filesystem) p :
  update_file fs p = None <-> fs p = None.
Proof.
  assert (Hc := update_file_cases fs p).
  destruct (fs p) as [content|]; [|tauto].
  split; [|discriminate]. destruct Hc as [Hc|(Hc & _)]; congruence.
Qed.

Lemma update_file_changed (fs : filesystem) p fs' b :
  update_file fs p = Some (fs', b) ->
  b = negb (same_file (fs p) (fs' p)).
Proof.
  intros H. assert (Hc := update_file_cases fs p).
  destruct (fs p) as [content|] eqn:Hp; [|congruence].
  destruct Hc as [Hc|(Hc & _ & Hne)]; rewrite Hc in H; injection H as <- <-.
  - now rewrite Hp, same_file_refl.
  - rewrite write_file_same by reflexivity. cbn [same_file].
    apply text_eqb_neq in Hne. symmetry.
    destruct (text_eqb content (fst (transform content))) eqn:E; auto.
    apply text_eqb_eq in E. apply text_eqb_neq in Hne. congruence.
Qed.

(** **** The loop over the files *)

Lemma update_all_names : forall paths w n,
  resolve (files (fst (update_all paths w n))) = resolve (files w).
Proof.
  induction paths as [|p paths IH]; intros w n; auto.
  cbn [update_all].
  destruct (update_file (files w) (path_str p)) as [[fs b]|] eqn:E; auto.
  destruct b; rewrite IH; cbn [files]; exact (@update_file_names _ _ _ _ E).
Qed.

Lemma file_of_names w w' :
  resolve (files w') = resolve (files w) -> forall p, file_of w' p = file_of w p.
Proof. intros H p. unfold file_of. now rewrite H. Qed.

Lemma update_all_frame f : forall paths w n,
  (forall p, In p paths -> file_of w p <> f) ->
  store (files (fst (update_all paths w n))) f = store (files w) f.
Proof.
  induction paths as [|p paths IH]; intros w n Hf; auto.
  cbn [update_all].
  destruct (update_file (files w) (path_str p)) as [[fs b]|] eqn:E; auto.
  assert (Hs : store fs f = store (files w) f).
  { apply (@update_file_frame _ _ _ _ _ E). intros ->. apply (Hf p); [now left|reflexivity]. }
  assert (Hn := @update_file_names _ _ _ _ E).
  destruct b; rewrite IH; auto; intros p' Hp';
    rewrite file_of_names with (w := w) by exact Hn; apply Hf; now right.
Qed.

Lemma update_all_store f : forall paths w n,
  store (files (fst (update_all paths w n))) f = None
  <-> store (files w) f = None.
Proof.
  induction paths as [|p paths IH]; intros w n; [reflexivity|].
  cbn [update_all].
  destruct (update_file (files w) (path_str p)) as [[fs b]|] eqn:E;
    [|reflexivity].
  destruct b; (etransitivity; [apply IH|]); cbn [files];
    exact (@update_file_store _ _ _ _ f E).
Qed.

Lemma update_all_domain q : forall paths w n,
  files (fst (update_all paths w n)) q = None <-> files w q = None.
Proof.
  intros paths w n. unfold read_file. rewrite update_all_names.
  apply update_all_store.
Qed.

Lemma update_all_returns : forall paths w n,
  snd (update_all paths w n) <> None
  <-> forall p, In p paths -> files w (path_str p) <> None.
Proof.
  induction paths as [|p paths IH]; intros w n.
  - cbn. split; [intros _ p []|discriminate].
  - cbn [update_all].
    destruct (update_file (files w) (path_str p)) as [[fs b]|] eqn:E.
    + assert (Hp : files w (path_str p) <> None).
      { intros H. apply update_file_opens in H. congruence. }
      assert (Hd : forall q, fs q = None <-> files w q = None).
      { intros q. exact (@update_file_domain _ _ _ _ q E). }
      assert (Hiff : (forall p', In p' paths -> fs (path_str p') <> None)
                     <-> (forall p', In p' (p :: paths) ->
                                     files w (path_str p') <> None)).
      { split.
        - intros H p' [<-|Hin]; auto. rewrite <- Hd. now apply H.
        - intros H p' Hin. rewrite Hd. apply H. now right. }
      destruct b; rewrite IH; exact Hiff.
    + apply update_file_opens in E. cbn [snd]. split; [congruence|].
      intros H. exfalso. apply (H p); auto. now left.
Qed.

Lemma update_all_app a b w n :
  update_all (a ++ b) w n
  = match update_all a w n with
    | (w', Some n') => update_all b w' n'
    | (w', None) => (w', None)
    end.
Proof.
  revert w n. induction a as [|p a IH]; intros w n; auto.
  cbn [app update_all].
  destruct (update_file (files w) (path_str p)) as [[fs [|]]|]; auto.
Qed.

Lemma filter_cons_rule {A} (f : A -> bool) x l :
  filter f (x :: l) = if f x then x :: filter f l else filter f l.
Proof. reflexivity. Qed.

Lemma update_all_count : forall paths w n w' n',
  NoDup (map (file_of w) paths) ->
  update_all paths w n = (w', Some n') ->
  stdout w'
  = stdout w ++ map (fun p => "Updated: " ++ path_str p)
                    (filter (changed w w') paths)
  /\ n' = n + length (filter (changed w w') paths).
Proof.
  induction paths as [|p paths IH]; intros w n w' n' Hnd H.
  - cbn in H. injection H as <- <-. cbn. now rewrite app_nil_r, Nat.add_0_r.
  - cbn [map] in Hnd. inversion Hnd as [|? ? Hnotin Hnd']. subst.
    cbn [update_all] in H.
    destruct (update_file (files w) (path_str p)) as [[fs b]|] eqn:E;
      [|discriminate].
    assert (Hb := @update_file_changed _ _ _ _ E).
    assert (Hn := @update_file_names _ _ _ _ E).
    assert (Hother : forall p', In p' paths -> file_of w p' <> file_of w p).
    { intros p' Hp' Heq. apply Hnotin. rewrite <- Heq. now apply in_map. }
    assert (Hrest : forall out n1,
              update_all paths (mk_world fs out) n1 = (w', Some n') ->
              changed w w' p = b
              /\ filter (changed w w') paths
                 = filter (changed (mk_world fs out) w') paths).
    { intros out n1 H1.
      assert (Hw' : w' = fst (update_all paths (mk_world fs out) n1))
        by now rewrite H1.
      split.
      - unfold changed. rewrite Hb. do 2 f_equal.
        unfold read_file. rewrite Hw', update_all_names. cbn [files].
        rewrite update_all_frame; [reflexivity|].
        intros p' Hp'. rewrite Hn.
        rewrite file_of_names with (w := w) by exact Hn. now apply Hother.
      - apply filter_ext_in. intros p' Hp'. unfold changed. cbn [files].
        do 2 f_equal. unfold read_file. rewrite Hn. symmetry.
        apply (@update_file_frame _ _ _ _ _ E). now apply Hother. }
    assert (Hnd1 : forall out, NoDup (map (file_of (mk_world fs out)) paths)).
    { intros out. erewrite map_ext; [exact Hnd'|].
      intros p'. now apply file_of_names. }
    destruct b; destruct (Hrest _ _ H) as (Hch & Hfilter);
      rewrite filter_cons_rule, Hch;
      apply IH in H as (Hout & Hn'); auto; cbn [stdout] in Hout.
    + cbn [map length]. rewrite Hfilter, Hout, <- app_assoc. split; auto. lia.
    + now rewrite Hfilter.
Qed.

(** **** Links

    Through a link [main] changes a file outside the two directories, and
    a file that two of the paths name is updated and reported once. *)
Lemma main_linked_world :
  let w' := world_of (main linked_glob linked_world) in
  files w' "src/demo.rs" = Some (fst (transform two_calls))
  /\ files w' "examples/b.rs" = Some (fst (transform bare_example))
  /\ stdout w'
     = [lit "Updated: examples/a.rs"; lit "Updated: examples/link.rs";
        nl ++ lit "Total files updated: 2"].
Proof. vm_compute. repeat split. Qed.

(** **** [sorted] *)

Lemma insert_perm x l : Permutation (insert x l) (x :: l).
Proof.
  induction l as [|y l IH]; cbn [insert]; auto.
  destruct (path_ltb y x); auto.
  apply perm_trans with (y :: x :: l); [now apply perm_skip|apply perm_swap].
Qed.

Lemma sorted_perm l : Permutation (sorted l) l.
Proof.
  induction l as [|x l IH]; cbn; auto.
  apply perm_trans with (x :: sorted l); [apply insert_perm|now apply perm_skip].
Qed.

Lemma sorted_In p l : In p (sorted l) <-> In p l.
Proof.
  split; apply Permutation_in; [|symmetry]; apply sorted_perm.
Qed.

Lemma globbed_files glob :
  flat_map glob ["examples/**/*.rs"; "tests/**/*.rs"] = globbed glob.
Proof. unfold globbed. cbn. now rewrite app_nil_r. Qed.

(** ** The names of the keys *)

Lemma list_ascii_of_string_inj (a b : string) :
  list_ascii_of_string a = list_ascii_of_string b -> a = b.
Proof.
  intros H. rewrite <- (string_of_list_ascii_of_string a),
              <- (string_of_list_ascii_of_string b). now rewrite H.
Qed.

Lemma to_uint_nonnil k : Nat.to_uint k <> Decimal.Nil.
Proof.
  intros H. assert (E := DecimalNat.Unsigned.to_of (Nat.to_uint k)).
  rewrite DecimalNat.Unsigned.of_to in E. rewrite E in H. exact (DecimalFacts.unorm_nonnil _ H).
Qed.

(** [str] gives different texts for different numbers. *)
Lemma str_inj k1 k2 : str k1 = str k2 -> k1 = k2.
Proof.
  unfold str. intros H. apply list_ascii_of_string_inj in H.
  apply (f_equal NilZero.uint_of_string) in H.
  rewrite !NilZero.usu in H by apply to_uint_nonnil.
  injection H as H. apply (f_equal Nat.of_uint) in H.
  now rewrite !DecimalNat.Unsigned.of_to in H.
Qed.

Lemma sites_before lines j1 j2 :
  j1 < j2 -> rewrites lines j1 = true ->
  sites lines 0 j1 < sites lines 0 j2.
Proof.
  intros Hlt Hr. replace j2 with (j1 + S (j2 - S j1)) by lia.
  assert (H1 : sites lines j1 1 = 1).
  { unfold sites. cbn [seq filter]. now rewrite Hr. }
  rewrite sites_add, sites_S. cbn [Nat.add]. rewrite H1. lia.
Qed.

Lemma while_loop_counter lines updated j :
  j <= length lines ->
  key_counter (while_loop j lines (mk_state 0 [] 1 updated))
  = 1 + sites lines 0 j.
Proof.
  intros H. rewrite while_loop_emitted by (cbn [i]; lia). reflexivity.
Qed.

(** ** Several calls on one line *)

(** A text whose last character is nowhere else around fits in one place
    only. *)
Lemma contains_last_char (c : ascii) (p0 u v : text) :
  ~ In c u -> ~ In c v ->
  contains (p0 ++ [c]) (u ++ c :: v) = true ->
  exists u1, u = u1 ++ p0.
Proof.
  intros Hu Hv H. apply contains_elim in H as (a & b & H).
  rewrite <- app_assoc in H. cbn [app] in H.
  rewrite app_assoc in H.
  apply app_eq_app in H as [l [[H1 H2]|[H1 H2]]].
  - destruct l as [|y l].
    + exists a. now rewrite app_nil_r in H1.
    + exfalso. cbn [app] in H2. injection H2 as <- _.
      apply Hu. rewrite H1. apply in_or_app. right. now left.
  - destruct l as [|y l].
    + exists a. now rewrite app_nil_r in H1.
    + exfalso. cbn [app] in H2. injection H2 as <- H2.
      apply Hv. rewrite H2. apply in_or_app. right. now left.
Qed.

Lemma replace_call_first (new p o s : text) :
  contains call_marker p = false ->
  replace (old_call o) new (p ++ old_call o ++ s)
  = p ++ new ++ replace (old_call o) new s.
Proof.
  intros Hp.
  assert (Hold : old_call o <> []) by discriminate.
  induction p as [|c p IH].
  - cbn [app]. now rewrite replace_hit.
  - cbn [app]. rewrite replace_skip; auto.
    + f_equal. apply IH. now apply (contains_false_suffix _ [c] p).
    + destruct (strip_prefix (old_call o) (c :: p ++ old_call o ++ s))
        as [r|] eqn:E; auto.
      exfalso. apply strip_prefix_Some in E.
      assert (H : starts_with call_marker
                    ((c :: p) ++ call_marker ++ (o ++ ")" ++ s)) = true).
      { cbn [app]. rewrite old_call_split in E. rewrite <- !app_assoc in E.
        rewrite E. apply starts_with_app. }
      rewrite call_marker_no_straddle in H;
        [discriminate|discriminate|assumption].
Qed.

(** The text of a call holds the call marker at its head only. *)
Lemma call_marker_once o t :
  all is_word o -> contains call_marker t = false ->
  contains call_marker (tl (old_call o) ++ t) = false.
Proof.
  intros Ho Ht.
  assert (E : tl (old_call o) ++ t
              = (list_ascii_of_string "un::with_options(" ++ o) ++ ")"%char :: t).
  { unfold old_call. cbn [list_ascii_of_string app tl].
    now rewrite <- app_assoc. }
  rewrite E. clear E.
  rewrite contains_sep, Ht, orb_false_r
    by (try discriminate; simpl; intuition discriminate).
  destruct (contains call_marker ("un::with_options(" ++ o)) eqn:E; auto.
  exfalso.
  change (list_ascii_of_string "un::with_options(" ++ o)
    with (list_ascii_of_string "un::with_options" ++ "("%char :: o) in E.
  apply (@contains_last_char "("%char "Gun::with_options") in E
    as [u1 Hu1].
  - apply (f_equal (@length ascii)) in Hu1. rewrite length_app in Hu1.
    simpl in Hu1. lia.
  - simpl. intuition discriminate.
  - not_in.
Qed.

Lemma other_call_absent (q o o' t : text) :
  all is_word o -> all is_word o' -> o <> o' ->
  contains call_marker q = false -> contains call_marker t = false ->
  contains (old_call o) (q ++ old_call o' ++ t) = false.
Proof.
  intros Ho Ho' Hne Hq Ht.
  destruct (contains (old_call o) (q ++ old_call o' ++ t)) eqn:E; auto.
  exfalso. apply contains_elim in E as (a & b & E).
  apply app_eq_app in E as [l [[H1 H2]|[H1 H2]]].
  - (* the call starts in [q] or with the other call *)
    destruct l as [|y l].
    + cbn [app] in H2. rewrite !old_call_split, <- !app_assoc in H2.
      apply app_inv_head in H2.
      apply (@run_unique is_word o o' (")" ++ b) (")" ++ t)) in H2
        as [H2 _]; auto; try reflexivity; try congruence.
    + assert (H : starts_with call_marker
                    ((y :: l) ++ call_marker ++ (o' ++ ")" ++ t)) = true).
      { rewrite !old_call_split, <- !app_assoc in H2.
        rewrite <- H2. apply starts_with_app. }
      rewrite call_marker_no_straddle in H; [discriminate|discriminate|].
      rewrite H1 in Hq. now apply contains_false_app in Hq.
  - (* or after the head of the other call *)
    destruct l as [|y l].
    + cbn [app] in H2. rewrite app_nil_r in H1. subst a.
      rewrite !old_call_split, <- !app_assoc in H2.
      apply app_inv_head in H2.
      apply (@run_unique is_word o' o (")" ++ t) (")" ++ b)) in H2
        as [H2 _]; auto; try reflexivity; try congruence.
    + assert (H : contains call_marker (tl (old_call o') ++ t) = true).
      { apply (f_equal (@tl ascii)) in H2.
        change (tl (old_call o') ++ t = l ++ old_call o ++ b) in H2.
        rewrite H2, old_call_split, <- !app_assoc. apply contains_intro. }
      now rewrite call_marker_once in H.
Qed.

Lemma loop_body_two_calls (lines : list text) st (p o q o' t : text) :
  nth (i st) lines [] = p ++ old_call o ++ q ++ old_call o' ++ t ->
  contains call_marker p = false -> contains call_marker q = false ->
  contains call_marker t = false ->
  all is_word o -> o <> [] -> all is_word o' ->
  contains key_marker (lookback lines (i st)) = false ->
  loop_body lines st
  = mk_state (S (i st))
      (new_lines st ++
         [rstrip (key_gen (indent_of (nth (i st) lines [])) (key_counter st));
          p ++ new_call (key_counter st) o ++ q
            ++ (if text_eqb o o' then new_call (key_counter st) o
                else old_call o') ++ t])
      (S (key_counter st)) true.
Proof.
  intros Hl Hp Hq Ht Ho Hne Ho' Hk.
  rewrite (@loop_body_rewrite lines st [(1, o)] (q ++ old_call o' ++ t)); auto.
  - unfold rewritten, indent_of. rewrite Hl. cbv zeta. cbn [group Nat.eqb].
    rewrite replace_call_first by assumption.
    destruct (text_eqb o o') eqn:E.
    + apply text_eqb_eq in E. subst o'. now rewrite replace_call_site.
    + apply text_eqb_neq in E.
      rewrite (@replace_absent (old_call o) _ (q ++ old_call o' ++ t));
        [reflexivity|discriminate|now apply other_call_absent].
  - rewrite Hl, old_call_split, <- !app_assoc. apply contains_intro.
  - rewrite Hl, old_call_split, <- !app_assoc. now apply search_options_site.
Qed.

(** ** The no-argument rewriter at a statement of one of the two shapes *)

(** A statement of one of the two shapes, with the white space [w] that
    stands before it, is replaced by its block; the text before and after
    is rewritten as it would be alone. *)
Lemma no_arg_rewriter_site_blocks
        (pre post w w2 n w3 w4 : text) (updated : bool) :
  stops is_space (rev pre) ->
  all is_space w -> w <> [] -> all is_space w2 -> w2 <> [] ->
  all is_word n -> n <> [] -> all is_space w3 -> all is_space w4 ->
  no_arg_rewriter
    (pre ++ (w ++ bare_stmt w2 w3 w4 ++ "Gun::new();") ++ post) updated
  = (fst (no_arg_rewriter pre updated)
       ++ block w (bare_stmt w2 w3 w4) "Gun::new(secret_key, public_key);"
       ++ fst (no_arg_rewriter post updated),
     true)
  /\ no_arg_rewriter
       (pre ++ (w ++ arc_stmt w2 n w3 w4 ++ "Gun::new());") ++ post) updated
     = (fst (no_arg_rewriter pre updated)
          ++ block w (arc_stmt w2 n w3 w4) "Gun::new(secret_key, public_key));"
          ++ fst (no_arg_rewriter post updated),
        true).
Proof.
  intros Hpre Hw Hne Hw2 Hne2 Hn Hnn Hw3 Hw4.
  rewrite !no_arg_rewriter_fst. split.
  - rewrite no_arg_rewriter_changed.
    + rewrite sub_bare_site by assumption.
      now rewrite sub_pattern2_over_block by assumption.
    + apply contains_iff.
      exists (pre ++ w ++ bare_stmt w2 w3 w4), (";" ++ post).
      now rewrite <- !app_assoc.
    + rewrite sub_bare_site by assumption.
      rewrite sub_pattern2_over_block by assumption.
      assert (H1 := rewrite_length pre). assert (H2 := rewrite_length post).
      assert (H3 := @block_longer w (bare_stmt w2 w3 w4) "Gun::new();"
                      "Gun::new(secret_key, public_key);" []
                      ltac:(simpl; lia)).
      rewrite !length_app in *. simpl in *. lia.
  - assert (Hpre' : stops is_space (rev (sub pattern replacement pre))).
    { now apply (@sub_keeps_end pattern final1 pattern_observer replacement
                   pattern_expansion). }
    rewrite no_arg_rewriter_changed.
    + rewrite sub_pattern_over_arc by assumption.
      now rewrite sub_arc_site by assumption.
    + apply contains_iff.
      exists (pre ++ w ++ arc_stmt w2 n w3 w4), (");" ++ post).
      now rewrite <- !app_assoc.
    + rewrite sub_pattern_over_arc by assumption.
      rewrite sub_arc_site by assumption.
      assert (H1 := rewrite_length pre). assert (H2 := rewrite_length post).
      assert (H3 := @block_longer w (arc_stmt w2 n w3 w4) "Gun::new());"
                      "Gun::new(secret_key, public_key));" []
                      ltac:(simpl; lia)).
      rewrite !length_app in *. simpl in *. lia.
Qed.

(** ** A literal that occurs once *)

Lemma occurrences_found (p a b : text) : 1 <= occurrences p (a ++ p ++ b).
Proof.
  induction a as [|x a IH].
  - cbn [app]. destruct (p ++ b) eqn:E; cbn [occurrences]; rewrite <- ?E;
      rewrite starts_with_app; lia.
  - cbn [app occurrences]. lia.
Qed.

Lemma occurrences_twice (p : text) : forall x y r r' : text,
  p <> [] -> x ++ p ++ r = y ++ p ++ r' -> x <> y ->
  2 <= occurrences p (x ++ p ++ r).
Proof.
  assert (Hhead : forall c y r r', p <> [] -> p ++ r = (c :: y) ++ p ++ r' ->
                  2 <= occurrences p (p ++ r)).
  { intros c y r r' Hp H. rewrite H at 1.
    cbn [app occurrences]. rewrite <- H at 1. rewrite starts_with_app.
    assert (H1 := occurrences_found p y r'). lia. }
  induction x as [|c x IH]; intros [|d y] r r' Hp H Hne.
  - congruence.
  - cbn [app] in *. now apply (Hhead d y r r').
  - rewrite H. cbn [app]. symmetry in H. now apply (Hhead c x r' r).
  - cbn [app] in H. injection H as -> H.
    cbn [app occurrences].
    assert (H2 : 2 <= occurrences p (x ++ p ++ r)).
    { apply (IH y r r'); auto. congruence. }
    lia.
Qed.

Lemma occurrences_once (p x y r r' : text) :
  p <> [] -> occurrences p (x ++ p ++ r) = 1 ->
  x ++ p ++ r = y ++ p ++ r' -> x = y /\ r = r'.
Proof.
  intros Hp H1 H.
  assert (Hxy : x = y).
  { destruct (list_eq_dec ascii_dec x y) as [E|E]; auto.
    assert (H2 := @occurrences_twice p x y r r' Hp H E). lia. }
  subst y. split; auto. now apply app_inv_head in H; apply app_inv_head in H.
Qed.

Lemma occurrences_run (p m b : text) :
  p <> [] -> Forall (fun c => ~ In c p) m ->
  occurrences p (m ++ b) = occurrences p b.
Proof.
  intros Hp Hm. induction Hm as [|c m Hc _ IH]; auto.
  change ((c :: m) ++ b) with ([] ++ c :: m ++ b).
  rewrite occurrences_sep, IH by assumption.
  destruct p; [congruence|reflexivity].
Qed.

(** ** The name in a binding *)

Lemma binding_name_unique (a b w2 w2' n n' w3 w3' w4 w4' : text) :
  all is_space w2 -> w2 <> [] -> all is_space w2' -> w2' <> [] ->
  all is_word n -> n <> [] -> all is_word n' -> n' <> [] ->
  all is_space w3 -> all is_space w3' -> all is_space w4 -> all is_space w4' ->
  a ++ w2 ++ n ++ w3 ++ "=" ++ w4 = b ++ w2' ++ n' ++ w3' ++ "=" ++ w4' ->
  n = n'.
Proof.
  intros Hw2 Hne2 Hw2' Hne2' Hn Hnn Hn' Hnn' Hw3 Hw3' Hw4 Hw4' H.
  apply (f_equal (@rev _)) in H.
  rewrite !rev_app_distr in H. cbn [rev list_ascii_of_string app] in H.
  rewrite <- ?app_assoc in H. cbn [app] in H.
  apply (@run_unique is_space) in H as [_ H];
    [|solve [now apply all_rev | reflexivity]..].
  injection H as H.
  apply (@run_unique is_space) in H as [_ H];
    [|solve [now apply all_rev
            | apply stops_rev_run with is_word;
              [exact word_not_space|assumption..]]..].
  apply (@run_unique is_word) in H as [H _];
    [|solve [now apply all_rev
            | apply stops_rev_run with is_space;
              [exact space_not_word|assumption..]]..].
  apply (f_equal (@rev _)) in H. now rewrite !rev_involutive in H.
Qed.

(** ** A binding of another name *)

Lemma zero_arg_call_no_space : no_space "Gun::new()".
Proof. repeat constructor. Qed.

Lemma zero_arg_call_once (pre w w2 name w3 w4 post : text) :
  contains "Gun::new()" pre = false -> contains "Gun::new()" post = false ->
  all is_space w -> w <> [] -> all is_space w2 -> all is_word name ->
  all is_space w3 -> all is_space w4 ->
  occurrences "Gun::new()"
    ((pre ++ w ++ "let" ++ w2 ++ name ++ w3 ++ "=" ++ w4)
       ++ "Gun::new()" ++ ";" ++ post) = 1.
Proof.
  intros Hpre Hpost Hw Hne Hw2 Hn Hw3 Hw4.
  destruct w as [|c w']; [congruence|].
  apply all_cons_inv in Hw as [Hc Hw'].
  assert (Hp : lit "Gun::new()" <> []) by discriminate.
  replace ((pre ++ (c :: w') ++ "let" ++ w2 ++ name ++ w3 ++ "=" ++ w4)
             ++ "Gun::new()" ++ ";" ++ post)
    with (pre ++ c :: w' ++ ("let" ++ w2 ++ name ++ w3)
            ++ "="%char :: w4 ++ "Gun::new()" ++ ";"%char :: post)
    by (rewrite <- !app_assoc; reflexivity).
  rewrite occurrences_sep, (occurrences_absent _ _ Hpre).
  2:{ intros Hin. simpl in Hin.
      repeat (destruct Hin as [<-|Hin]; [discriminate Hc|]). destruct Hin. }
  rewrite occurrences_run
    by (auto; apply space_run_sep; auto using zero_arg_call_no_space).
  rewrite occurrences_sep by (simpl; intuition discriminate).
  rewrite (@occurrences_absent _ ("let" ++ w2 ++ name ++ w3)).
  2:{ apply contains_missing_char with ":"%char; [simpl; auto|]. not_in. }
  rewrite occurrences_run
    by (auto; apply space_run_sep; auto using zero_arg_call_no_space).
  rewrite occurrences_sep by (simpl; intuition discriminate).
  rewrite (occurrences_absent _ _ Hpost). reflexivity.
Qed.

(** * The specified properties *)

(** ** Files the migration does not concern *)

(** C4. A file whose text has no call [Gun::new()], no call
    [Gun::with_options(], and no reference to the gun namespace without
    the key-pair import line, goes through the three passes unchanged:
    nothing is written (the file system is returned as it was) and
    [update_file] returns false. *)
Theorem update_file_untouched (fs : filesystem) (file_path : string)
        (content : text) :
  fs file_path = Some content ->
  contains "Gun::new()" content = false ->
  contains "Gun::with_options(" content = false ->
  (contains "use gun::" content = true ->
   contains import_line content = true) ->
  transform content = (content, false)
  /\ update_file fs file_path = Some (fs, false).
Proof.
  intros Hfs Hnew Hopt Himp.
  assert (Ht : transform content = (content, false)).
  { unfold transform.
    assert (Ha : import_augmenter content false = (content, false)).
    { destruct (contains "use gun::" content) eqn:Hgun.
      - apply import_augmenter_present, import_line_has_prefix. auto.
      - unfold import_augmenter. now rewrite Hgun. }
    rewrite Ha, no_arg_rewriter_gate by assumption.
    now apply options_rewriter_gate. }
  split; auto.
  unfold update_file. now rewrite Hfs, Ht.
Qed.

Lemma update_file_untouched_witness :
  update_file sample_fs "examples/keys.rs" = Some (sample_fs, false).
Proof.
  refine (proj2 (@update_file_untouched sample_fs "examples/keys.rs"
                   ("use gun::Gun;" ++ nl ++ import_line ++ nl ++ "fn main() {}")
                   _ _ _ _)); reflexivity.
Defined.

(** ** The scan of the options rewriter *)

(** C10. A line that holds [Gun::with_options(] but no match of the
    pattern of line 69 (the argument is not one bare identifier) is copied
    to the output as it is: nothing is put before it, the line is not
    rewritten, and neither the key counter nor the [updated] flag changes. *)
Theorem loop_body_unmatched_argument (lines : list text) (st : loop_state) :
  contains call_marker (nth (i st) lines []) = true ->
  search options_pattern (nth (i st) lines []) = None ->
  loop_body lines st
  = mk_state (S (i st)) (new_lines st ++ [nth (i st) lines []])
             (key_counter st) (updated_flag st).
Proof. intros _ H. now apply loop_body_unmatched. Qed.

Lemma loop_body_unmatched_argument_witness :
  loop_body [call_with_expression] (mk_state 0 [] 1 false)
  = mk_state 1 [call_with_expression] 1 false.
Proof.
  apply (@loop_body_unmatched_argument [call_with_expression]
           (mk_state 0 [] 1 false)); reflexivity.
Defined.

(** A text in which no line matches the pattern of line 69 leaves the
    options rewriter as it entered. *)
Lemma options_rewriter_unmatched content updated :
  (forall l, In l (split newline content) -> search options_pattern l = None) ->
  options_rewriter content updated = (content, updated).
Proof.
  intros H. apply options_rewriter_all_copied.
  intros j Hj st <-. apply loop_body_unmatched, H, nth_In, Hj.
Qed.




(** C9. The lookback window of line [i] is the five lines before it in
    the line list the pass started from.  A [SecretKey::from_seed] in one
    of them makes the loop copy the line, whatever that statement belongs
    to; when none of the five has one, occurrences further back do not
    count and a call with an identifier argument is rewritten; and the
    lines built so far take no part in the decision: the loop appends the
    same lines to whatever [new_lines] holds. *)
Theorem lookback_window_five_lines (lines : list text) (st : loop_state) :
  ((exists j l, j < i st /\ i st <= j + 5 /\ nth_error lines j = Some l
                /\ contains key_marker l = true) ->
   loop_body lines st = copied lines st)
  /\ ((forall j l, j < i st -> i st <= j + 5 -> nth_error lines j = Some l ->
                   contains key_marker l = false) ->
      contains call_marker (nth (i st) lines []) = true ->
      forall caps rest,
        search options_pattern (nth (i st) lines []) = Some (caps, rest) ->
        loop_body lines st = rewritten lines st (group 1 caps))
  /\ (forall built, exists out,
        new_lines (loop_body lines st) = new_lines st ++ out
        /\ new_lines (loop_body lines
                        (mk_state (i st) built (key_counter st) (updated_flag st)))
           = built ++ out).
Proof.
  repeat split.
  - intros H. apply loop_body_skip. now apply lookback_spec.
  - intros H Hc caps rest Hs. apply loop_body_rewrite with rest; auto.
    destruct (contains key_marker (lookback lines (i st))) eqn:E; auto.
    apply lookback_spec in E as (j & l & Hlt & Hle & Hj & Hl).
    rewrite (H j l Hlt Hle Hj) in Hl. discriminate.
  - intros built. unfold loop_body; cbv zeta.
    cbn [i new_lines key_counter updated_flag].
    destruct (_ && _); [destruct (search _ _) as [[caps rest]|]|];
      eexists; split; reflexivity.
Qed.

Lemma lookback_window_five_lines_witness :
  (* a statement five lines back suppresses the rewrite *)
  (let lines := migrated_key_line :: blank_lines 4 ++ [call_line] in
   loop_body lines (mk_state 5 (firstn 5 lines) 1 false)
   = mk_state 6 lines 1 false)
  /\ (* a statement six lines back does not *)
  (let lines := migrated_key_line :: blank_lines 5 ++ [call_line] in
   key_counter (loop_body lines (mk_state 6 (firstn 6 lines) 1 false)) = 2).
Proof.
  split; intros lines.
  - apply (proj1 (@lookback_window_five_lines lines
                    (mk_state 5 (firstn 5 lines) 1 false))).
    exists 0, migrated_key_line. cbn [i].
    repeat split; solve [lia | reflexivity].
  - rewrite (proj1 (proj2 (@lookback_window_five_lines lines
                    (mk_state 6 (firstn 6 lines) 1 false)))
               ltac:(intros [|[|[|[|[|[|j]]]]]] l; cbn [i]; intros;
                     solve [lia | now (injection H1 as <-)])
               eq_refl [(1, lit "options")] (lit ".await;") eq_refl).
    reflexivity.
Defined.

(** C2. Two lines [l1] and [l2] of a text, one after the other (the lines
    [mid] between them, if any, hold no call), each with one call
    [Gun::with_options(o)] on an identifier [o], no call before them, and
    no [SecretKey::from_seed] in the five lines before either.  After the
    second line the key counter, which started at 1, is 3; the output has,
    before the first line, [let secret_key1 = SecretKey::from_seed(&[1u8; 32]);]
    and [let public_key1 = secret_key1.public_key();], before the second
    the same with [2], and both calls take the two key names ahead of the
    options argument. *)
Theorem options_rewriter_two_calls
        (content : text) (updated : bool) (pre mid post : list text)
        (p1 o1 s1 p2 o2 s2 : text) :
  let l1 := p1 ++ ("Gun::with_options(" ++ o1 ++ ")") ++ s1 in
  let l2 := p2 ++ ("Gun::with_options(" ++ o2 ++ ")") ++ s2 in
  let lines := pre ++ l1 :: mid ++ l2 :: post in
  split newline content = lines ->
  (forall l, In l (pre ++ mid) -> contains "Gun::with_options(" l = false) ->
  contains "Gun::with_options(" p1 = false ->
  contains "Gun::with_options(" s1 = false ->
  all is_word o1 -> o1 <> [] ->
  contains "Gun::with_options(" p2 = false ->
  contains "Gun::with_options(" s2 = false ->
  all is_word o2 -> o2 <> [] ->
  contains "SecretKey::from_seed" (lookback lines (length pre)) = false ->
  contains "SecretKey::from_seed"
           (lookback lines (length pre + 1 + length mid)) = false ->
  key_counter (while_loop (length pre + 1 + length mid + 1) lines
                          (mk_state 0 [] 1 updated)) = 3
  /\ exists tail,
      options_rewriter content updated
      = (join nl
           (pre ++
            [indent_of l1 ++ "let secret_key1 = SecretKey::from_seed(&[1u8; 32]);";
             indent_of l1 ++ "let public_key1 = secret_key1.public_key();";
             p1 ++ ("Gun::with_options(secret_key1, public_key1, " ++ o1 ++ ")")
                ++ s1]
            ++ mid ++
            [indent_of l2 ++ "let secret_key2 = SecretKey::from_seed(&[2u8; 32]);";
             indent_of l2 ++ "let public_key2 = secret_key2.public_key();";
             p2 ++ ("Gun::with_options(secret_key2, public_key2, " ++ o2 ++ ")")
                ++ s2]
            ++ tail),
         true).
Proof.
  intros l1 l2 lines Hsplit Hplain Hp1 Hs1 Ho1 Hne1 Hp2 Hs2 Ho2 Hne2 Hk1 Hk2.
  split.
  - replace (length pre + 1 + length mid + 1)
      with (length pre + (1 + (length mid + 1))) by lia.
    unfold lines, l1, l2.
    now rewrite (@two_calls_loop pre mid post p1 o1 s1 p2 o2 s2).
  - exact (@two_calls_pass pre mid post p1 o1 s1 p2 o2 s2
             Hplain Hp1 Hs1 Ho1 Hne1 Hp2 Hs2 Ho2 Hne2 Hk1 Hk2
             content updated Hsplit).
Qed.

Lemma options_rewriter_two_calls_witness :
  exists tail,
    options_rewriter two_calls false
    = (join nl
         ([lit "    let secret_key1 = SecretKey::from_seed(&[1u8; 32]);";
           lit "    let public_key1 = secret_key1.public_key();";
           lit "    let gun1 = Gun::with_options(secret_key1, public_key1, options).await;";
           lit "    let secret_key2 = SecretKey::from_seed(&[2u8; 32]);";
           lit "    let public_key2 = secret_key2.public_key();";
           lit "    let gun2 = Gun::with_options(secret_key2, public_key2, options).await;"]
          ++ tail),
       true).
Proof.
  refine (proj2 (@options_rewriter_two_calls two_calls false [] [] []
                   (lit "    let gun1 = ") (lit "options") (lit ".await;")
                   (lit "    let gun2 = ") (lit "options") (lit ".await;")
                   eq_refl _ eq_refl eq_refl _ _ eq_refl eq_refl _ _
                   eq_refl eq_refl));
    try discriminate; try (repeat constructor); now intros l [].
Defined.

(** ** The no-argument rewriter run twice *)

(** C3. A second run of the no-argument rewriter on what the first run
    returned changes nothing: the text the first run returns has no match
    of either pattern left (a rewritten call [Gun::new(secret_key,
    public_key)] is no zero-argument call), so the second run returns the
    same text and the same flag, and no call site gets a second
    key-generation block. *)
Theorem no_arg_rewriter_idempotent (content : text) (updated : bool) :
  let once := no_arg_rewriter content updated in
  no_match pattern (fst once) /\ no_match pattern2 (fst once)
  /\ no_arg_rewriter (fst once) (snd once) = once.
Proof.
  intros once.
  assert (H : no_match pattern (fst once) /\ no_match pattern2 (fst once)).
  { destruct (contains "Gun::new()" content) eqn:Hgate.
    - unfold once. rewrite no_arg_rewriter_content by assumption. split.
      + apply sub_pattern2_keeps, sub_pattern_fixed.
      + apply sub_pattern2_fixed.
    - unfold once. rewrite no_arg_rewriter_gate by assumption.
      now apply no_match_without_call. }
  destruct H as [H1 H2]. repeat split; auto.
  rewrite no_arg_rewriter_settled by assumption. now destruct once.
Qed.

(** ** The call sites of the no-argument rewriter *)

(** C6. The no-argument rewriter does not rewrite a bare binding whatever
    the name of the variable: a statement [let NAME = Gun::new();] whose
    name is an identifier other than [gun], in a text with no other call
    [Gun::new()], is left as it is and the flag is not raised.  The same
    binding around [Arc::new(...)] is rewritten: there the pattern takes
    any identifier. *)
Theorem no_arg_rewriter_bare_name
        (pre post w w2 name w3 w4 : text) (updated : bool) :
  contains "Gun::new()" pre = false -> contains "Gun::new()" post = false ->
  stops is_space (rev pre) ->
  all is_space w -> w <> [] -> all is_space w2 -> w2 <> [] ->
  all is_word name -> name <> [] -> name <> "gun" ->
  all is_space w3 -> all is_space w4 ->
  let binding := "let" ++ w2 ++ name ++ w3 ++ "=" ++ w4 in
  no_arg_rewriter (pre ++ w ++ binding ++ "Gun::new();" ++ post) updated
  = (pre ++ w ++ binding ++ "Gun::new();" ++ post, updated)
  /\ no_arg_rewriter
       (pre ++ w ++ binding ++ "Arc::new(Gun::new());" ++ post) updated
     = (pre ++ block w (binding ++ "Arc::new(")
                  "Gun::new(secret_key, public_key));" ++ post,
        true).
Proof.
  intros Hpre Hpost Hstop Hw Hne Hw2 Hne2 Hn Hnn Hgun Hw3 Hw4 binding.
  split.
  - assert (Hone := @zero_arg_call_once pre w w2 name w3 w4 post Hpre Hpost
                      Hw Hne Hw2 Hn Hw3 Hw4).
    assert (Hshape : pre ++ w ++ binding ++ "Gun::new();" ++ post
                     = (pre ++ w ++ "let" ++ w2 ++ name ++ w3 ++ "=" ++ w4)
                         ++ "Gun::new()" ++ ";" ++ post).
    { unfold binding. rewrite <- !app_assoc. reflexivity. }
    apply no_arg_rewriter_settled.
    + intros a b Hab.
      destruct (match_at pattern b) as [[caps rest]|] eqn:E; auto. exfalso.
      apply match_at_pattern_inv in E
        as (w' & v2 & v3 & v4 & -> & Hw' & _ & Hv2 & Hnv2 & Hv3 & Hv4 & _).
      rewrite Hshape in Hab.
      replace (a ++ w' ++ bare_stmt v2 v3 v4 ++ "Gun::new();" ++ rest)
        with ((a ++ w' ++ "let" ++ v2 ++ "gun" ++ v3 ++ "=" ++ v4)
                ++ "Gun::new()" ++ ";" ++ rest) in Hab
        by (unfold bare_stmt; rewrite <- !app_assoc; reflexivity).
      apply occurrences_once in Hab as [Hab _]; [|discriminate|exact Hone].
      rewrite (app_assoc pre), (app_assoc (pre ++ w)), (app_assoc a),
        (app_assoc (a ++ w')) in Hab.
      apply binding_name_unique in Hab; auto; try discriminate.
      now repeat constructor.
    + intros a b Hab.
      destruct (match_at pattern2 b) as [[caps rest]|] eqn:E; auto. exfalso.
      apply match_at_pattern2_inv in E
        as (w' & v2 & n' & v3 & v4 & -> & _).
      rewrite Hshape in Hab.
      replace (a ++ w' ++ arc_stmt v2 n' v3 v4 ++ "Gun::new());" ++ rest)
        with ((a ++ w' ++ arc_stmt v2 n' v3 v4)
                ++ "Gun::new()" ++ ");" ++ rest) in Hab
        by (rewrite <- !app_assoc; reflexivity).
      apply occurrences_once in Hab as [_ Hab]; [|discriminate|exact Hone].
      discriminate.
  - destruct (@no_arg_rewriter_site_blocks pre post w w2 name w3 w4 updated)
      as [_ H]; auto.
    rewrite (@no_arg_rewriter_gate pre updated Hpre),
      (@no_arg_rewriter_gate post updated Hpost) in H.
    cbn [fst] in H.
    replace (binding ++ "Arc::new(") with (arc_stmt w2 name w3 w4)
      by (unfold binding, arc_stmt; rewrite <- !app_assoc; reflexivity).
    rewrite <- H. f_equal.
    unfold binding, arc_stmt. rewrite <- !app_assoc. reflexivity.
Qed.

Lemma no_arg_rewriter_bare_name_witness :
  no_arg_rewriter
    ("fn main() {" ++ nl ++ "    let db = Gun::new();" ++ nl ++ "}") false
  = ("fn main() {" ++ nl ++ "    let db = Gun::new();" ++ nl ++ "}", false)
  /\ no_arg_rewriter
       ("fn main() {" ++ nl ++ "    let db = Arc::new(Gun::new());" ++ nl
          ++ "}") false
     = ("fn main() {" ++ nl
          ++ "    // Generate BLS key pair" ++ nl ++ nl
          ++ "    let secret_key = SecretKey::from_seed(&[0u8; 32]);" ++ nl ++ nl
          ++ "    let public_key = secret_key.public_key();" ++ nl ++ nl
          ++ "    let db = Arc::new(Gun::new(secret_key, public_key));"
          ++ nl ++ "}",
        true).
Proof.
  assert (H := @no_arg_rewriter_bare_name
                  (lit "fn main() {") (nl ++ lit "}") (nl ++ lit "    ")
                  (lit " ") (lit "db") (lit " ") (lit " ") false).
  repeat match type of H with
         | ?A -> _ =>
             let h := fresh in
             assert (h : A)
               by first [discriminate | reflexivity | now repeat constructor];
             specialize (H h); clear h
         end.
  cbv zeta in H. destruct H as [H1 H2].
  split; [revert H1 | revert H2]; clear; vm_compute; exact (fun H => H).
Defined.

(** ** The canonical example *)

(** C1, on the code.  The three passes on a file with an import block and
    the statement [let gun = Gun::new();] on a line of its own: group 1 of
    the pattern takes the line break before the indentation with it, so
    every inserted piece starts with that line break and the template's own
    line breaks leave an empty line after the comment, after the secret-key
    line and after the public-key line.  The public-key line is the second
    line after the secret-key line, not the next one. *)
Theorem bare_example_lines :
  split newline (fst (transform bare_example))
  = [lit "use gun::Gun;";
     lit "use chia_bls::{SecretKey, PublicKey};";
     lit "";
     lit "fn main() {";
     lit "    // Generate BLS key pair";
     lit "";
     lit "    let secret_key = SecretKey::from_seed(&[0u8; 32]);";
     lit "";
     lit "    let public_key = secret_key.public_key();";
     lit "";
     lit "    let gun = Gun::new(secret_key, public_key);";
     lit "}"].
Proof. vm_compute. reflexivity. Qed.

(** ** The import line *)

(** C5. A file whose text holds the key-pair import line goes through the
    import augmenter as it is, and the file that [update_file] leaves has
    as many occurrences of the import line as it had: one stays one. *)
Theorem import_line_not_duplicated (fs : filesystem) (file_path : string)
        (content : text) (updated : bool) :
  fs file_path = Some content ->
  contains import_line content = true ->
  import_augmenter content updated = (content, updated)
  /\ exists fs' changed content',
       update_file fs file_path = Some (fs', changed)
       /\ fs' file_path = Some content'
       /\ occurrences import_line content' = occurrences import_line content.
Proof.
  intros Hfile H. split.
  - now apply import_augmenter_present, import_line_has_prefix.
  - unfold update_file. rewrite Hfile.
    assert (Ht := transform_import _ H).
    destruct (transform content) as [content' updated'].
    destruct (updated' && negb (text_eqb content' content)).
    + exists (write_file fs file_path content'), true, content'.
      repeat split; auto. now apply write_file_same.
    + exists fs, false, content. now repeat split.
Qed.

Lemma import_line_not_duplicated_witness :
  import_augmenter migrated_example false = (migrated_example, false)
  /\ exists fs' changed content',
       update_file migrated_fs "examples/basic.rs" = Some (fs', changed)
       /\ fs' "examples/basic.rs" = Some content'
       /\ occurrences import_line content'
          = occurrences import_line migrated_example.
Proof.
  apply (@import_line_not_duplicated migrated_fs "examples/basic.rs"
           migrated_example false); reflexivity.
Defined.

(** * Further properties of the script *)

(** ** The import augmenter *)

(** X1. In a text with a statement [use gun::...;] and without
    [use chia_bls::], the augmenter raises the flag and puts a line break
    and the import line right after the semicolon of a [use ...;]
    statement; the rest of the text stays as it is, and no [use ...;]
    statement starts after the place of the insertion. *)
Theorem import_after_last_use (content a b c : text) (updated : bool) :
  content = a ++ "use gun::" ++ b ++ ";" ++ c ->
  contains "use chia_bls::" content = false ->
  exists before body after,
    content = before ++ use_stmt body ++ after
    /\ all not_semicolon body /\ body <> []
    /\ no_match use_pattern after
    /\ import_augmenter content updated
       = (before ++ use_stmt body ++ nl ++ import_line ++ after, true).
Proof.
  intros Hc Hchia. apply import_augmenter_inserts; auto.
  - rewrite Hc. apply contains_intro.
  - rewrite Hc. apply use_gun_matches.
Qed.

Lemma import_after_last_use_witness :
  exists before body after,
    imports_example = before ++ use_stmt body ++ after
    /\ all not_semicolon body /\ body <> []
    /\ no_match use_pattern after
    /\ import_augmenter imports_example false
       = (before ++ use_stmt body ++ nl ++ import_line ++ after, true).
Proof.
  apply (@import_after_last_use imports_example [] "Gun"
           (nl ++ "use std::sync::Arc;" ++ nl ++ nl ++ "fn main() {}") false);
    reflexivity.
Defined.

(** X2. The import augmenter applied to its own result inserts nothing:
    the text comes back as it is, and so does the flag. *)
Theorem import_augmenter_idempotent (content : text) (updated updated' : bool) :
  import_augmenter (fst (import_augmenter content updated)) updated'
  = (fst (import_augmenter content updated), updated').
Proof.
  unfold import_augmenter at 2 3.
  destruct (contains "use gun::" content || contains "use gun::" content) eqn:Hgun;
    cbn [fst].
  - destruct (contains "use chia_bls::" content) eqn:Hchia; cbn [negb fst].
    + now apply import_augmenter_present.
    + destruct (finditer_ends use_pattern content) eqn:Ef; cbn [fst].
      * unfold import_augmenter. now rewrite Hgun, Hchia, Ef.
      * apply import_augmenter_present, import_line_has_prefix.
        rewrite app_assoc. apply contains_intro.
  - unfold import_augmenter. now rewrite Hgun.
Qed.

(** X3. The text that the three passes return holds the import line as
    often as the text read, and once more when the import augmenter has
    inserted it; it has inserted it only into a text without one. *)
Theorem import_line_count (content : text) :
  occurrences import_line (fst (transform content))
  = occurrences import_line content
    + (if snd (import_augmenter content false) then 1 else 0)
  /\ (snd (import_augmenter content false) = true ->
      occurrences import_line content = 0).
Proof.
  unfold transform.
  destruct (import_augmenter content false) as [c1 u1] eqn:E1.
  destruct (no_arg_rewriter c1 u1) as [c2 u2] eqn:E2.
  rewrite options_rewriter_import.
  change c2 with (fst (c2, u2)). rewrite <- E2, no_arg_rewriter_import.
  cbn [snd]. unfold import_augmenter in E1.
  destruct (contains "use gun::" content || contains "use gun::" content);
    [|injection E1 as <- <-; split; [lia|discriminate]].
  destruct (contains "use chia_bls::" content) eqn:Hchia; cbn [negb] in E1;
    [injection E1 as <- <-; split; [lia|discriminate]|].
  destruct (finditer_ends use_pattern content) as [|e ends];
    [injection E1 as <- <-; split; [lia|discriminate]|].
  injection E1 as <- <-.
  assert (H0 : occurrences import_line content = 0).
  { apply occurrences_absent. now apply import_line_absent. }
  split; auto. rewrite H0.
  apply import_line_inserted_once. rewrite firstn_skipn.
  now apply import_line_absent.
Qed.

(** ** The passes together *)

(** X4. Each pass only inserts text, and so do the three passes in a
    row: the text that goes in is the text that comes out with some
    characters left out. *)
Theorem passes_only_insert (content : text) (updated : bool) :
  subseq content (fst (import_augmenter content updated))
  /\ subseq content (fst (no_arg_rewriter content updated))
  /\ subseq content (fst (options_rewriter content updated))
  /\ subseq content (fst (transform content)).
Proof.
  repeat split.
  - apply import_augmenter_inserting.
  - apply no_arg_rewriter_inserting.
  - apply options_rewriter_inserting.
  - apply transform_inserting.
Qed.

(** X5. Each pass returns the flag raised exactly when the flag was
    raised before or the pass has changed the text; the three passes in a
    row, which start with the flag down, raise it exactly when the text
    has changed. *)
Theorem passes_report_changes (content : text) (updated : bool) :
  snd (import_augmenter content updated)
  = updated || differs (fst (import_augmenter content updated)) content
  /\ snd (no_arg_rewriter content updated)
     = updated || differs (fst (no_arg_rewriter content updated)) content
  /\ snd (options_rewriter content updated)
     = updated || differs (fst (options_rewriter content updated)) content
  /\ snd (transform content) = differs (fst (transform content)) content.
Proof.
  repeat split.
  - apply import_augmenter_inserting.
  - apply no_arg_rewriter_inserting.
  - apply options_rewriter_inserting.
  - apply transform_inserting.
Qed.

(** ** The options rewriter *)

(** X6. The loop of the options rewriter, for any number of lines: line
    [j] is rewritten when it holds [Gun::with_options(], none of the five
    lines before it in the text read holds [SecretKey::from_seed], and the
    pattern of line 69 matches; a rewritten line gets the counter value
    one more than the number of rewritten lines before it, every other
    line is copied; at the end all lines are read, the counter is one more
    than the number of rewritten lines, and the flag is raised when it was
    raised or a line is rewritten. *)
Theorem options_loop_numbering (lines : list text) (updated : bool) :
  while_loop (length lines) lines (mk_state 0 [] 1 updated)
  = mk_state (length lines)
      (flat_map (fun j => emitted lines j (1 + sites lines 0 j))
                (seq 0 (length lines)))
      (1 + sites lines 0 (length lines))
      (updated || existsb (rewrites lines) (seq 0 (length lines))).
Proof. apply while_loop_emitted_all. Qed.

(** X7. The options rewriter applied to the text it has written rewrites
    no line: the text comes back as it is, and so does the flag. *)
Theorem options_rewriter_idempotent (content : text) (updated updated' : bool) :
  options_rewriter (fst (options_rewriter content updated)) updated'
  = (fst (options_rewriter content updated), updated').
Proof.
  destruct (contains "Gun::with_options(" content) eqn:Hgate.
  - destruct (existsb (rewrites (split newline content))
                (seq 0 (length (split newline content)))) eqn:Hsite.
    + rewrite (@options_rewriter_emitted content updated Hgate). cbv zeta.
      rewrite Hsite, orb_true_r. cbn [fst].
      apply options_rewriter_settled, emitted_lines_settled.
    + rewrite (options_rewriter_settled content updated Hsite). cbn [fst].
      now apply options_rewriter_settled.
  - rewrite (options_rewriter_gate content updated Hgate). cbn [fst].
    now apply options_rewriter_gate.
Qed.

(** ** [update_file] *)

(** X8. For a file that can be read, [update_file] returns the flag of
    the three passes: it writes their text and returns true when the flag
    is raised, and returns false without writing otherwise.  The text
    that it writes is longer than the text that it has read, so the
    comparison of line 92 with the text read never holds a write back. *)
Theorem update_file_returns_flag (fs : filesystem) (file_path : string)
        (content : text) :
  fs file_path = Some content ->
  update_file fs file_path
  = Some (if snd (transform content)
          then write_file fs file_path (fst (transform content)) else fs,
          snd (transform content))
  /\ (snd (transform content) = true ->
      length content < length (fst (transform content))).
Proof.
  intros H. split; [now apply update_file_flag|].
  destruct (transform_inserting content) as (Hsub & Hflag).
  rewrite Hflag. intros Hd. apply subseq_longer; auto.
  apply differs_true in Hd. congruence.
Qed.

Lemma update_file_returns_flag_witness :
  update_file migrated_fs "examples/basic.rs"
  = Some (if snd (transform migrated_example)
          then write_file migrated_fs "examples/basic.rs"
                 (fst (transform migrated_example))
          else migrated_fs,
          snd (transform migrated_example))
  /\ (snd (transform migrated_example) = true ->
      length migrated_example < length (fst (transform migrated_example))).
Proof.
  apply (@update_file_returns_flag migrated_fs "examples/basic.rs"
           migrated_example).
  reflexivity.
Defined.

(** X9. [update_file] raises exactly when the path names no file that
    can be read; a file that can be read can be written, the file system
    has no other errors.  Otherwise it changes no name and leaves every
    file alone but the one that the path names, whatever other paths name
    that file; no file is made or removed, and the value returned tells
    whether the file that the path names differs from what it was. *)
Theorem update_file_effects (fs : filesystem) (file_path : string) :
  match update_file fs file_path with
  | None => fs file_path = None
  | Some (fs', changed_flag) =>
      fs file_path <> None
      /\ resolve fs' = resolve fs
      /\ (forall f, f <> resolve fs file_path -> store fs' f = store fs f)
      /\ (forall f, store fs' f = None <-> store fs f = None)
      /\ changed_flag = negb (same_file (fs file_path) (fs' file_path))
  end.
Proof.
  destruct (update_file fs file_path) as [[fs' b]|] eqn:E.
  - split; [|split; [|split; [|split]]].
    + intros H. apply update_file_opens in H. congruence.
    + exact (@update_file_names _ _ _ _ E).
    + intros f Hf. now apply (@update_file_frame _ _ _ _ _ E).
    + intros f. exact (@update_file_store _ _ _ _ f E).
    + now apply update_file_changed.
  - now apply update_file_opens.
Qed.

(** ** [main] *)

(** X10. [main] leaves alone every file that none of the paths names
    that the two glob patterns yield, whether it returns or raises: the
    file keeps its text, and every path that names it reads as before. *)
Theorem main_frame (glob : string -> list path) (w : world) (f : file_id) :
  (forall p, In p (globbed glob) -> file_of w p <> f) ->
  store (files (world_of (main glob w))) f = store (files w) f
  /\ forall q, resolve (files w) q = f ->
                files (world_of (main glob w)) q = files w q.
Proof.
  intros H. unfold main. rewrite globbed_files. cbv zeta.
  assert (Hf := @update_all_frame f (sorted (globbed glob)) w 0).
  assert (Hn := update_all_names (sorted (globbed glob)) w 0).
  assert (Hs : store (files (fst (update_all (sorted (globbed glob)) w 0))) f
               = store (files w) f).
  { apply Hf. intros p Hp. apply H. now apply sorted_In. }
  destruct (update_all (sorted (globbed glob)) w 0) as [w' [n|]];
    cbn [world_of files fst] in *; (split; [exact Hs|]);
    intros q <-; unfold read_file; now rewrite Hn.
Qed.

Lemma main_frame_witness :
  store (files (world_of (main example_glob example_world))) "src/lib.rs"
  = store (files example_world) "src/lib.rs"
  /\ forall q, resolve (files example_world) q = "src/lib.rs" ->
                files (world_of (main example_glob example_world)) q
                = files example_world q.
Proof.
  apply main_frame. intros p Hp.
  repeat (destruct Hp as [<-|Hp]; [discriminate|]). destruct Hp.
Defined.

(** X11. [main] returns exactly when every path that the glob patterns
    yield can be read; if one cannot, [main] raises (writing a file that
    has been read succeeds).  Either way no file is made or removed. *)
Theorem main_returns (glob : string -> list path) (w : world) :
  ((exists w', main glob w = Returned w')
   <-> forall p, In p (globbed glob) -> files w (path_str p) <> None)
  /\ forall q, files (world_of (main glob w)) q = None <-> files w q = None.
Proof.
  unfold main. rewrite globbed_files. cbv zeta.
  assert (Hr := update_all_returns (sorted (globbed glob)) w 0).
  assert (Hd := fun q => @update_all_domain q (sorted (globbed glob)) w 0).
  destruct (update_all (sorted (globbed glob)) w 0) as [w' [n|]];
    cbn [fst snd world_of files] in *.
  - split; auto. split.
    + intros _ p Hp. apply Hr; [discriminate|]. now apply sorted_In.
    + intros _. eexists. reflexivity.
  - split; auto. split.
    + intros [w'' H]. discriminate.
    + intros H. exfalso. apply (proj2 Hr); auto.
      intros p Hp. apply H. now apply sorted_In.
Qed.

(** X12. When [main] returns and the paths that the glob patterns yield
    name files that are all different, what it has printed is one line
    [Updated: path] for each path whose file differs from what it was, in
    the order of the sorted paths, and then the total, which is the number
    of these files. *)
Theorem main_report (glob : string -> list path) (w w' : world) :
  NoDup (map (file_of w) (globbed glob)) ->
  main glob w = Returned w' ->
  let updated_paths := filter (changed w w') (sorted (globbed glob)) in
  stdout w'
  = stdout w
      ++ map (fun p => "Updated: " ++ path_str p) updated_paths
      ++ [nl ++ "Total files updated: " ++ str (length updated_paths)].
Proof.
  intros Hnd H. unfold main in H. rewrite globbed_files in H. cbv zeta in H.
  destruct (update_all (sorted (globbed glob)) w 0) as [w1 [n|]] eqn:E;
    [|discriminate].
  injection H as <-.
  apply update_all_count in E as (Hout & Hn).
  - cbn [stdout]. unfold changed in *. cbn [files] in *.
    cbv zeta. fold (changed w w1) in *. unfold changed. cbn [files].
    rewrite Hout, Hn, <- app_assoc. reflexivity.
  - apply (Permutation_NoDup (l := map (file_of w) (globbed glob))); auto.
    apply Permutation_map. symmetry. apply sorted_perm.
Qed.

Lemma main_report_witness :
  let w' := world_of (main example_glob example_world) in
  let updated_paths :=
    filter (changed example_world w') (sorted (globbed example_glob)) in
  stdout w'
  = stdout example_world
      ++ map (fun p => "Updated: " ++ path_str p) updated_paths
      ++ [nl ++ "Total files updated: " ++ str (length updated_paths)].
Proof.
  apply (@main_report example_glob example_world
           (world_of (main example_glob example_world))).
  - cbv. repeat (apply NoDup_cons; [cbn; intuition discriminate|]).
    apply NoDup_nil.
  - vm_compute. reflexivity.
Defined.

(** ** More on the options rewriter *)

(** X13. Two rewritten lines of one pass get different key names: the
    counter with which the loop reaches a line after a rewritten line is
    greater than the counter of that line, and different counters give
    different names. *)
Theorem key_names_distinct (lines : list text) (updated : bool) (j1 j2 : nat) :
  j1 < j2 -> j2 <= length lines -> rewrites lines j1 = true ->
  let k1 := key_counter (while_loop j1 lines (mk_state 0 [] 1 updated)) in
  let k2 := key_counter (while_loop j2 lines (mk_state 0 [] 1 updated)) in
  k1 < k2
  /\ secret_key_name k1 <> secret_key_name k2
  /\ public_key_name k1 <> public_key_name k2.
Proof.
  intros Hlt Hlen Hr k1 k2.
  assert (H : k1 < k2).
  { unfold k1, k2. rewrite !while_loop_counter by lia.
    apply (sites_before lines Hlt) in Hr. lia. }
  split; auto.
  unfold secret_key_name, public_key_name.
  split; intros E; apply app_inv_head in E; apply str_inj in E; lia.
Qed.

Lemma key_names_distinct_witness :
  let lines := split newline two_calls in
  let k1 := key_counter (while_loop 0 lines (mk_state 0 [] 1 false)) in
  let k2 := key_counter (while_loop 1 lines (mk_state 0 [] 1 false)) in
  k1 < k2
  /\ secret_key_name k1 <> secret_key_name k2
  /\ public_key_name k1 <> public_key_name k2.
Proof.
  apply (@key_names_distinct (split newline two_calls) false 0 1);
    [lia|vm_compute; lia|reflexivity].
Defined.

(** X14. On a line with two calls of [Gun::with_options], each on an
    identifier, that has no key-generation statement in its window, the
    loop inserts one pair of key-generation lines.  It rewrites the first
    call, and the second call only when its identifier is the identifier
    of the first: then both calls get the same two key names; a second
    call on another identifier stays as it is. *)
Theorem loop_body_second_call (lines : list text) (st : loop_state)
        (p o q o' t : text) :
  nth (i st) lines []
  = p ++ ("Gun::with_options(" ++ o ++ ")") ++ q
      ++ ("Gun::with_options(" ++ o' ++ ")") ++ t ->
  contains "Gun::with_options(" p = false ->
  contains "Gun::with_options(" q = false ->
  contains "Gun::with_options(" t = false ->
  all is_word o -> o <> [] -> all is_word o' ->
  contains "SecretKey::from_seed" (lookback lines (i st)) = false ->
  let k := key_counter st in
  let indent_str := indent_of (nth (i st) lines []) in
  loop_body lines st
  = mk_state (S (i st))
      (new_lines st ++
         [rstrip (key_gen indent_str k);
          p ++ new_call k o ++ q
            ++ (if text_eqb o o' then new_call k o
                else "Gun::with_options(" ++ o' ++ ")") ++ t])
      (S k) true.
Proof.
  intros Hl Hp Hq Ht Ho Hne Ho' Hk k indent_str.
  now apply loop_body_two_calls.
Qed.

Lemma loop_body_second_call_witness :
  loop_body [two_calls_line] (mk_state 0 [] 1 false)
  = mk_state 1
      [rstrip (key_gen (indent_of two_calls_line) 1);
       lit "    let a = " ++ new_call 1 "opts1" ++ lit ".await; let b = "
         ++ lit "Gun::with_options(opts2)" ++ lit ".await;"]
      2 true.
Proof.
  apply (@loop_body_second_call [two_calls_line] (mk_state 0 [] 1 false)
           "    let a = " "opts1" ".await; let b = " "opts2" ".await;");
    try reflexivity; try discriminate; repeat constructor.
Defined.

(** ** [main] and a file that cannot be read *)

(** X15. When [main] comes to a path that cannot be read, it raises
    there: the files at the paths sorted before it have been updated and
    reported, the files at the paths after it are not looked at, and the
    total is not printed. *)
Theorem main_raises (glob : string -> list path) (w : world)
        (a b : list path) (p : path) :
  sorted (globbed glob) = a ++ p :: b ->
  (forall x, In x a -> files w (path_str x) <> None) ->
  files w (path_str p) = None ->
  main glob w = Raised (fst (update_all a w 0)).
Proof.
  intros Hs Ha Hp. unfold main. rewrite globbed_files. cbv zeta.
  rewrite Hs, update_all_app.
  assert (Hr := proj2 (update_all_returns a w 0) Ha).
  assert (Hd := @update_all_domain (path_str p) a w 0).
  destruct (update_all a w 0) as [w1 [n1|]]; cbn [fst snd] in *;
    [|congruence].
  cbn [update_all].
  replace (update_file (files w1) (path_str p)) with (@None (filesystem * bool));
    [reflexivity|].
  symmetry. apply update_file_opens. now apply Hd.
Qed.

Lemma main_raises_witness :
  main stale_glob example_world
  = Raised (fst (update_all [["examples"; "basic.rs"]] example_world 0)).
Proof.
  apply (@main_raises stale_glob example_world [["examples"; "basic.rs"]]
           [["tests"; "net"; "sync.rs"]]
           ["examples"; "gone.rs"]).
  - vm_compute. reflexivity.
  - intros x [<-|[]]. discriminate.
  - reflexivity.
Defined.

(** ** The no-argument rewriter at its call sites *)

(** X16. A statement [let gun = Gun::new();] or
    [let NAME = Arc::new(Gun::new());] (any identifier), with the run of
    white space [w] that stands before it, line breaks included, is
    replaced by four pieces, each after a copy of [w] and each but the last
    followed by a line break: the comment, the secret key made from the
    all-zero seed, the public key of that secret key, and the binding with
    both keys passed to [Gun::new]; [Arc::new(...)] stays around the call.
    The text before and after is rewritten as it would be alone, and the
    flag is raised. *)
Theorem no_arg_rewriter_sites
        (pre post w w2 n w3 w4 : text) (updated : bool) :
  stops is_space (rev pre) ->
  all is_space w -> w <> [] -> all is_space w2 -> w2 <> [] ->
  all is_word n -> n <> [] -> all is_space w3 -> all is_space w4 ->
  no_arg_rewriter
    (pre ++ (w ++ bare_stmt w2 w3 w4 ++ "Gun::new();") ++ post) updated
  = (fst (no_arg_rewriter pre updated)
       ++ block w (bare_stmt w2 w3 w4) "Gun::new(secret_key, public_key);"
       ++ fst (no_arg_rewriter post updated),
     true)
  /\ no_arg_rewriter
       (pre ++ (w ++ arc_stmt w2 n w3 w4 ++ "Gun::new());") ++ post) updated
     = (fst (no_arg_rewriter pre updated)
          ++ block w (arc_stmt w2 n w3 w4) "Gun::new(secret_key, public_key));"
          ++ fst (no_arg_rewriter post updated),
        true).
Proof. apply no_arg_rewriter_site_blocks. Qed.

Lemma no_arg_rewriter_sites_witness :
  no_arg_rewriter
    ("fn main() {" ++ nl ++ "    let gun = Gun::new();" ++ nl ++ "}") false
  = ("fn main() {" ++ nl
       ++ "    // Generate BLS key pair" ++ nl ++ nl
       ++ "    let secret_key = SecretKey::from_seed(&[0u8; 32]);" ++ nl ++ nl
       ++ "    let public_key = secret_key.public_key();" ++ nl ++ nl
       ++ "    let gun = Gun::new(secret_key, public_key);" ++ nl ++ "}",
     true)
  /\ no_arg_rewriter
       ("fn main() {" ++ nl ++ "    let shared = Arc::new(Gun::new());" ++ nl
          ++ "}") false
     = ("fn main() {" ++ nl
          ++ "    // Generate BLS key pair" ++ nl ++ nl
          ++ "    let secret_key = SecretKey::from_seed(&[0u8; 32]);" ++ nl ++ nl
          ++ "    let public_key = secret_key.public_key();" ++ nl ++ nl
          ++ "    let shared = Arc::new(Gun::new(secret_key, public_key));"
          ++ nl ++ "}",
        true).
Proof.
  assert (H := @no_arg_rewriter_sites
                  (lit "fn main() {") (nl ++ lit "}") (nl ++ lit "    ")
                  (lit " ") (lit "shared") (lit " ") (lit " ") false).
  repeat match type of H with
         | ?A -> _ =>
             let h := fresh in
             assert (h : A)
               by first [discriminate | reflexivity | now repeat constructor];
             specialize (H h); clear h
         end.
  destruct H as [H1 H2].
  split; [revert H1 | revert H2]; clear; vm_compute; exact (fun H => H).
Defined.
